(** * Monte-Carlo tree search for Stockfish (src/montecarlo.cpp)

    A shallow embedding of the UCT class of [montecarlo.cpp] and the
    properties of its functions.

    Conventions of the embedding.
    - [double] (and [Reward], which the code builds with [Reward(r)] from a
      [double]) is IEEE-754 binary64: Rocq's primitive [float].  The two
      functions of the reward codec call [exp] and [log] of the C
      library, which binary64 does not fix to the last bit; they are
      parameters of the model, and [LibmSpec] says how close to the
      reference values of the module [Libm] they are taken to be.
    - [int] is [Z].  The counters that [search] increments for ever wrap
      around as 32-bit integers ([int_wrap]); the other integers are
      indices and counts kept within their arrays.
    - [Node] is a pointer to a [UCTInfo] ([get_infos] is the identity): an
      optional address into a store of [UCTInfo] records, the null pointer
      being [None].  Member functions of [UCT] are state transformers on
      the object together with that store and the text sent to
      [std::cerr].
    - A call returns, is cut short by a failed [assert] (which calls
      [abort] unless the build defines [NDEBUG]), or has no defined
      behaviour (a null pointer or an index outside its array).
    - [montecarlo.h], [types.h], [position.h], [search.h] and [thread.h]
      are not part of the sources at hand.  The constants they declare are
      the fields of the class [Header], the collaborators ([Position],
      [MovePicker], the evaluation, [std::sort], [exp] and [log]) those of
      the class [Environment].  [std::sort] is taken by its contract,
      [StdSortSpec]; the module [Libstdcxx] is the sort of the GNU
      library, for what the contract leaves open. *)

From Stdlib Require Import ZArith Floats Lia Permutation.
From stdpp Require Import base option list gmap strings pretty.

#[local] Set Warnings "-inexact-float".
#[local] Open Scope Z_scope.

(* ================================================================== *)
(** * Part I.  The embedding                                           *)
(* ================================================================== *)

(** ** Numbers *)

Module Double.

#[local] Open Scope float_scope.

(** The implicit conversion from [int] to [double]; exact on 32-bit
    integers. *)
Definition of_int (z : Z) : float :=
  match z with
  | Z0 => 0
  | Zpos _ => PrimFloat.of_uint63 (Uint63.of_Z z)
  | Zneg p => - PrimFloat.of_uint63 (Uint63.of_Z (Zpos p))
  end.

(** [a > b] on doubles. *)
Definition gt (a b : float) : bool := b <? a.

(** [a < b] on doubles. *)
Definition lt (a b : float) : bool := a <? b.

(** [a >= b] on doubles. *)
Definition ge (a b : float) : bool := b <=? a.

(** A double that is a number, that is, not a NaN. *)
Definition is_number (a : float) : Prop := PrimFloat.is_nan a = false.

(** The conversion [int(x)] of a double: the fractional part is
    discarded.  C++ leaves the conversion of a NaN or an infinity
    undefined; the model gives 0 there. *)
Definition to_int (x : float) : Z :=
  match Prim2SF x with
  | S754_finite sign m e =>
      let a := if (0 <=? e)%Z then (Zpos m * 2 ^ e)%Z
               else (Zpos m / 2 ^ (- e))%Z in
      if sign then (- a)%Z else a
  | _ => 0%Z
  end.

End Double.

(** ** Reference values of [exp] and [log]

    The source calls [exp] and [log] of the C library, whose results in
    binary64 no standard fixes to the last bit.  The two functions below
    compute them in binary64 by argument reduction and a series; they are
    the yardstick of [LibmSpec], which asks the library's results to lie
    within a few units in the last place of them. *)

Module Libm.

#[local] Open Scope float_scope.

(** [log 2], split in a high part with trailing zeros and the rest. *)
Definition ln2_hi : float := 0x1.62e42fee00000p-1.
Definition ln2_lo : float := 0x1.a39ef35793c76p-33.
Definition inv_ln2 : float := 1.4426950408889634.
Definition sqrt2 : float := 1.4142135623730951.
Definition sqrt_half : float := 0.70710678118654757.

(** The integer nearest to [x], for [|x| < 2^51]. *)
Definition nearest (x : float) : float :=
  (x + 6755399441055744) - 6755399441055744.

(** [2^n], exactly. *)
Definition pow2 (n : Z) : float :=
  if (0 <=? n)%Z then Double.of_int (2 ^ n)
  else 1 / Double.of_int (2 ^ (- n)).

(** The series of [exp] in Horner form, from the term of rank [i] down. *)
Fixpoint exp_series (i : nat) (r p : float) : float :=
  match i with
  | O => p
  | S j => exp_series j r (1 + r / Double.of_int (Z.of_nat i) * p)
  end.

(** [exp x = 2^n * exp r] with [x = n log 2 + r]. *)
Definition exp (x : float) : float :=
  let n := nearest (x * inv_ln2) in
  let r := x - n * ln2_hi - n * ln2_lo in
  exp_series 14 r 1 * pow2 (Double.to_int n).

(** [q = m * 2^e] with [m] between the square roots of 1/2 and of 2. *)
Fixpoint halve (fuel : nat) (m : float) (e : Z) : float * Z :=
  match fuel with
  | O => (m, e)
  | S f => if sqrt2 <=? m then halve f (m / 2) (e + 1)%Z else (m, e)
  end.

Fixpoint double (fuel : nat) (m : float) (e : Z) : float * Z :=
  match fuel with
  | O => (m, e)
  | S f => if m <? sqrt_half then double f (m * 2) (e - 1)%Z else (m, e)
  end.

(** [z/3 + z^2/5 + ... + z^13/27] in Horner form. *)
Definition log_series (z : float) : float :=
  fold_left (fun p k => z * (1 / Double.of_int k + p))
    [27; 25; 23; 21; 19; 17; 15; 13; 11; 9; 7; 5; 3]%Z 0.

(** [log q = e log 2 + 2 atanh s] with [s = (m - 1) / (m + 1)], for [q]
    between [2^-8] and [2^8]. *)
Definition log (q : float) : float :=
  let (m1, e1) := halve 8 q 0 in
  let (m, e) := double 8 m1 e1 in
  let s := (m - 1) / (m + 1) in
  let p := log_series (s * s) in
  let t := 2 * s in
  let lm := t + t * p in
  let ef := Double.of_int e in
  ef * ln2_hi + (lm + ef * ln2_lo).

(** The [n] doubles above [y] and the [n] doubles below it. *)
Fixpoint above (n : nat) (y : float) : list float :=
  match n with
  | O => []
  | S n' => next_up y :: above n' (next_up y)
  end.

Fixpoint below (n : nat) (y : float) : list float :=
  match n with
  | O => []
  | S n' => next_down y :: below n' (next_down y)
  end.

(** The doubles within [n] units in the last place of [y]. *)
Definition around (n : nat) (y : float) : list float :=
  y :: above n y ++ below n y.

End Libm.

(** ** What the missing headers declare *)

(** [enum Move : int]. *)
Definition Move := Z.

(** [enum Value : int]. *)
Definition Value := Z.

(** [enum Square : int] and [enum Piece]. *)
Definition Square := Z.
Definition Piece := Z.

(** [enum Depth : int]. *)
Definition Depth := Z.

(** [typedef double Reward]. *)
Definition Reward := float.

(** The value an [int] holds after an arithmetic result [z]: 32 bits in
    two's complement, so that one more than 2147483647 is -2147483648.
    (The standard leaves the overflow undefined; the machines the engine
    is built for wrap around.) *)
Definition int_wrap (z : Z) : Z := (z + 2 ^ 31) mod 2 ^ 32 - 2 ^ 31.

(** The values of an [int]. *)
Definition int_range (z : Z) : Prop := - 2 ^ 31 <= z < 2 ^ 31.

(** The constants of [types.h] and [montecarlo.h], and the build mode. *)
Class Header := {
  MAX_SONS : Z;            (* capacity of [UCTInfo::edges] *)
  MOVE_NONE : Move;
  NO_PIECE : Piece;
  VALUE_KNOWN_WIN : Value;
  ONE_PLY : Depth;
  DEPTH_ZERO : Depth;
  to_sq : Move -> Square;
  STACK_SIZE : nat;        (* entries of [stackBuffer] *)
  STACK_BASE : Z;          (* [stack - stackBuffer] *)
  NODES_SIZE : nat;        (* entries of [nodesBuffer] *)
  NODES_BASE : Z;          (* [nodes - nodesBuffer] *)
  STATES_SIZE : Z;         (* entries of [states] *)
  NDEBUG : bool            (* [true]: [assert] compiles to nothing *)
}.

(** A pointer into one of the history tables of the thread:
    [&contHistory[piece][square]]. *)
Definition PieceToHistoryRef := (Piece * Square)%type.

Module Search.

(** [Search::Stack], the entry of the search stack; the fields the file
    uses. *)
Record Stack := mkStack {
  ply : Z;
  currentMove : Move;
  contHistory : option PieceToHistoryRef;
  moveCount : Z;
  killers : list Move
}.

(** An entry after [std::memset(.., 0, ..)]. *)
Definition zeroed : Stack := mkStack 0 0 None 0 [0; 0].

End Search.

(** ** The tree: edges and nodes *)

(** [struct Edge]: one candidate move of a node.  [meanAcionValue] is the
    spelling of the source. *)
Record Edge := mkEdge {
  move : Move;
  visits : Z;
  prior : Reward;
  actionValue : Reward;
  meanAcionValue : Reward
}.

Arguments mkEdge (_ _)%_Z (_ _ _)%_float.

(** [struct UCTInfo]: what a [Node] points to.  [node_visits] is the field
    [visits] of the node; [edges] is the array [Edge edges[MAX_SONS]], of
    which the first [sons] entries are in use. *)
Record UCTInfo := mkUCTInfo {
  node_visits : Z;
  sons : Z;
  expandedSons : Z;
  lastMove : Move;
  edges : list Edge
}.

Arguments mkUCTInfo (_ _ _ _)%_Z _.

(** [typedef UCTInfo* Node]: an address, or the null pointer. *)
Definition Node := option positive.

Definition nullptr : Node := None.

(** The edges a loop [for (k = 0; k < number_of_sons(node); k++)] visits. *)
Definition live_edges (s : UCTInfo) : list Edge :=
  take (Z.to_nat (sons s)) (edges s).

(** A node the code can work on: the edge array has [MAX_SONS] entries and
    the son count lies within it. *)
Definition wf_node `{Header} (s : UCTInfo) : Prop :=
  (0 <= sons s <= MAX_SONS)%Z /\ Z.of_nat (length (edges s)) = MAX_SONS.

(** Modelled from the spec: [ComparePrior], the comparison [generate_moves]
    hands to [std::sort], is declared in [montecarlo.h], which is missing;
    the spec has the edges sorted "by descending prior", so it is
    [a.prior > b.prior]. *)
Definition ComparePrior (a b : Edge) : bool := Double.gt (prior a) (prior b).

(** ** [std::sort] of the GNU C++ library

    [generate_moves] sorts with [std::sort].  The standard fixes what the
    call promises ([StdSortSpec] below); what it does with equivalent
    elements depends on the library.  This is the algorithm of libstdc++
    ([bits/stl_algo.h] and [bits/stl_heap.h]): an introsort down to ranges
    of 16 elements, then a sort by insertion.  Iterators are indices into
    the array, which is a list. *)

Module Libstdcxx.

Section Introsort.

Context {A : Type} (comp : A -> A -> bool).

(** [comp(first + i, first + j)]; outside the array, where the library has
    no defined behaviour, [false]. *)
Definition comp_at (l : list A) (i j : nat) : bool :=
  match l !! i, l !! j with
  | Some x, Some y => comp x y
  | _, _ => false
  end.

(** [std::iter_swap]. *)
Definition iter_swap (i j : nat) (l : list A) : list A :=
  match l !! i, l !! j with
  | Some x, Some y => <[i := y]> (<[j := x]> l)
  | _, _ => l
  end.

(** [__move_median_to_first]. *)
Definition move_median_to_first (result a b c : nat) (l : list A) : list A :=
  if comp_at l a b then
    if comp_at l b c then iter_swap result b l
    else if comp_at l a c then iter_swap result c l
    else iter_swap result a l
  else if comp_at l a c then iter_swap result a l
  else if comp_at l b c then iter_swap result c l
  else iter_swap result b l.

(** [while (comp(first, pivot)) ++first]. *)
Fixpoint scan_up (fuel : nat) (l : list A) (pivot first : nat) : nat :=
  match fuel with
  | O => first
  | S f => if comp_at l first pivot then scan_up f l pivot (S first) else first
  end.

(** [while (comp(pivot, last)) --last]. *)
Fixpoint scan_down (fuel : nat) (l : list A) (pivot last : nat) : nat :=
  match fuel with
  | O => last
  | S f => if comp_at l pivot last then scan_down f l pivot (pred last) else last
  end.

(** [__unguarded_partition]; a pass of its outer loop moves [first] on,
    so that [fuel] passes are enough for an array of [fuel] elements. *)
Fixpoint unguarded_partition (fuel : nat) (first last pivot : nat)
    (l : list A) : nat * list A :=
  match fuel with
  | O => (first, l)
  | S f =>
      let first := scan_up (length l) l pivot first in
      let last := scan_down (length l) l pivot (pred last) in
      if (first <? last)%nat
      then unguarded_partition f (S first) last pivot (iter_swap first last l)
      else (first, l)
  end.

(** [__unguarded_partition_pivot]. *)
Definition unguarded_partition_pivot (first last : nat) (l : list A)
    : nat * list A :=
  let mid := (first + (last - first) / 2)%nat in
  let l := move_median_to_first first (first + 1) mid (last - 1) l in
  unguarded_partition (length l) (first + 1) last first l.

(** [first[dst] = std::move(first[src])], on indices from the start of the
    array. *)
Definition move_at (dst src : nat) (l : list A) : list A :=
  match l !! src with
  | Some x => <[dst := x]> l
  | None => l
  end.

(** [__push_heap]. *)
Fixpoint push_heap (fuel : nat) (first holeIndex topIndex : nat) (value : A)
    (l : list A) : list A :=
  match fuel with
  | O => <[(first + holeIndex)%nat := value]> l
  | S f =>
      let parent := ((holeIndex - 1) / 2)%nat in
      if (topIndex <? holeIndex)%nat
         && match l !! (first + parent)%nat with
            | Some x => comp x value
            | None => false
            end
      then push_heap f first parent topIndex value
             (move_at (first + holeIndex) (first + parent) l)
      else <[(first + holeIndex)%nat := value]> l
  end.

(** The first loop of [__adjust_heap], on the pair of its variables
    [holeIndex] and [secondChild]. *)
Fixpoint sift_down (fuel : nat) (first len holeIndex secondChild : nat)
    (l : list A) : nat * nat * list A :=
  match fuel with
  | O => (holeIndex, secondChild, l)
  | S f =>
      if (secondChild <? (len - 1) / 2)%nat then
        let secondChild := (2 * (secondChild + 1))%nat in
        let secondChild :=
          if comp_at l (first + secondChild) (first + (secondChild - 1))
          then (secondChild - 1)%nat else secondChild in
        sift_down f first len secondChild secondChild
          (move_at (first + holeIndex) (first + secondChild) l)
      else (holeIndex, secondChild, l)
  end.

(** [__adjust_heap]. *)
Definition adjust_heap (first holeIndex len : nat) (value : A) (l : list A)
    : list A :=
  let topIndex := holeIndex in
  let '(holeIndex, secondChild, l) :=
    sift_down len first len holeIndex holeIndex l in
  let '(holeIndex, l) :=
    if Nat.even len && (secondChild =? (len - 2) / 2)%nat
    then let secondChild := (2 * (secondChild + 1))%nat in
         ((secondChild - 1)%nat,
          move_at (first + holeIndex) (first + (secondChild - 1)) l)
    else (holeIndex, l) in
  push_heap len first holeIndex topIndex value l.

(** [__pop_heap]. *)
Definition pop_heap (first last result : nat) (l : list A) : list A :=
  match l !! result with
  | Some value =>
      adjust_heap first 0 (last - first) value (move_at result first l)
  | None => l
  end.

(** The loop of [__make_heap], from [parent] down to 0. *)
Fixpoint make_heap_from (parent : nat) (first len : nat) (l : list A)
    : list A :=
  let l := match l !! (first + parent)%nat with
           | Some value => adjust_heap first parent len value l
           | None => l
           end in
  match parent with
  | O => l
  | S parent' => make_heap_from parent' first len l
  end.

(** [__make_heap]. *)
Definition make_heap (first last : nat) (l : list A) : list A :=
  if (last - first <? 2)%nat then l
  else make_heap_from ((last - first - 2) / 2) first (last - first) l.

(** [__sort_heap]. *)
Fixpoint sort_heap (fuel : nat) (first last : nat) (l : list A) : list A :=
  match fuel with
  | O => l
  | S f =>
      if (1 <? last - first)%nat
      then sort_heap f first (last - 1) (pop_heap first (last - 1) (last - 1) l)
      else l
  end.

(** [__partial_sort(first, last, last)]: the heap sort that
    [__introsort_loop] falls back on. *)
Definition partial_sort_all (first last : nat) (l : list A) : list A :=
  sort_heap (length l) first last (make_heap first last l).

(** [__introsort_loop]: a pass of its loop and the call inside it both go
    on with the depth limit lowered by one. *)
Fixpoint introsort_loop (depth_limit : nat) (first last : nat) (l : list A)
    : list A :=
  match depth_limit with
  | O => if (16 <? last - first)%nat then partial_sort_all first last l else l
  | S d =>
      if (16 <? last - first)%nat then
        let (cut, l) := unguarded_partition_pivot first last l in
        introsort_loop d first cut (introsort_loop d cut last l)
      else l
  end.

(** [__unguarded_linear_insert]; at the front of the array, where the
    library would read in front of it, the value is stored. *)
Fixpoint unguarded_linear_insert (last : nat) (val : A) (l : list A)
    : list A :=
  match last with
  | O => <[last := val]> l
  | S next =>
      match l !! next with
      | Some x =>
          if comp val x
          then unguarded_linear_insert next val (<[last := x]> l)
          else <[last := val]> l
      | None => <[last := val]> l
      end
  end.

(** [val = *i; std::move_backward(first, i, i + 1); *first = val]. *)
Definition move_to_front (first i : nat) (l : list A) : list A :=
  match l !! i with
  | Some val =>
      take first l ++ val :: take (i - first) (drop first l) ++ drop (S i) l
  | None => l
  end.

(** [__insertion_sort]. *)
Definition insertion_sort (first last : nat) (l : list A) : list A :=
  fold_left (fun l i =>
               if comp_at l i first then move_to_front first i l
               else match l !! i with
                    | Some val => unguarded_linear_insert i val l
                    | None => l
                    end)
            (seq (first + 1) (last - (first + 1))) l.

(** [__unguarded_insertion_sort]. *)
Definition unguarded_insertion_sort (first last : nat) (l : list A)
    : list A :=
  fold_left (fun l i =>
               match l !! i with
               | Some val => unguarded_linear_insert i val l
               | None => l
               end)
            (seq first (last - first)) l.

(** [__final_insertion_sort], with [_S_threshold = 16]. *)
Definition final_insertion_sort (first last : nat) (l : list A) : list A :=
  if (16 <? last - first)%nat
  then unguarded_insertion_sort (first + 16) last
         (insertion_sort first (first + 16) l)
  else insertion_sort first last l.

(** [std::sort(first, last, comp)] on the array [l]. *)
Definition sort (l : list A) : list A :=
  match l with
  | [] => l
  | _ =>
      final_insertion_sort 0 (length l)
        (introsort_loop (Nat.log2 (length l) * 2) 0 (length l) l)
  end.

End Introsort.

End Libstdcxx.

(** ** The collaborators *)

(** What [generate_moves] hands to the constructor of [MovePicker]. *)
Record PickerArgs := mkPickerArgs {
  pa_ttMove : Move;
  pa_depth : Depth;
  pa_contHist : list (option PieceToHistoryRef);
  pa_countermove : Move;
  pa_killers : list Move
}.

Class Environment := {
  Position : Type;
  (** [Position::do_move(m, st)] and [Position::undo_move(m)]. *)
  pos_do_move : Position -> Move -> Position;
  pos_undo_move : Position -> Move -> Position;
  (** [Position::legal], [moved_piece], [piece_on]. *)
  pos_legal : Position -> Move -> bool;
  moved_piece : Position -> Move -> Piece;
  piece_on : Position -> Square -> Piece;
  (** [rootPosition.set(pos.fen(), ...)]: the position rebuilt from the FEN
      string of another. *)
  pos_set_fen : Position -> Position;
  (** [operator<<] on a position. *)
  pos_print : Position -> string;
  (** [thread->counterMoves]. *)
  counterMoves : Piece -> Square -> Move;
  (** The moves [MovePicker::next_move] yields before [MOVE_NONE]. *)
  picker_moves : Position -> PickerArgs -> list Move;
  (** [minimax_value(pos, ss, depth)]. *)
  minimax_value : Position -> Search.Stack -> Depth -> Value;
  (** [std::sort(first, last, comp)] on the range as a list. *)
  std_sort : (Edge -> Edge -> bool) -> list Edge -> list Edge;
  (** [exp] and [log] of [<cmath>]. *)
  libm_exp : float -> float;
  libm_log : float -> float
}.

(** What the C++ standard promises of [std::sort] when [comp] is a strict
    weak ordering of the range, as [>] is on doubles that are numbers: the
    result is a rearrangement of the range in which no element is
    [comp]-before an earlier one.  The order of equivalent elements is not
    part of the promise. *)
Definition sorted_by (comp : Edge -> Edge -> bool) (l : list Edge) : Prop :=
  forall i j a b, (i < j)%nat -> l !! i = Some a -> l !! j = Some b ->
    comp b a = false.

Class StdSortSpec `{Environment} : Prop := {
  std_sort_perm : forall comp l, Permutation (std_sort comp l) l;
  std_sort_sorted : forall l,
    Forall (fun e => Double.is_number (prior e)) l ->
    sorted_by ComparePrior (std_sort ComparePrior l)
}.

(** What the codec needs of the C library: on the arguments it hands
    over (between -4 and 4 for [exp], between 1/64 and 64 for [log]) the
    results are within two, respectively three, units in the last place
    of the reference values.  The library is documented to be within one
    unit of the true value, and so is the reference within rounding. *)
Class LibmSpec `{Environment} : Prop := {
  libm_exp_near : forall x,
    Double.ge x (-4) = true -> Double.ge 4 x = true ->
    In (libm_exp x) (Libm.around 2 (Libm.exp x));
  libm_log_near : forall q,
    Double.ge q 0.015625 = true -> Double.ge 64 q = true ->
    In (libm_log q) (Libm.around 3 (Libm.log q))
}.

(** What the spec requires of the game-state collaborator: undoing a legal
    move that was just made gives back the position. *)
Class ExactUndo `{Environment} : Prop := {
  undo_do : forall p m, pos_legal p m = true ->
    pos_undo_move (pos_do_move p m) m = p
}.

(** ** The search object *)

Section Embedding.

Context `{Header} `{Environment}.

(** The data members of [class UCT], followed by the memory outside the
    object that its functions touch: [store] holds the [UCTInfo] records
    that [Node]s point to, [cerr] the lines sent to [std::cerr].  The array
    [states] is handed to [Position::do_move] and is part of what
    [Position] abstracts; only its size is kept, in the header. *)
Record UCT := mkUCT {
  pos : Position;
  rootPosition : Position;
  root : Node;
  explorationConstant : float;
  ply : Z;
  doMoveCnt : Z;
  descentCnt : Z;
  playoutCnt : Z;
  treeSize : Z;
  nodesBuffer : list Node;
  stackBuffer : list Search.Stack;
  store : gmap positive UCTInfo;
  cerr : list string
}.

Definition set_pos (v : Position) (u : UCT) : UCT :=
  mkUCT v (rootPosition u) (root u) (explorationConstant u) (ply u) (doMoveCnt u) (descentCnt u) (playoutCnt u) (treeSize u) (nodesBuffer u) (stackBuffer u) (store u) (cerr u).

Definition set_rootPosition (v : Position) (u : UCT) : UCT :=
  mkUCT (pos u) v (root u) (explorationConstant u) (ply u) (doMoveCnt u) (descentCnt u) (playoutCnt u) (treeSize u) (nodesBuffer u) (stackBuffer u) (store u) (cerr u).

Definition set_root (v : Node) (u : UCT) : UCT :=
  mkUCT (pos u) (rootPosition u) v (explorationConstant u) (ply u) (doMoveCnt u) (descentCnt u) (playoutCnt u) (treeSize u) (nodesBuffer u) (stackBuffer u) (store u) (cerr u).

Definition set_explorationConstant (v : float) (u : UCT) : UCT :=
  mkUCT (pos u) (rootPosition u) (root u) v (ply u) (doMoveCnt u) (descentCnt u) (playoutCnt u) (treeSize u) (nodesBuffer u) (stackBuffer u) (store u) (cerr u).

Definition set_ply (v : Z) (u : UCT) : UCT :=
  mkUCT (pos u) (rootPosition u) (root u) (explorationConstant u) v (doMoveCnt u) (descentCnt u) (playoutCnt u) (treeSize u) (nodesBuffer u) (stackBuffer u) (store u) (cerr u).

Definition set_doMoveCnt (v : Z) (u : UCT) : UCT :=
  mkUCT (pos u) (rootPosition u) (root u) (explorationConstant u) (ply u) v (descentCnt u) (playoutCnt u) (treeSize u) (nodesBuffer u) (stackBuffer u) (store u) (cerr u).

Definition set_descentCnt (v : Z) (u : UCT) : UCT :=
  mkUCT (pos u) (rootPosition u) (root u) (explorationConstant u) (ply u) (doMoveCnt u) v (playoutCnt u) (treeSize u) (nodesBuffer u) (stackBuffer u) (store u) (cerr u).

Definition set_playoutCnt (v : Z) (u : UCT) : UCT :=
  mkUCT (pos u) (rootPosition u) (root u) (explorationConstant u) (ply u) (doMoveCnt u) (descentCnt u) v (treeSize u) (nodesBuffer u) (stackBuffer u) (store u) (cerr u).

Definition set_treeSize (v : Z) (u : UCT) : UCT :=
  mkUCT (pos u) (rootPosition u) (root u) (explorationConstant u) (ply u) (doMoveCnt u) (descentCnt u) (playoutCnt u) v (nodesBuffer u) (stackBuffer u) (store u) (cerr u).

Definition set_nodesBuffer (v : list Node) (u : UCT) : UCT :=
  mkUCT (pos u) (rootPosition u) (root u) (explorationConstant u) (ply u) (doMoveCnt u) (descentCnt u) (playoutCnt u) (treeSize u) v (stackBuffer u) (store u) (cerr u).

Definition set_stackBuffer (v : list Search.Stack) (u : UCT) : UCT :=
  mkUCT (pos u) (rootPosition u) (root u) (explorationConstant u) (ply u) (doMoveCnt u) (descentCnt u) (playoutCnt u) (treeSize u) (nodesBuffer u) v (store u) (cerr u).

Definition set_store (v : gmap positive UCTInfo) (u : UCT) : UCT :=
  mkUCT (pos u) (rootPosition u) (root u) (explorationConstant u) (ply u) (doMoveCnt u) (descentCnt u) (playoutCnt u) (treeSize u) (nodesBuffer u) (stackBuffer u) v (cerr u).

Definition set_cerr (v : list string) (u : UCT) : UCT :=
  mkUCT (pos u) (rootPosition u) (root u) (explorationConstant u) (ply u) (doMoveCnt u) (descentCnt u) (playoutCnt u) (treeSize u) (nodesBuffer u) (stackBuffer u) (store u) v.

(** How a call ends: it returns a value, a failed [assert] aborts the
    program, or the behaviour is undefined.  The first two carry the
    memory at that point. *)
Inductive Outcome (A : Type) : Type :=
| Returned (a : A) (u : UCT)
| Aborted (u : UCT)
| Undefined.

Arguments Returned {A} a u.
Arguments Aborted {A} u.
Arguments Undefined {A}.

Definition M (A : Type) : Type := UCT -> Outcome A.

Definition ret {A} (a : A) : M A := fun u => Returned a u.

Definition bind {A B} (c : M A) (k : A -> M B) : M B := fun u =>
  match c u with
  | Returned a u' => k a u'
  | Aborted u' => Aborted u'
  | Undefined => Undefined
  end.

#[global] Instance M_ret : MRet M := @ret.
#[global] Instance M_bind : MBind M := fun A B k c => bind c k.

Definition get : M UCT := fun u => Returned u u.

Definition modify (f : UCT -> UCT) : M unit := fun u => Returned tt (f u).

Definition undefined {A} : M A := fun _ => Undefined.

(** [assert(b)]. *)
Definition assert (b : bool) : M unit := fun u =>
  if NDEBUG then Returned tt u
  else if b then Returned tt u else Aborted u.

(** [std::cerr << line << std::endl]. *)
Definition print_cerr (line : string) : M unit :=
  modify (fun u => set_cerr (cerr u ++ [line]) u).

(** A loop over the elements of a list that carries the local variables
    of its body. *)
Fixpoint foldM {A B} (f : B -> A -> M B) (l : list A) (b : B) : M B :=
  match l with
  | [] => ret b
  | a :: l' => b' ← f b a; foldM f l' b'
  end.

(** The index of [base[i]] in a buffer of [len] entries, when [base] points
    [off] entries into it. *)
Definition slot (off : Z) (len : nat) (i : Z) : option nat :=
  if decide (0 <= off + i < Z.of_nat len) then Some (Z.to_nat (off + i)) else None.

(** *** Reading and writing through pointers *)

(** [*node]. *)
Definition load (node : Node) : M UCTInfo := fun u =>
  match node ≫= (fun a => store u !! a) with
  | Some s => Returned s u
  | None => Undefined
  end.

(** [*node = s]. *)
Definition save (node : Node) (s : UCTInfo) : M unit :=
  load node;;
  match node with
  | Some a => modify (fun u => set_store (<[a := s]> (store u)) u)
  | None => undefined
  end.

(** [stack[i]], read. *)
Definition stack_read (i : Z) : M Search.Stack := fun u =>
  match slot STACK_BASE (length (stackBuffer u)) i ≫= (fun k => stackBuffer u !! k) with
  | Some e => Returned e u
  | None => Undefined
  end.

(** [stack[i].field = ..]. *)
Definition stack_write (i : Z) (f : Search.Stack -> Search.Stack) : M unit :=
  e ← stack_read i;
  u ← get;
  match slot STACK_BASE (length (stackBuffer u)) i with
  | Some k => modify (set_stackBuffer (<[k := f e]> (stackBuffer u)))
  | None => undefined
  end.

(** [nodes[i]], read and written. *)
Definition nodes_read (i : Z) : M Node := fun u =>
  match slot NODES_BASE (length (nodesBuffer u)) i ≫= (fun k => nodesBuffer u !! k) with
  | Some n => Returned n u
  | None => Undefined
  end.

Definition nodes_write (i : Z) (n : Node) : M unit :=
  nodes_read i;;
  u ← get;
  match slot NODES_BASE (length (nodesBuffer u)) i with
  | Some k => modify (set_nodesBuffer (<[k := n]> (nodesBuffer u)))
  | None => undefined
  end.

(** *** The free functions on nodes *)

(** [create_node]: "TODO, FIXME : this should create a Node !". *)
Definition create_node (p : Position) : M Node := ret nullptr.

Definition get_infos (node : Node) : Node := node.

Definition move_of (node : Node) : M Move :=
  s ← load (get_infos node); ret (lastMove s).

(** [get_list_of_edges] returns the address of [edges[0]]; the model hands
    out the content of the array at the time of the call. *)
Definition get_list_of_edges (node : Node) : M (list Edge) :=
  s ← load (get_infos node); ret (edges s).

Definition number_of_sons (node : Node) : M Z :=
  s ← load (get_infos node); ret (sons s).

(** *** Field updates of a node and of a stack entry *)

Definition set_node_visits (v : Z) (s : UCTInfo) : UCTInfo :=
  mkUCTInfo v (sons s) (expandedSons s) (lastMove s) (edges s).

Definition set_sons (v : Z) (s : UCTInfo) : UCTInfo :=
  mkUCTInfo (node_visits s) v (expandedSons s) (lastMove s) (edges s).

Definition set_expandedSons (v : Z) (s : UCTInfo) : UCTInfo :=
  mkUCTInfo (node_visits s) (sons s) v (lastMove s) (edges s).

Definition set_edges (v : list Edge) (s : UCTInfo) : UCTInfo :=
  mkUCTInfo (node_visits s) (sons s) (expandedSons s) (lastMove s) v.

Definition set_ss_ply (v : Z) (e : Search.Stack) : Search.Stack :=
  Search.mkStack v (Search.currentMove e) (Search.contHistory e)
    (Search.moveCount e) (Search.killers e).

Definition set_ss_currentMove (v : Move) (e : Search.Stack) : Search.Stack :=
  Search.mkStack (Search.ply e) v (Search.contHistory e)
    (Search.moveCount e) (Search.killers e).

Definition set_ss_contHistory (v : option PieceToHistoryRef)
    (e : Search.Stack) : Search.Stack :=
  Search.mkStack (Search.ply e) (Search.currentMove e) v
    (Search.moveCount e) (Search.killers e).

Definition set_ss_moveCount (v : Z) (e : Search.Stack) : Search.Stack :=
  Search.mkStack (Search.ply e) (Search.currentMove e) (Search.contHistory e)
    v (Search.killers e).

(** *** The reward codec, in double precision *)

(** [UCT::value_to_reward]. *)
Definition value_to_reward (v : Value) : Reward :=
  let k := (-0.00183102048111)%float in
  let r := (1.0 / (1 + libm_exp (k * Double.of_int v)))%float in
  r.

(** [UCT::reward_to_value]. *)
Definition reward_to_value (r : Reward) : Value :=
  if Double.gt r 0.99 then VALUE_KNOWN_WIN
  else if Double.lt r 0.01 then - VALUE_KNOWN_WIN
  else
    let g := 546.14353597715121%float in
    let v := (g * libm_log (r / (1.0 - r)))%float in
    Double.to_int v.

(** *** The upper confidence bound *)

(** The two assignments to [result] in [UCT::UCB], [father] being the
    record [get_infos(node)] points to. *)
Definition UCB_formula (father : UCTInfo) (edge : Edge) (C : float) : float :=
  let result := (actionValue edge / Double.of_int (visits edge))%float in
  (result + C * prior edge * PrimFloat.sqrt (Double.of_int (node_visits father))
            / Double.of_int (1 + visits edge))%float.

(** [UCT::UCB]. *)
Definition UCB (node : Node) (edge : Edge) (C : float) : M float :=
  father ← load (get_infos node);
  ret (UCB_formula father edge C).

(** *** The main loop and its policies *)

(** [UCT::create_root].  The parameter [p] is not used by the source
    either: the function works on the member [pos]. *)
Definition create_root (p : Position) : M unit :=
  (* Initialize the global counters *)
  modify (set_doMoveCnt 0);;
  modify (set_treeSize 0);;
  modify (set_descentCnt 0);;
  modify (set_ply 0);;
  (* Prepare the stack to go down and up in the game tree *)
  modify (set_stackBuffer (replicate STACK_SIZE Search.zeroed));;
  foldM (fun (_ : unit) i =>
           stack_write (- i) (set_ss_contHistory (Some (NO_PIECE, 0))))
        [4; 3; 2; 1] tt;;
  (* Save a hard copy of the root position *)
  u ← get;
  modify (set_rootPosition (pos_set_fen (pos u)));;
  (* Erase the list of nodes, and set the root node *)
  modify (set_nodesBuffer (replicate NODES_SIZE nullptr));;
  n ← create_node (pos u);
  nodes_write 0 n;;
  modify (set_root n);;
  u ← get;
  assert (ply u =? 0);;
  n0 ← nodes_read 0;
  assert (bool_decide (root u = n0)).

(** [UCT::computational_budget]. *)
Definition computational_budget : M bool :=
  u ← get; ret (treeSize u <? 5).

(** [UCT::tree_policy]. *)
Definition tree_policy : M Node :=
  modify (fun u => set_descentCnt (int_wrap (descentCnt u + 1)) u);;
  u ← get; ret (root u).

(** [UCT::playout_policy]. *)
Definition playout_policy (node : Node) : M Reward :=
  modify (fun u => set_playoutCnt (int_wrap (playoutCnt u + 1)) u);;
  ret 1.0%float.

(** [UCT::backup]: the body is empty. *)
Definition backup (node : Node) (r : Reward) : M unit := ret tt.

(** [UCT::best_move]. *)
Definition best_move (node : Node) (C : float) : M Move :=
  edges ← get_list_of_edges node;
  let best := MOVE_NONE in
  let bestValue := (-100000000.0)%float in
  n ← number_of_sons node;
  acc ← foldM (fun (acc : float * Move) (k : nat) =>
                 match edges !! k with
                 | Some edge =>
                     r ← UCB node edge C;
                     if Double.gt r (fst acc) then ret (r, move edge)
                     else ret acc
                 | None => undefined
                 end)
              (seq 0 (Z.to_nat n)) (bestValue, best);
  ret (snd acc).

(** One pass through the body of the [while] of [UCT::search]. *)
Definition search_iteration : M unit :=
  node ← tree_policy;
  reward ← playout_policy node;
  backup node reward.

(** The [while] of [UCT::search], cut after [fuel] passes: the result
    tells whether the loop was left. *)
Fixpoint search_loop (fuel : nat) : M bool :=
  b ← computational_budget;
  if (b : bool) then
    match fuel with
    | O => ret false
    | S fuel' => search_iteration;; search_loop fuel'
    end
  else ret true.

(** [UCT::search], with at most [fuel] passes through its loop: [None]
    when the loop is still running after them. *)
Definition search (fuel : nat) (p : Position) : M (option Move) :=
  create_root p;;
  left ← search_loop fuel;
  if (left : bool) then
    u ← get; m ← best_move (root u) 0.0%float; ret (Some m)
  else ret None.

(** [UCT::UCT], on an object whose reference member [pos] is bound. *)
Definition UCT_constructor (p : Position) : M unit :=
  modify (set_pos p);; create_root p.

Definition set_exploration_constant (C : float) : M unit :=
  modify (set_explorationConstant C).

Definition get_exploration_constant : M float :=
  u ← get; ret (explorationConstant u).

(** *** Moving in the tree *)

(** [UCT::current_node]. *)
Definition current_node : M Node :=
  u ← get; nodes_read (ply u).

(** [UCT::do_move]. *)
Definition do_move (m : Move) : M unit :=
  u ← get;
  stack_write (ply u) (set_ss_ply (ply u));;
  stack_write (ply u) (set_ss_currentMove m);;
  stack_write (ply u)
    (set_ss_contHistory (Some (moved_piece (pos u) m, to_sq m)));;
  (if decide (0 <= ply u < STATES_SIZE)
   then modify (set_pos (pos_do_move (pos u) m))
   else undefined);;
  modify (fun u => set_ply (ply u + 1) u).

(** [UCT::undo_move]. *)
Definition undo_move : M unit :=
  modify (fun u => set_ply (ply u - 1) u);;
  u ← get;
  e ← stack_read (ply u);
  modify (set_pos (pos_undo_move (pos u) (Search.currentMove e))).

(** *** Expansion *)

(** The edge the five assignments to [s->edges[n]] leave there. *)
Definition new_edge (m : Move) (prior : Reward) : Edge :=
  mkEdge m 0 prior 0.0 0.0.

(** [add_prior_to_node]. *)
Definition add_prior_to_node (node : Node) (m : Move) (prior : Reward)
    (moveCount : Z) : M unit :=
  s ← load (get_infos node);
  let n := sons s in
  assert (n <? MAX_SONS);;
  if n <? MAX_SONS then
    match slot 0 (length (edges s)) n with
    | Some k => save node (set_edges (<[k := new_edge m prior]> (edges s)) s)
    | None => undefined
    end;;
    s ← load node;
    save node (set_sons (sons s + 1) s);;
    s ← load node;
    assert (sons s =? moveCount)
  else
    print_cerr ("ERROR : too many sons (" +:+ pretty (sons s)
                +:+ ") in add_prior_to_node()").

(** [UCT::evaluate_with_minimax]. *)
Definition evaluate_with_minimax (depth : Depth) : M Value :=
  u ← get;
  ss ← stack_read (ply u);
  ret (minimax_value (pos u) ss depth).

(** [UCT::calculate_prior]. *)
Definition calculate_prior (m : Move) (n : Z) : M Reward :=
  do_move m;;
  v ← evaluate_with_minimax DEPTH_ZERO;
  let prior := value_to_reward v in
  undo_move;;
  ret prior.

(** The body of the [while] of [UCT::generate_moves] for one move of the
    picker; the local variable [moveCount] is carried along. *)
Definition generate_moves_step (moveCount : Z) (m : Move) : M Z :=
  u ← get;
  if pos_legal (pos u) m then
    let moveCount := moveCount + 1 in
    stack_write (ply u) (set_ss_moveCount moveCount);;
    prior ← calculate_prior m moveCount;
    node ← current_node;
    add_prior_to_node node m prior moveCount;;
    ret moveCount
  else ret moveCount.

(** The block "Sort the moves according to their prior value" of
    [UCT::generate_moves]. *)
Definition sort_moves_by_prior : M unit :=
  node ← current_node;
  n ← number_of_sons node;
  if 0 <? n then
    node ← current_node;
    edges ← get_list_of_edges node;
    if decide (n <= Z.of_nat (length edges)) then
      s ← load node;
      save node (set_edges (std_sort ComparePrior (take (Z.to_nat n) edges)
                            ++ drop (Z.to_nat n) edges) s)
    else undefined
  else mret tt.

(** The block "Indicate that we have just expanded the current node" of
    [UCT::generate_moves]. *)
Definition mark_expanded : M unit :=
  node ← current_node;
  s ← load (get_infos node);
  save node (set_node_visits 1 s);;
  s ← load (get_infos node);
  save node (set_expandedSons 0 s).

(** [UCT::generate_moves]. *)
Definition generate_moves : M unit :=
  u ← get;
  prev1 ← stack_read (ply u - 1);
  prev2 ← stack_read (ply u - 2);
  prev4 ← stack_read (ply u - 4);
  cur ← stack_read (ply u);
  let prevSq := to_sq (Search.currentMove prev1) in
  let countermove := counterMoves (piece_on (pos u) prevSq) prevSq in
  let ttMove := MOVE_NONE in
  let killers := Search.killers cur in
  let depth := 30 * ONE_PLY in
  let contHist := [Search.contHistory prev1; Search.contHistory prev2;
                   None; Search.contHistory prev4] in
  let mp := picker_moves (pos u)
              (mkPickerArgs ttMove depth contHist countermove killers) in
  (* Generate the legal moves and calculate their priors *)
  foldM generate_moves_step mp 0;;
  (* Sort the moves according to their prior value *)
  sort_moves_by_prior;;
  (* Indicate that we have just expanded the current node *)
  mark_expanded.

(** [UCT::test]. *)
Definition test : M unit :=
  let rule := "---------------------------------------------------------------------------------" in
  print_cerr rule;;
  print_cerr "Testing UCT for position...";;
  u ← get;
  print_cerr (pos_print (pos u));;
  print_cerr "...end of UCT testing!";;
  print_cerr rule.

End Embedding.

Arguments Returned {_ A} a u.
Arguments Aborted {_ A} u.
Arguments Undefined {_ A}.
Arguments new_edge _%_Z _%_float.
Arguments UCB_formula _ _ _%_float.

(** ** The formula of the spec for the upper confidence bound

    A second definition, written from the words of the spec: "UCB = Q + C *
    P * sqrt(N) / (1 + n)" where "edges with zero visits have Q defined as
    0 (not computed as the division result)". *)
Definition UCB_spec (father : UCTInfo) (edge : Edge) (C : float) : float :=
  let Q := if visits edge =? 0 then 0%float
           else (actionValue edge / Double.of_int (visits edge))%float in
  (Q + C * prior edge * PrimFloat.sqrt (Double.of_int (node_visits father))
       / Double.of_int (1 + visits edge))%float.

Arguments UCB_spec _ _ _%_float.

(** ** The vocabulary of the statements *)

(** A sequence of paired do/undo operations: nothing, or a move, the
    operations made while it stands, its undoing, and what follows. *)
Inductive Session : Type :=
| Over
| Pair (m : Move) (inner next : Session).

(** How many plies a session goes down. *)
Fixpoint depth (s : Session) : Z :=
  match s with
  | Over => 0
  | Pair _ inner next => Z.max (1 + depth inner) (depth next)
  end.

(** The round trip of the value [v] through the codec, for every result
    the C library may give within [LibmSpec]: the arguments handed to
    [exp] and [log] are in range, the reward is not saturated, and the
    value that comes back is [v] or the integer next to it towards 0. *)
Definition round_trip_check (v : Value) : bool :=
  let x := (-0.00183102048111 * Double.of_int v)%float in
  Double.ge x (-4) && Double.ge 4 x &&
  forallb (fun E =>
     let r := (1.0 / (1 + E))%float in
     negb (Double.gt r 0.99) && negb (Double.lt r 0.01) &&
     (let q := (r / (1.0 - r))%float in
      Double.ge q 0.015625 && Double.ge 64 q &&
      forallb (fun L =>
         let v' := Double.to_int (546.14353597715121 * L)%float in
         (v' =? v) || (v' =? v - Z.sgn v))
        (Libm.around 3 (Libm.log q))))
    (Libm.around 2 (Libm.exp x)).

(** The initial [bestValue] of [UCT::best_move]. *)
Definition bestValue_init : float := (-100000000.0)%float.

(** The body of the loop of [UCT::best_move], on the pair
    [(bestValue, best)]. *)
Definition best_move_step (father : UCTInfo) (C : float)
    (acc : float * Move) (edge : Edge) : float * Move :=
  let r := UCB_formula father edge C in
  if Double.gt r (fst acc) then (r, move edge) else acc.

(** In the list of moves the picker yields, [m1] comes before [m2]. *)
Definition generated_before (mp : list Move) (m1 m2 : Move) : Prop :=
  exists i j, (i < j)%nat /\ mp !! i = Some m1 /\ mp !! j = Some m2.

Section Statements.

Context `{Header} `{Environment}.

(** [wp c Q Qab Qun u]: started in [u], the call [c] returns in a state
    that satisfies [Q], or aborts in one that satisfies [Qab], or has
    undefined behaviour and [Qun] holds. *)
Definition wp {A} (c : M A) (Q : A -> UCT -> Prop) (Qab : UCT -> Prop)
    (Qun : Prop) (u : UCT) : Prop :=
  match c u with
  | Returned a u' => Q a u'
  | Aborted u' => Qab u'
  | Undefined => Qun
  end.

(** The call returns [a] and leaves the state [u']. *)
Definition returns {A} (c : M A) (u : UCT) (a : A) (u' : UCT) : Prop :=
  c u = Returned a u'.

(** The diagnostic of [add_prior_to_node]. *)
Definition too_many_sons (s : UCTInfo) : string :=
  "ERROR : too many sons (" +:+ pretty (sons s) +:+ ") in add_prior_to_node()".

(** The calls of a session. *)
Fixpoint play (s : Session) : M unit :=
  match s with
  | Over => mret tt
  | Pair m inner next => do_move m;; play inner;; undo_move;; play next
  end.

(** Each move of the session is legal in the position it is made in. *)
Fixpoint legal_session (p : Position) (s : Session) : Prop :=
  match s with
  | Over => True
  | Pair m inner next =>
      pos_legal p m = true /\ legal_session (pos_do_move p m) inner /\
      legal_session p next
  end.

(** The stack and the array [states] have entries for [d] more plies. *)
Definition room_for (d : Z) (u : UCT) : Prop :=
  0 <= ply u /\ 0 <= STACK_BASE + ply u /\
  STACK_BASE + ply u + d <= Z.of_nat (length (stackBuffer u)) /\
  ply u + d <= STATES_SIZE.

(** The declarations of the header fit the code: [stack] points at least
    four entries into its buffer, the sentinels [stack[-4]] to [stack[-1]]
    of [create_root], and [nodes[0]] lies in its buffer. *)
Definition header_consistent : Prop :=
  4 <= STACK_BASE /\ STACK_BASE <= Z.of_nat STACK_SIZE /\
  0 <= NODES_BASE < Z.of_nat NODES_SIZE.

(** [u'] is [u] but for the entries of the stack at the current ply and
    above. *)
Definition same_below_ply (u u' : UCT) : Prop :=
  u' = set_stackBuffer (stackBuffer u') u /\
  length (stackBuffer u') = length (stackBuffer u) /\
  forall k, Z.of_nat k < STACK_BASE + ply u ->
    stackBuffer u' !! k = stackBuffer u !! k.

(** What the loop has found after the edges [seen]: nothing above the
    initial value, or the first edge of maximum score. *)
Definition scanned (father : UCTInfo) (C : float) (seen : list Edge)
    (acc : float * Move) : Prop :=
  (acc = (bestValue_init, MOVE_NONE) /\
   forall e, e ∈ seen ->
     Double.gt (UCB_formula father e C) bestValue_init = false)
  \/
  (exists i e, seen !! i = Some e /\
     acc = (UCB_formula father e C, move e) /\
     Double.gt (UCB_formula father e C) bestValue_init = true /\
     (forall j e', seen !! j = Some e' ->
        Double.gt (UCB_formula father e' C) (UCB_formula father e C) = false) /\
     (forall j e', (j < i)%nat -> seen !! j = Some e' ->
        Double.gt (UCB_formula father e C) (UCB_formula father e' C) = true)).

(** The entry [create_root] leaves in [stack[-4]] to [stack[-1]]: zeroed,
    with the address of [contHistory[NO_PIECE][0]]. *)
Definition sentinel : Search.Stack :=
  set_ss_contHistory (Some (NO_PIECE, 0)) Search.zeroed.

(** The stack as [create_root] leaves it. *)
Definition root_stack : list Search.Stack :=
  <[Z.to_nat (STACK_BASE + - 1) := sentinel]>
    (<[Z.to_nat (STACK_BASE + - 2) := sentinel]>
       (<[Z.to_nat (STACK_BASE + - 3) := sentinel]>
          (<[Z.to_nat (STACK_BASE + - 4) := sentinel]>
             (replicate STACK_SIZE Search.zeroed)))).

(** The search object as [create_root] leaves it. *)
Definition root_state (u : UCT) : UCT :=
  set_root nullptr
    (set_nodesBuffer (replicate NODES_SIZE nullptr)
       (set_rootPosition (pos_set_fen (pos u))
          (set_stackBuffer root_stack
             (set_ply 0
                (set_descentCnt 0 (set_treeSize 0 (set_doMoveCnt 0 u))))))).

(** The index of [stack[ply]] in the buffer. *)
Definition stack_index (u : UCT) : nat := Z.to_nat (STACK_BASE + ply u).

(** The entry [do_move] leaves in [stack[ply]], [e0] being what was there:
    the ply, the move and the address of the history of the moved piece;
    the other fields are kept. *)
Definition move_entry (u : UCT) (m : Move) (e0 : Search.Stack)
    : Search.Stack :=
  Search.mkStack (ply u) m (Some (moved_piece (pos u) m, to_sq m))
    (Search.moveCount e0) (Search.killers e0).

(** The stack has room for an expansion at the current ply: [stack] points
    at least four entries into its buffer, one more move can be made, and
    [prev1], [prev2], [prev4], [cur] and [next] are the entries
    [stack[ply-1]], [stack[ply-2]], [stack[ply-4]], [stack[ply]] and
    [stack[ply+1]]. *)
Definition expansion_frame (u : UCT)
    (prev1 prev2 prev4 cur next : Search.Stack) : Prop :=
  4 <= STACK_BASE /\ room_for 1 u /\
  stackBuffer u !! Z.to_nat (STACK_BASE + (ply u - 1)) = Some prev1 /\
  stackBuffer u !! Z.to_nat (STACK_BASE + (ply u - 2)) = Some prev2 /\
  stackBuffer u !! Z.to_nat (STACK_BASE + (ply u - 4)) = Some prev4 /\
  stackBuffer u !! stack_index u = Some cur /\
  stackBuffer u !! S (stack_index u) = Some next.

(** The moves the picker of [generate_moves] yields in the state [u], the
    entries [stack[ply-1]], [stack[ply-2]], [stack[ply-4]] and [stack[ply]]
    being [prev1], [prev2], [prev4] and [cur]. *)
Definition picked_moves (u : UCT) (prev1 prev2 prev4 cur : Search.Stack)
    : list Move :=
  let prevSq := to_sq (Search.currentMove prev1) in
  picker_moves (pos u)
    (mkPickerArgs MOVE_NONE (30 * ONE_PLY)
       [Search.contHistory prev1; Search.contHistory prev2; None;
        Search.contHistory prev4]
       (counterMoves (piece_on (pos u) prevSq) prevSq) (Search.killers cur)).

(** The edges the loop of [generate_moves] hands to [add_prior_to_node]
    for the moves [mp]: one for each legal move, in the order of [mp],
    with the reward of the value of the position after the move as prior;
    [next] is [stack[ply+1]], which the evaluation is given. *)
Definition offered_edges (u : UCT) (next : Search.Stack) (mp : list Move)
    : list Edge :=
  map (fun m => new_edge m (value_to_reward
                   (minimax_value (pos_do_move (pos u) m) next DEPTH_ZERO)))
      (List.filter (pos_legal (pos u)) mp).

(** The node once [add_prior_to_node] has stored the edge [e]. *)
Definition with_edge (e : Edge) (s : UCTInfo) : UCTInfo :=
  set_sons (sons s + 1) (set_edges (<[Z.to_nat (sons s) := e]> (edges s)) s).

(** What calls of [add_prior_to_node] for the edges [es] make of a node
    and of the log when none of them is stopped by an assertion: an edge
    is stored while there is room, and a line is logged for it
    otherwise. *)
Fixpoint offer (es : list Edge) (s : UCTInfo) (log : list string)
    : UCTInfo * list string :=
  match es with
  | [] => (s, log)
  | e :: es' =>
      if sons s <? MAX_SONS then offer es' (with_edge e s) log
      else offer es' s (log ++ [too_many_sons s])
  end.

(** The last two blocks of [generate_moves] on a node: the edges in use
    are sorted if there are any, and the node is marked as visited once
    with no son expanded. *)
Definition sorted_and_marked (s : UCTInfo) : UCTInfo :=
  mkUCTInfo 1 (sons s) 0 (lastMove s)
    (if 0 <? sons s
     then std_sort ComparePrior (take (Z.to_nat (sons s)) (edges s))
          ++ drop (Z.to_nat (sons s)) (edges s)
     else edges s).

End Statements.

(** *** The claims of the spec that the code does not bear out, as the
    spec states them *)

(** C5 as the spec states it, for the engine linked with the GNU
    library: after an expansion the edges in use are sorted by descending
    prior, and edges of equal prior are in the order in which the picker,
    for what it was given, generated their moves. *)
Definition expansion_sort_is_stable : Prop :=
  forall (H : Header) (E : Environment),
    @std_sort E = @Libstdcxx.sort Edge ->
    forall (u u' : UCT) (a : positive) (s' : UCTInfo),
    generate_moves u = Returned tt u' ->
    current_node u' = Returned (Some a) u' -> store u' !! a = Some s' ->
    sorted_by ComparePrior (live_edges s') /\
    exists args : PickerArgs,
    forall i j ei ej, (i < j)%nat ->
      live_edges s' !! i = Some ei -> live_edges s' !! j = Some ej ->
      prior ei = prior ej ->
      generated_before (picker_moves (pos u) args) (move ei) (move ej).

(** C6 as the spec states it: on a node that holds [MAX_SONS] edges the
    call logs a diagnostic, changes nothing else and returns, in every
    build. *)
Definition full_node_is_skipped_in_every_build : Prop :=
  forall (H : Header) (E : Environment) (a : positive) (s : UCTInfo)
         (m : Move) (prior : Reward) (moveCount : Z) (u : UCT),
    store u !! a = Some s -> wf_node s -> sons s = MAX_SONS ->
    exists line,
      add_prior_to_node (Some a) m prior moveCount u
      = Returned tt (set_cerr (cerr u ++ [line]) u).

(** ** A small concrete world

    A header and collaborators on which the functions can be run: the
    position is the list of the moves made so far, every positive move is
    legal, the picker offers the moves 1, 2 and 3, a position is worth
    what [demo_value] gives for the last move made, [exp] and [log] are
    truncated series, and [std::sort] is a sort by insertion.  Variants
    follow: narrower and wider nodes, the reference [exp] and [log], and a
    position with seventeen legal moves sorted as the GNU library does. *)

Module Demo.

Definition header (ndebug : bool) : Header := {|
  MAX_SONS := 3;
  MOVE_NONE := 0;
  NO_PIECE := 0;
  VALUE_KNOWN_WIN := 10000;
  ONE_PLY := 1;
  DEPTH_ZERO := 0;
  to_sq := fun m => Z.land m 63;
  STACK_SIZE := 12;
  STACK_BASE := 4;
  NODES_SIZE := 8;
  NODES_BASE := 0;
  STATES_SIZE := 8;
  NDEBUG := ndebug
|}.

(** Insertion into a list, in front of the first element [y] for which
    [before x y] holds. *)
Fixpoint insert_by (before : Edge -> Edge -> bool) (x : Edge)
    (l : list Edge) : list Edge :=
  match l with
  | [] => [x]
  | y :: l' => if before x y then x :: y :: l' else y :: insert_by before x l'
  end.

(** A sort that keeps equivalent elements in their order: an element
    goes in front of the first one that is not [comp]-before it. *)
Definition keeping_sort (comp : Edge -> Edge -> bool) (l : list Edge)
    : list Edge :=
  foldr (insert_by (fun x y => negb (comp y x))) [] l.

(** The series of [exp] up to the eighth power. *)
Definition series_exp (x : float) : float :=
  (1 + x * (1 + x / 2 * (1 + x / 3 * (1 + x / 4 * (1 + x / 5
     * (1 + x / 6 * (1 + x / 7 * (1 + x / 8))))))))%float.

(** The series of [log] around 1, up to the fourth power. *)
Definition series_log (x : float) : float :=
  let y := (x - 1)%float in
  (y * (1 - y * (0.5 - y * (1 / 3 - y / 4))))%float.

(** The worth, for the side to move, of the position a move leads to. *)
Definition demo_value (m : Move) : Value :=
  if m =? 3 then 600 else 0.

Definition environment
    (sort : (Edge -> Edge -> bool) -> list Edge -> list Edge)
    : Environment := {|
  Position := list Move;
  pos_do_move := fun p m => m :: p;
  pos_undo_move := fun p m => tail p;
  pos_legal := fun p m => 0 <? m;
  moved_piece := fun p m => 1;
  piece_on := fun p sq => 0;
  pos_set_fen := fun p => p;
  pos_print := fun p : list Move => pretty (Z.of_nat (length p));
  counterMoves := fun pc sq => 0;
  picker_moves := fun p args => [1; 2; 3];
  minimax_value := fun p ss depth => from_option demo_value 0 (head p);
  std_sort := sort;
  libm_exp := series_exp;
  libm_log := series_log
|}.

(** A node that holds no edge yet. *)
Definition fresh_node : UCTInfo :=
  mkUCTInfo 0 0 0 0 (replicate 3 (mkEdge 0 0 0 0 0)).

(** A node whose three entries are in use. *)
Definition full_node : UCTInfo :=
  mkUCTInfo 1 3 0 0 [new_edge 3 0.75; new_edge 1 0.5; new_edge 2 0.5].

(** A node with one edge, visited once with reward 0.5. *)
Definition visited_node : UCTInfo :=
  mkUCTInfo 4 1 0 0
    [mkEdge 7 1 0.5 0.5 0.5; mkEdge 0 0 0 0 0; mkEdge 0 0 0 0 0].

(** A node with three visited edges; the second and the third have the
    greatest score. *)
Definition played_node : UCTInfo :=
  mkUCTInfo 4 3 0 0
    [mkEdge 5 2 0.5 0.5 0.25; mkEdge 6 1 0.25 1 1; mkEdge 7 1 0.25 1 1].

(** A search object at ply 0 whose current node, at address 1, is the
    given one. *)
Definition world (sort : (Edge -> Edge -> bool) -> list Edge -> list Edge)
    (node : UCTInfo) : @UCT (environment sort) :=
  @mkUCT (environment sort)
    [] [] (Some 1%positive) 10%float 0 0 0 7 0
    (Some 1%positive :: replicate 7 nullptr)
    (replicate 12 Search.zeroed)
    {[ 1%positive := node ]}
    [].

(** The fresh node after its expansion, the edges in the order the sort
    of the world leaves them in. *)
Definition expanded_node (second third : Move) : UCTInfo :=
  mkUCTInfo 1 3 0 0
    [new_edge 3 0.74999674695850105; new_edge second 0.5;
     new_edge third 0.5].

(** The world of the fresh node after the expansion: the entry of the
    stack at ply 0 remembers the last move tried. *)
Definition expanded_world
    (sort : (Edge -> Edge -> bool) -> list Edge -> list Edge)
    (node : UCTInfo) : @UCT (environment sort) :=
  set_store {[ 1%positive := node ]}
    (set_stackBuffer
       (<[4%nat := Search.mkStack 0 3 (Some (1, 3)) 3 [0; 0]]>
          (replicate 12 Search.zeroed))
       (world sort fresh_node)).

(** A header whose nodes hold two edges only, fewer than the three moves
    of the picker. *)
Definition narrow_header (ndebug : bool) : Header := {|
  MAX_SONS := 2;
  MOVE_NONE := 0;
  NO_PIECE := 0;
  VALUE_KNOWN_WIN := 10000;
  ONE_PLY := 1;
  DEPTH_ZERO := 0;
  to_sq := fun m => Z.land m 63;
  STACK_SIZE := 12;
  STACK_BASE := 4;
  NODES_SIZE := 8;
  NODES_BASE := 0;
  STATES_SIZE := 8;
  NDEBUG := ndebug
|}.

(** A node of two entries that holds no edge yet. *)
Definition narrow_node : UCTInfo :=
  mkUCTInfo 0 0 0 0 (replicate 2 (mkEdge 0 0 0 0 0)).

(** The collaborators of the small world with the reference [exp] and
    [log] in place of the truncated series. *)
Definition precise_environment : Environment := {|
  Position := list Move;
  pos_do_move := fun p m => m :: p;
  pos_undo_move := fun p m => tail p;
  pos_legal := fun p m => 0 <? m;
  moved_piece := fun p m => 1;
  piece_on := fun p sq => 0;
  pos_set_fen := fun p => p;
  pos_print := fun p : list Move => pretty (Z.of_nat (length p));
  counterMoves := fun pc sq => 0;
  picker_moves := fun p args => [1; 2; 3];
  minimax_value := fun p ss depth => from_option demo_value 0 (head p);
  std_sort := keeping_sort;
  libm_exp := Libm.exp;
  libm_log := Libm.log
|}.

(** A position with seventeen legal moves, 1 to 17, all leading to
    positions of value 0, in an engine that sorts with the [std::sort] of
    the GNU library. *)
Definition crowded_environment : Environment := {|
  Position := list Move;
  pos_do_move := fun p m => m :: p;
  pos_undo_move := fun p m => tail p;
  pos_legal := fun p m => 0 <? m;
  moved_piece := fun p m => 1;
  piece_on := fun p sq => 0;
  pos_set_fen := fun p => p;
  pos_print := fun p : list Move => pretty (Z.of_nat (length p));
  counterMoves := fun pc sq => 0;
  picker_moves := fun p args => seqZ 1 17;
  minimax_value := fun p ss depth => 0;
  std_sort := @Libstdcxx.sort Edge;
  libm_exp := series_exp;
  libm_log := series_log
|}.

(** A header whose nodes hold thirty-two edges. *)
Definition wide_header (ndebug : bool) : Header := {|
  MAX_SONS := 32;
  MOVE_NONE := 0;
  NO_PIECE := 0;
  VALUE_KNOWN_WIN := 10000;
  ONE_PLY := 1;
  DEPTH_ZERO := 0;
  to_sq := fun m => Z.land m 63;
  STACK_SIZE := 12;
  STACK_BASE := 4;
  NODES_SIZE := 8;
  NODES_BASE := 0;
  STATES_SIZE := 8;
  NDEBUG := ndebug
|}.

(** The search object of the crowded position at ply 0; its current
    node, at address 1, is the given one. *)
Definition crowded_world (node : UCTInfo) : @UCT crowded_environment :=
  @mkUCT crowded_environment
    [] [] (Some 1%positive) 10%float 0 0 0 7 0
    (Some 1%positive :: replicate 7 nullptr)
    (replicate 12 Search.zeroed)
    {[ 1%positive := node ]}
    [].

(** A node of thirty-two entries that holds no edge yet. *)
Definition wide_node : UCTInfo :=
  mkUCTInfo 0 0 0 0 (replicate 32 (mkEdge 0 0 0 0 0)).

(** The node of the crowded position after its expansion: seventeen
    edges of prior 0.5, in the order the library's sort leaves them. *)
Definition crowded_node : UCTInfo :=
  mkUCTInfo 1 17 0 0
    (((fun m => new_edge m 0.5) <$>
      [9; 17; 16; 15; 14; 13; 12; 11; 10; 1; 8; 7; 6; 5; 4; 3; 2])
     ++ replicate 15 (mkEdge 0 0 0 0 0)).

End Demo.

(* ================================================================== *)
(** * Part II.  Properties                                             *)
(* ================================================================== *)

(** ** The order of doubles

    The comparisons of binary64, read through their specification
    [SFcompare]: [<] is transitive and irreflexive on all doubles and a
    strict total preorder on those that are numbers. *)

Module DoubleFacts.

Ltac compare_cases :=
  repeat match goal with
  | |- context [Z.compare ?a ?b] => destruct (Z.compare_spec a b)
  | H : context [Z.compare ?a ?b] |- _ => destruct (Z.compare_spec a b)
  | |- context [Pos.compare_cont Eq ?a ?b] =>
      change (Pos.compare_cont Eq a b) with (Pos.compare a b);
      destruct (Pos.compare_spec a b)
  | H : context [Pos.compare_cont Eq ?a ?b] |- _ =>
      change (Pos.compare_cont Eq a b) with (Pos.compare a b) in H;
      destruct (Pos.compare_spec a b)
  end.

Ltac spec_order :=
  intros; unfold SFltb, SFleb, SFeqb, SFcompare in *;
  repeat match goal with
         | x : spec_float |- _ => destruct x as [[]|[]| |[] ? ?]
         end;
  simpl in *; try congruence; try tauto;
  compare_cases; simpl in *; subst; try congruence; try lia; try tauto.

Lemma SFltb_irrefl x : SFltb x x = false.
Proof. spec_order. Qed.

Lemma SFltb_trans x y z :
  SFltb x y = true -> SFltb y z = true -> SFltb x z = true.
Proof. spec_order. Qed.

Lemma SFltb_le_lt a b c :
  a <> S754_nan -> b <> S754_nan ->
  SFltb b a = false -> SFltb b c = true -> SFltb a c = true.
Proof. spec_order. Qed.

Lemma SFltb_lt_le a b c :
  b <> S754_nan -> c <> S754_nan ->
  SFltb a b = true -> SFltb c b = false -> SFltb a c = true.
Proof. spec_order. Qed.

Lemma SFltb_ge_trans a b c :
  a <> S754_nan -> b <> S754_nan -> c <> S754_nan ->
  SFltb a b = false -> SFltb b c = false -> SFltb a c = false.
Proof. spec_order. Qed.

Lemma SFleb_of_not_lt a b :
  a <> S754_nan -> b <> S754_nan -> SFltb a b = false -> SFleb b a = true.
Proof. spec_order. Qed.

Lemma SFeqb_refl_iff a : SFeqb a a = true <-> a <> S754_nan.
Proof. split; spec_order. Qed.

Lemma is_number_spec x : Double.is_number x <-> Prim2SF x <> S754_nan.
Proof.
  unfold Double.is_number, is_nan.
  rewrite FloatAxioms.eqb_spec, negb_false_iff. apply SFeqb_refl_iff.
Qed.

Lemma is_nan_spec x : is_nan x = true <-> Prim2SF x = S754_nan.
Proof.
  unfold is_nan. rewrite FloatAxioms.eqb_spec, negb_true_iff.
  destruct (SFeqb (Prim2SF x) (Prim2SF x)) eqn:E.
  - apply SFeqb_refl_iff in E. split; [discriminate | contradiction].
  - split; [intros _ | reflexivity].
    destruct (Prim2SF x) as [[]|[]| |[] m e]; try reflexivity;
      revert E; spec_order.
Qed.

(** [x > x] never holds. *)
Lemma gt_irrefl x : Double.gt x x = false.
Proof. unfold Double.gt. rewrite FloatAxioms.ltb_spec. apply SFltb_irrefl. Qed.

(** [>] is transitive. *)
Lemma gt_trans x y z :
  Double.gt x y = true -> Double.gt y z = true -> Double.gt x z = true.
Proof.
  unfold Double.gt. rewrite !FloatAxioms.ltb_spec. intros Hxy Hyz.
  exact (SFltb_trans _ _ _ Hyz Hxy).
Qed.

(** [>] is asymmetric. *)
Lemma gt_asym x y : Double.gt x y = true -> Double.gt y x = false.
Proof.
  intros Hxy. destruct (Double.gt y x) eqn:Hyx; [ | reflexivity].
  rewrite <- (gt_irrefl x). symmetry. exact (gt_trans _ _ _ Hxy Hyx).
Qed.

(** [c > b] and [not (a > b)] give [c > a], for numbers. *)
Lemma gt_of_gt_not_gt a b c :
  Double.is_number a -> Double.is_number b ->
  Double.gt a b = false -> Double.gt c b = true -> Double.gt c a = true.
Proof.
  rewrite !is_number_spec. unfold Double.gt. rewrite !FloatAxioms.ltb_spec.
  intros Ha Hb Hab Hcb. exact (SFltb_le_lt _ _ _ Ha Hb Hab Hcb).
Qed.

(** [not (a > b)] and [not (b > c)] give [not (a > c)], for numbers. *)
Lemma not_gt_trans a b c :
  Double.is_number a -> Double.is_number b -> Double.is_number c ->
  Double.gt a b = false -> Double.gt b c = false -> Double.gt a c = false.
Proof.
  rewrite !is_number_spec. unfold Double.gt. rewrite !FloatAxioms.ltb_spec.
  intros Ha Hb Hc Hab Hbc. exact (SFltb_ge_trans _ _ _ Hc Hb Ha Hbc Hab).
Qed.

(** [not (a > b)] is [b >= a], for numbers. *)
Lemma ge_of_not_gt a b :
  Double.is_number a -> Double.is_number b ->
  Double.gt a b = false -> Double.ge b a = true.
Proof.
  rewrite !is_number_spec. unfold Double.gt, Double.ge.
  rewrite FloatAxioms.ltb_spec, FloatAxioms.leb_spec.
  intros Ha Hb Hab. exact (SFleb_of_not_lt _ _ Hb Ha Hab).
Qed.

(** [a > b] gives [a >= b]. *)
Lemma ge_of_gt a b : Double.gt a b = true -> Double.ge a b = true.
Proof.
  unfold Double.gt, Double.ge. rewrite FloatAxioms.ltb_spec, FloatAxioms.leb_spec.
  generalize (Prim2SF a) (Prim2SF b). spec_order.
Qed.

(** A sum with a NaN on the left is a NaN. *)
Lemma nan_add x y : is_nan x = true -> is_nan (x + y)%float = true.
Proof.
  rewrite !is_nan_spec, FloatAxioms.add_spec. intros ->.
  unfold SF64add, SFadd. now destruct (Prim2SF y).
Qed.

(** Zero divided by zero is a NaN. *)
Lemma zero_div_zero : is_nan (0 / 0)%float = true.
Proof. reflexivity. Qed.

End DoubleFacts.

(** ** Reasoning about calls *)

Section Logic.

Context `{Header} `{Environment}.

Lemma wp_returns {A} (c : M A) u a u' :
  wp c (fun b v => b = a /\ v = u') (fun _ => False) False u ->
  returns c u a u'.
Proof.
  unfold wp, returns. destruct (c u); [intros [-> ->]; reflexivity | tauto..].
Qed.

Lemma wp_of_returns {A} (c : M A) u a u' (Q : A -> UCT -> Prop) Qab Qun :
  returns c u a u' -> Q a u' -> wp c Q Qab Qun u.
Proof. unfold wp, returns. now intros ->. Qed.

Lemma wp_mono {A} (c : M A) (Q Q' : A -> UCT -> Prop) (Qab Qab' : UCT -> Prop)
    (Qun Qun' : Prop) u :
  wp c Q Qab Qun u ->
  (forall a v, Q a v -> Q' a v) -> (forall v, Qab v -> Qab' v) ->
  (Qun -> Qun') ->
  wp c Q' Qab' Qun' u.
Proof. unfold wp. destruct (c u); auto. Qed.

(** Anything goes when every outcome is accepted. *)
Lemma wp_any {A} (c : M A) (Q : A -> UCT -> Prop) (Qab : UCT -> Prop) u :
  (forall a v, Q a v) -> (forall v, Qab v) -> wp c Q Qab True u.
Proof. unfold wp. destruct (c u); auto. Qed.

Lemma wp_ret {A} (a : A) Q Qab Qun u : Q a u -> wp (mret a) Q Qab Qun u.
Proof. intros HQ; exact HQ. Qed.

Lemma wp_bind {A B} (c : M A) (k : A -> M B) Q Qab Qun u :
  wp c (fun a v => wp (k a) Q Qab Qun v) Qab Qun u ->
  wp (c ≫= k) Q Qab Qun u.
Proof.
  unfold wp, mbind, M_bind, bind. destruct (c u); auto.
Qed.

Lemma wp_get Q Qab Qun u : Q u u -> wp get Q Qab Qun u.
Proof. intros HQ; exact HQ. Qed.

Lemma wp_modify f Q Qab Qun u : Q tt (f u) -> wp (modify f) Q Qab Qun u.
Proof. intros HQ; exact HQ. Qed.

Lemma wp_assert b (Q : unit -> UCT -> Prop) (Qab : UCT -> Prop) Qun u :
  (NDEBUG = true \/ b = true -> Q tt u) ->
  (NDEBUG = false -> b = false -> Qab u) ->
  wp (assert b) Q Qab Qun u.
Proof.
  unfold wp, assert. destruct NDEBUG, b; auto.
Qed.

Lemma wp_print_cerr line Q Qab Qun u :
  Q tt (set_cerr (cerr u ++ [line]) u) -> wp (print_cerr line) Q Qab Qun u.
Proof. intros HQ; exact HQ. Qed.

Lemma wp_load node Q Qab Qun u :
  match node ≫= (fun a => store u !! a) with
  | Some s => Q s u
  | None => Qun
  end ->
  wp (load node) Q Qab Qun u.
Proof.
  unfold wp, load. now destruct (node ≫= (fun a => store u !! a)).
Qed.

Lemma wp_save a s0 s Q Qab Qun u :
  store u !! a = Some s0 ->
  Q tt (set_store (<[a := s]> (store u)) u) ->
  wp (save (Some a) s) Q Qab Qun u.
Proof.
  intros Hs HQ. unfold save. apply wp_bind, wp_load. simpl. rewrite Hs.
  exact HQ.
Qed.

Lemma wp_stack_read i Q Qab Qun u :
  match slot STACK_BASE (length (stackBuffer u)) i
        ≫= (fun k => stackBuffer u !! k) with
  | Some e => Q e u
  | None => Qun
  end ->
  wp (stack_read i) Q Qab Qun u.
Proof.
  unfold wp, stack_read.
  now destruct (slot _ _ i ≫= (fun k => stackBuffer u !! k)).
Qed.

Lemma wp_stack_write i f Q Qab Qun u :
  match slot STACK_BASE (length (stackBuffer u)) i with
  | Some k =>
      match stackBuffer u !! k with
      | Some e => Q tt (set_stackBuffer (<[k := f e]> (stackBuffer u)) u)
      | None => Qun
      end
  | None => Qun
  end ->
  wp (stack_write i f) Q Qab Qun u.
Proof.
  intros HQ. unfold stack_write. apply wp_bind, wp_stack_read.
  destruct (slot _ _ i) as [k|] eqn:Hk; simpl; [ | exact HQ].
  destruct (stackBuffer u !! k) as [e|]; [ | exact HQ].
  apply wp_bind, wp_get. rewrite Hk. exact HQ.
Qed.

Lemma wp_nodes_read i Q Qab Qun u :
  match slot NODES_BASE (length (nodesBuffer u)) i
        ≫= (fun k => nodesBuffer u !! k) with
  | Some n => Q n u
  | None => Qun
  end ->
  wp (nodes_read i) Q Qab Qun u.
Proof.
  unfold wp, nodes_read.
  now destruct (slot _ _ i ≫= (fun k => nodesBuffer u !! k)).
Qed.

Lemma wp_nodes_write i n Q Qab Qun u :
  match slot NODES_BASE (length (nodesBuffer u)) i with
  | Some k =>
      match nodesBuffer u !! k with
      | Some _ => Q tt (set_nodesBuffer (<[k := n]> (nodesBuffer u)) u)
      | None => Qun
      end
  | None => Qun
  end ->
  wp (nodes_write i n) Q Qab Qun u.
Proof.
  intros HQ. unfold nodes_write. apply wp_bind, wp_nodes_read.
  destruct (slot _ _ i) as [k|] eqn:Hk; simpl; [ | exact HQ].
  destruct (nodesBuffer u !! k) as [e|]; [ | exact HQ].
  apply wp_bind, wp_get. rewrite Hk. exact HQ.
Qed.

Lemma foldM_cons {A B} (f : B -> A -> M B) a l b u :
  foldM f (a :: l) b u
  = match f b a u with
    | Returned b' u' => foldM f l b' u'
    | Aborted u' => Aborted u'
    | Undefined => Undefined
    end.
Proof. reflexivity. Qed.

Lemma slot_in_range off len i :
  0 <= off + i < Z.of_nat len -> slot off len i = Some (Z.to_nat (off + i)).
Proof. intros Hi. unfold slot. now rewrite decide_True. Qed.

End Logic.

(** Unfolds the plumbing of a call. *)
Ltac run_monad := cbv [mbind M_bind bind mret M_ret ret get modify].

(** Projections of updated states. *)
Ltac simpl_state :=
  cbn [pos rootPosition root explorationConstant ply doMoveCnt descentCnt playoutCnt treeSize nodesBuffer stackBuffer store cerr
       set_pos set_rootPosition set_root set_explorationConstant set_ply set_doMoveCnt set_descentCnt set_playoutCnt set_treeSize set_nodesBuffer set_stackBuffer set_store set_cerr
       node_visits sons expandedSons lastMove edges
       set_node_visits set_sons set_expandedSons set_edges] in *.

(** An index that lies in its buffer. *)
Ltac wp_slot :=
  rewrite slot_in_range by (rewrite ?length_insert, ?length_replicate; lia);
  match goal with
  | |- match ?l !! ?k with _ => _ end =>
      let e := fresh "e" in
      let He := fresh "He" in
      destruct (lookup_lt_is_Some_2 l k) as [e He];
      [rewrite ?length_insert, ?length_replicate; lia | rewrite He]
  end.

Ltac wp_write_total := apply wp_stack_write; simpl_state; wp_slot.

Ltac wp_write :=
  first [apply wp_stack_write | apply wp_nodes_write];
  match goal with
  | |- match ?s with _ => _ end => destruct s as [?k|] eqn:?; [ | exact I]
  end;
  match goal with
  | |- match ?l with _ => _ end => destruct l as [?e|] eqn:?; [ | exact I]
  end.

(** ** The upper confidence bound (C1) *)

Section UCBFacts.

Context `{Header} `{Environment}.

(** [UCT::UCB] reads the node and returns the value of the formula. *)
Lemma UCB_returns node a father edge C u :
  node = Some a -> store u !! a = Some father ->
  returns (UCB node edge C) u (UCB_formula father edge C) u.
Proof.
  intros -> Hs. apply wp_returns. unfold UCB, get_infos.
  apply wp_bind, wp_load. simpl. rewrite Hs. now apply wp_ret.
Qed.

(** On an edge that has been visited the code computes the formula of the
    spec. *)
Lemma UCB_formula_visited father edge C :
  visits edge <> 0 -> UCB_formula father edge C = UCB_spec father edge C.
Proof.
  intros Hv. unfold UCB_formula, UCB_spec.
  now rewrite (proj2 (Z.eqb_neq _ _) Hv).
Qed.

End UCBFacts.

(** C1, as the code has it.  The source divides [actionValue] by [visits]
    whatever the visit count: on an edge that was never visited, in the
    state [add_prior_to_node] creates it (no visit, accumulated value 0.0),
    the quotient is 0.0/0 and the bound is a NaN, for every node, prior and
    exploration constant.  The spec defines Q as 0 there. *)
Theorem UCB_unvisited_edge_is_nan (father : UCTInfo) (m : Move)
    (p mean : Reward) (C : float) :
  PrimFloat.is_nan (UCB_formula father (mkEdge m 0 p 0 mean) C) = true.
Proof.
  unfold UCB_formula. cbn [actionValue visits Double.of_int].
  apply DoubleFacts.nan_add, DoubleFacts.zero_div_zero.
Qed.

(** The failing input of C1: a node visited once and a fresh edge of prior
    0.5, with C = 10.  The spec gives 0 + 10 * 0.5 * sqrt(1) / 1 = 5. *)
Example UCB_unvisited_edge_example :
  let father := mkUCTInfo 1 1 0 0 [new_edge 7 0.5] in
  UCB_spec father (new_edge 7 0.5) 10 = 5%float /\
  PrimFloat.is_nan (UCB_formula father (new_edge 7 0.5) 10) = true.
Proof. split; reflexivity. Qed.

(** ** The main loop (C2, C3, C9) *)

Section SearchFacts.

Context `{Header} `{Environment}.

(** C3, as the code has it.  The body of [UCT::backup] is empty: whatever
    the node and the reward, the call returns and nothing has changed, so
    no edge on the path gains a visit or a reward. *)
Theorem backup_changes_nothing (node : Node) (r : Reward) (u : UCT) :
  backup node r u = Returned tt u.
Proof. reflexivity. Qed.

(** What [create_root] does to the counters: four are set to zero,
    [playoutCnt] is not among them, and the root is the null pointer that
    [create_node] returns.  No [assert] of the function fails. *)
Lemma create_root_counters p u :
  wp (create_root p)
     (fun _ u' => doMoveCnt u' = 0 /\ treeSize u' = 0 /\ descentCnt u' = 0 /\
                  ply u' = 0 /\ playoutCnt u' = playoutCnt u /\
                  root u' = nullptr)
     (fun _ => False) True u.
Proof.
  unfold create_root, create_node.
  do 5 (apply wp_bind, wp_modify).
  apply wp_bind. cbn [foldM].
  do 4 (apply wp_bind; wp_write).
  apply wp_ret.
  apply wp_bind, wp_get. apply wp_bind, wp_modify. apply wp_bind, wp_modify.
  apply wp_bind, wp_ret. apply wp_bind. wp_write.
  apply wp_bind, wp_modify. apply wp_bind, wp_get.
  apply wp_bind, wp_assert; [intros _ | cbn; intros _ [=]].
  apply wp_bind, wp_nodes_read.
  match goal with
  | |- match ?x with _ => _ end => destruct x as [n0|] eqn:Hn0; [ | exact I]
  end.
  assert (n0 = nullptr) as ->.
  { cbn in Hn0.
    match type of Hn0 with
    | ?s ≫= _ = _ => destruct s as [k'|] eqn:Hk'; [ | discriminate]
    end.
    cbn in Hn0. apply list_lookup_insert_Some in Hn0.
    destruct Hn0 as [(_ & Hn0 & _)|(_ & Hn0)]; [now subst | ].
    now apply lookup_replicate in Hn0. }
  apply wp_assert; [intros _; cbn; tauto | ].
  cbn. unfold nullptr. rewrite bool_decide_eq_false. tauto.
Qed.

(** C9, as the code has it.  [create_root] leaves the playout count as it
    finds it: when the call returns, [playoutCnt] has its old value,
    while [doMoveCnt], [treeSize], [descentCnt] and [ply] are zero. *)
Theorem create_root_keeps_playoutCnt (p : Position) (u : UCT) :
  create_root p u = Undefined \/
  exists u', create_root p u = Returned tt u' /\
    playoutCnt u' = playoutCnt u /\
    doMoveCnt u' = 0 /\ treeSize u' = 0 /\ descentCnt u' = 0 /\ ply u' = 0.
Proof.
  pose proof (create_root_counters p u) as Hwp. unfold wp in Hwp.
  destruct (create_root p u) as [[] u'| | ]; [right | contradiction | now left].
  exists u'. tauto.
Qed.

(** With a consistent header [create_root] returns. *)
Lemma create_root_returns p u :
  header_consistent -> exists u', create_root p u = Returned tt u'.
Proof.
  intros (Hbase & Hsize & Hnodes).
  assert (wp (create_root p) (fun _ _ => True) (fun _ => False) False u)
    as Hwp.
  { unfold create_root, create_node.
    do 5 (apply wp_bind, wp_modify).
    apply wp_bind. cbn [foldM]. simpl_state.
    do 4 (apply wp_bind; wp_write_total; simpl_state).
    apply wp_ret.
    apply wp_bind, wp_get. apply wp_bind, wp_modify. apply wp_bind, wp_modify.
    apply wp_bind, wp_ret. apply wp_bind. simpl_state.
    apply wp_nodes_write. simpl_state. wp_slot.
    apply wp_bind, wp_modify. apply wp_bind, wp_get.
    apply wp_bind, wp_assert; [intros _ | cbn; intros _ [=]].
    apply wp_bind, wp_nodes_read. simpl_state.
    rewrite slot_in_range by (rewrite ?length_insert, ?length_replicate; lia).
    cbn [mbind option_bind].
    rewrite list_lookup_insert_eq by (rewrite length_replicate; lia).
    apply wp_assert; [tauto | ].
    cbn. rewrite bool_decide_eq_false. tauto. }
  unfold wp in Hwp.
  destruct (create_root p u) as [[] u'| | ]; [ | contradiction..].
  now exists u'.
Qed.

(** One pass of the loop returns and does not touch the tree size. *)
Lemma search_iteration_returns u :
  exists u', search_iteration u = Returned tt u' /\ treeSize u' = treeSize u.
Proof. eexists. split; reflexivity. Qed.

(** The loop is never left while the tree size is below five. *)
Lemma search_loop_runs fuel : forall u,
  treeSize u < 5 ->
  exists u', search_loop fuel u = Returned false u' /\ treeSize u' = treeSize u.
Proof.
  induction fuel as [|fuel IH]; intros u Hu.
  - exists u. split; [ | reflexivity].
    cbn [search_loop]. unfold computational_budget. run_monad.
    now rewrite (proj2 (Z.ltb_lt _ _) Hu).
  - destruct (search_iteration_returns u) as (u1 & Hit & Hsize).
    destruct (IH u1) as (u' & Hloop & Hsize'); [lia | ].
    exists u'. split; [ | lia].
    cbn [search_loop]. unfold computational_budget. run_monad.
    rewrite (proj2 (Z.ltb_lt _ _) Hu).
    now rewrite Hit.
Qed.

(** C2, as the code has it.  [UCT::search] never gets to its [return]:
    [create_root] sets the tree size to zero, no pass of the loop changes
    it, and the budget [treeSize < 5] holds for ever.  Whatever the
    position and however many passes are allowed, the loop is still
    running after them. *)
Theorem search_never_leaves_its_loop (fuel : nat) (p : Position) (u : UCT) :
  search fuel p u = Undefined \/
  exists u', search fuel p u = Returned None u' /\ treeSize u' = 0.
Proof.
  pose proof (create_root_counters p u) as Hwp. unfold wp in Hwp.
  unfold search, mbind, M_bind, bind.
  destruct (create_root p u) as [[] u1| | ]; [right | contradiction | now left].
  destruct Hwp as (_ & Hsize & _).
  destruct (search_loop_runs fuel u1) as (u' & Hloop & Hsize'); [lia | ].
  exists u'. rewrite Hloop. split; [reflexivity | lia].
Qed.

(** With a consistent header the first disjunct is excluded: the search
    is in its loop after any number of passes. *)
Corollary search_runs_for_ever (fuel : nat) (p : Position) (u : UCT) :
  header_consistent ->
  exists u', search fuel p u = Returned None u' /\ treeSize u' = 0.
Proof.
  intros Hheader.
  destruct (create_root_returns p u Hheader) as (u1 & Hroot).
  pose proof (create_root_counters p u) as Hwp. unfold wp in Hwp.
  rewrite Hroot in Hwp. destruct Hwp as (_ & Hsize & _).
  destruct (search_loop_runs fuel u1) as (u' & Hloop & Hsize'); [lia | ].
  exists u'. split; [ | lia].
  unfold search. run_monad. now rewrite Hroot, Hloop.
Qed.

End SearchFacts.

(** ** Adding an edge to a node (C6, C10) *)

Section AddPriorFacts.

Context `{Header} `{Environment}.

(** In a build with assertions, the first [assert] stops the program on a
    full node: nothing is logged. *)
Lemma add_prior_to_full_node_aborts a s m prior moveCount u :
  NDEBUG = false -> store u !! a = Some s -> MAX_SONS <= sons s ->
  add_prior_to_node (Some a) m prior moveCount u = Aborted u.
Proof.
  intros Hdebug Hs Hfull.
  unfold add_prior_to_node, get_infos. run_monad. unfold load, assert.
  cbn [option_bind mbind]. rewrite Hs, Hdebug.
  now rewrite (proj2 (Z.ltb_ge _ _) Hfull).
Qed.

(** C6, amended.  In a build without assertions ([NDEBUG]), on a node that
    already holds [MAX_SONS] edges, [add_prior_to_node] writes its
    diagnostic to [std::cerr] and returns: the node, its edges and its son
    count, like the rest of the memory, are as before, and the caller goes
    on. *)
Theorem add_prior_to_full_node_is_skipped (a : positive) (s : UCTInfo)
    (m : Move) (prior : Reward) (moveCount : Z) (u : UCT) :
  NDEBUG = true -> store u !! a = Some s -> MAX_SONS <= sons s ->
  let u' := set_cerr (cerr u ++ [too_many_sons s]) u in
  add_prior_to_node (Some a) m prior moveCount u = Returned tt u' /\
  store u' = store u /\ store u' !! a = Some s.
Proof.
  intros Hndebug Hs Hfull. cbn zeta. split; [ | split; [reflexivity | exact Hs]].
  unfold add_prior_to_node, get_infos. run_monad. unfold load, assert.
  cbn [option_bind mbind]. rewrite Hs, Hndebug.
  now rewrite (proj2 (Z.ltb_ge _ _) Hfull).
Qed.

(** The live edges of a node after one more edge is written at index
    [sons] and the count is incremented. *)
Lemma live_edges_append s e :
  wf_node s -> sons s < MAX_SONS ->
  live_edges (set_sons (sons s + 1)
                (set_edges (<[Z.to_nat (sons s) := e]> (edges s)) s))
  = live_edges s ++ [e].
Proof.
  intros [Hsons Hlen] Hroom. unfold live_edges. cbn.
  replace (Z.to_nat (sons s + 1)) with (S (Z.to_nat (sons s))) by lia.
  assert (Z.to_nat (sons s) < length (edges s))%nat as Hlt by lia.
  destruct (lookup_lt_is_Some_2 _ _ Hlt) as [e0 He0].
  rewrite (take_S_r _ _ e) by now apply list_lookup_insert_eq.
  now rewrite take_insert_ge by lia.
Qed.

(** C10.  On a node with room ([sons < MAX_SONS]), for every move, prior
    and move count, [add_prior_to_node] writes the edge (m, no visit,
    prior, 0.0, 0.0) at index [sons] and adds one to [sons]: the edges in
    use are the old ones followed by the new one, and every other entry of
    the array is as before.  The call then returns, unless the build has
    assertions and [moveCount] is not the new count, in which case the
    last [assert] stops the program after the node was updated. *)
Theorem add_prior_appends_one_edge (a : positive) (s : UCTInfo) (m : Move)
    (prior : Reward) (moveCount : Z) (u : UCT) :
  store u !! a = Some s -> wf_node s -> sons s < MAX_SONS ->
  let n := Z.to_nat (sons s) in
  let s' := mkUCTInfo (node_visits s) (sons s + 1) (expandedSons s)
              (lastMove s) (<[n := mkEdge m 0 prior 0 0]> (edges s)) in
  let u' := set_store (<[a := s']> (store u)) u in
  add_prior_to_node (Some a) m prior moveCount u
  = (if NDEBUG || (sons s + 1 =? moveCount)
     then Returned tt u' else Aborted u') /\
  live_edges s' = live_edges s ++ [mkEdge m 0 prior 0 0] /\
  edges s' !! n = Some (mkEdge m 0 prior 0 0) /\
  (forall i, i <> n -> edges s' !! i = edges s !! i) /\
  length (edges s') = length (edges s).
Proof.
  intros Hs Hwf Hroom. cbn zeta.
  pose proof Hwf as [Hsons Hlen].
  assert (Z.to_nat (sons s) < length (edges s))%nat as Hlt by lia.
  split; [ | split; [ | split; [ | split]]].
  - assert (wp (add_prior_to_node (Some a) m prior moveCount)
              (fun _ v => NDEBUG || (sons s + 1 =? moveCount) = true /\
                          v = set_store (<[a := mkUCTInfo (node_visits s)
                                (sons s + 1) (expandedSons s) (lastMove s)
                                (<[Z.to_nat (sons s) := mkEdge m 0 prior 0 0]>
                                   (edges s))]> (store u)) u)
              (fun v => NDEBUG || (sons s + 1 =? moveCount) = false /\
                        v = set_store (<[a := mkUCTInfo (node_visits s)
                                (sons s + 1) (expandedSons s) (lastMove s)
                                (<[Z.to_nat (sons s) := mkEdge m 0 prior 0 0]>
                                   (edges s))]> (store u)) u)
              False u) as Hwp.
    { unfold add_prior_to_node, get_infos.
      apply wp_bind, wp_load. cbn [mbind option_bind]. rewrite Hs.
      apply wp_bind, wp_assert;
        [intros _ | intros _ Hn; apply Z.ltb_ge in Hn; lia].
      rewrite (proj2 (Z.ltb_lt _ _) Hroom).
      apply wp_bind. rewrite slot_in_range by lia. rewrite Z.add_0_l.
      eapply wp_save; [exact Hs | ].
      apply wp_bind, wp_load. cbn [mbind option_bind]. simpl_state.
      rewrite lookup_insert_eq.
      apply wp_bind. eapply wp_save; [simpl_state; apply lookup_insert_eq | ].
      apply wp_bind, wp_load. cbn [mbind option_bind]. simpl_state.
      rewrite lookup_insert_eq. simpl_state.
      rewrite !insert_insert_eq. unfold new_edge.
      apply wp_assert.
      - intros [-> | ->]; [split; reflexivity | ].
        split; [apply orb_true_r | reflexivity].
      - intros -> ->. split; reflexivity. }
    unfold wp in Hwp.
    destruct (add_prior_to_node (Some a) m prior moveCount u) as [[] v|v| ];
      [ | | contradiction]; destruct Hwp as [-> ->]; reflexivity.
  - exact (live_edges_append s _ Hwf Hroom).
  - now apply list_lookup_insert_eq.
  - intros i Hi. cbn. now apply list_lookup_insert_ne.
  - cbn. apply length_insert.
Qed.

End AddPriorFacts.

(** ** Making and taking back moves (C7) *)

Section MoveFacts.

Context `{Header} `{Environment}.

Lemma same_below_ply_refl u : same_below_ply u u.
Proof. split; [now destruct u | split; [reflexivity | tauto]]. Qed.

Lemma do_move_returns m u :
  room_for 1 u ->
  let k := Z.to_nat (STACK_BASE + ply u) in
  exists e,
    Search.currentMove e = m /\
    do_move m u
    = Returned tt
        (set_ply (ply u + 1)
           (set_pos (pos_do_move (pos u) m)
              (set_stackBuffer (<[k := e]> (stackBuffer u)) u))).
Proof.
  intros (Hply & Hlo & Hhi & Hstates) k.
  assert (k < length (stackBuffer u))%nat as Hk by lia.
  destruct (lookup_lt_is_Some_2 _ _ Hk) as [e0 He0].
  exists (set_ss_contHistory (Some (moved_piece (pos u) m, to_sq m))
            (set_ss_currentMove m (set_ss_ply (ply u) e0))).
  split; [reflexivity | ].
  apply wp_returns. unfold do_move.
  apply wp_bind, wp_get.
  apply wp_bind, wp_stack_write.
  rewrite slot_in_range by lia. fold k. rewrite He0.
  apply wp_bind, wp_stack_write. simpl_state. rewrite length_insert.
  rewrite slot_in_range by lia. fold k.
  rewrite list_lookup_insert_eq by exact Hk.
  apply wp_bind, wp_stack_write. simpl_state. rewrite !length_insert.
  rewrite slot_in_range by lia. fold k.
  rewrite list_lookup_insert_eq by (now rewrite length_insert).
  apply wp_bind. rewrite decide_True by lia.
  apply wp_modify, wp_modify. simpl_state.
  rewrite !list_insert_insert_eq. split; reflexivity.
Qed.

Lemma undo_move_returns u e :
  0 <= STACK_BASE + (ply u - 1) < Z.of_nat (length (stackBuffer u)) ->
  stackBuffer u !! Z.to_nat (STACK_BASE + (ply u - 1)) = Some e ->
  undo_move u
  = Returned tt
      (set_pos (pos_undo_move (pos u) (Search.currentMove e))
         (set_ply (ply u - 1) u)).
Proof.
  intros Hk He. apply wp_returns. unfold undo_move.
  apply wp_bind, wp_modify. apply wp_bind, wp_get.
  apply wp_bind, wp_stack_read. simpl_state.
  rewrite slot_in_range by lia. cbn [mbind option_bind]. rewrite He.
  apply wp_modify. split; reflexivity.
Qed.

Lemma depth_nonneg s : 0 <= depth s.
Proof. induction s; cbn; lia. Qed.

(** C7.  Let the collaborator undo exactly what it does.  Then after any
    sequence of paired do/undo operations, made of legal moves and for
    which the stack has room, the ply counter and the position are what
    they were before the sequence; the search object differs at most in
    stack entries at the starting ply and above. *)
Theorem paired_moves_restore `{!ExactUndo} (s : Session) : forall u : UCT,
  legal_session (pos u) s -> room_for (depth s) u ->
  exists u', play s u = Returned tt u' /\
    ply u' = ply u /\ pos u' = pos u /\ same_below_ply u u'.
Proof.
  induction s as [|m inner IHinner next IHnext]; intros u Hlegal Hroom.
  - exists u. split; [reflexivity | ].
    split; [reflexivity | split; [reflexivity | apply same_below_ply_refl]].
  - destruct Hlegal as (Hm & Hinner & Hnext).
    pose proof (depth_nonneg inner) as Hd1.
    pose proof (depth_nonneg next) as Hd2.
    cbn [depth] in Hroom. destruct Hroom as (Hply & Hlo & Hhi & Hstates).
    set (k := Z.to_nat (STACK_BASE + ply u)).
    assert (k < length (stackBuffer u))%nat as Hk by lia.
    (* the move *)
    destruct (do_move_returns m u) as (e & He & Hdo);
      [unfold room_for; lia | ].
    fold k in Hdo.
    set (u1 := set_ply (ply u + 1) (set_pos (pos_do_move (pos u) m)
                 (set_stackBuffer (<[k := e]> (stackBuffer u)) u))) in *.
    (* what happens while it stands *)
    destruct (IHinner u1) as (u2 & Hplay1 & Hply2 & Hpos2 & Hsame2).
    { exact Hinner. }
    { unfold room_for, u1. simpl_state. rewrite length_insert. lia. }
    destruct Hsame2 as (Hu2 & Hlen2 & Hlow2).
    unfold u1 in Hply2, Hpos2, Hlen2, Hlow2. simpl_state.
    rewrite length_insert in Hlen2.
    assert (stackBuffer u2 !! k = Some e) as Hentry.
    { rewrite Hlow2 by lia. now apply list_lookup_insert_eq. }
    (* its undoing *)
    pose proof (undo_move_returns u2 e) as Hundo.
    rewrite Hply2, Hpos2, He in Hundo.
    replace (ply u + 1 - 1) with (ply u) in Hundo by lia.
    rewrite undo_do in Hundo by exact Hm.
    specialize (Hundo ltac:(lia) Hentry).
    set (u3 := set_pos (pos u) (set_ply (ply u) u2)) in *.
    (* what follows *)
    destruct (IHnext u3) as (u4 & Hplay3 & Hply4 & Hpos4 & Hsame4).
    { exact Hnext. }
    { unfold room_for, u3. simpl_state. lia. }
    destruct Hsame4 as (Hu4 & Hlen4 & Hlow4).
    unfold u3 in Hply4, Hpos4, Hlen4, Hlow4. simpl_state.
    exists u4. split; [ | split; [exact Hply4 | split; [exact Hpos4 | ]]].
    + cbn [play]. run_monad. rewrite Hdo. fold (play inner). rewrite Hplay1.
      rewrite Hundo. fold (play next). rewrite Hplay3. reflexivity.
    + split; [ | split].
      * rewrite Hu4. unfold u3. rewrite Hu2. unfold u1.
        destruct u. reflexivity.
      * lia.
      * intros j Hj. rewrite Hlow4 by exact Hj. rewrite Hlow2 by lia.
        apply list_lookup_insert_ne. lia.
Qed.

(** A single move made and taken back. *)
Lemma do_undo_restores `{!ExactUndo} (m : Move) (u : UCT) :
  pos_legal (pos u) m = true -> room_for 1 u ->
  exists u1 u2, do_move m u = Returned tt u1 /\
    undo_move u1 = Returned tt u2 /\ ply u2 = ply u /\ pos u2 = pos u.
Proof.
  intros Hm Hroom.
  destruct (do_move_returns m u Hroom) as (e & He & Hdo).
  destruct Hroom as (Hply & Hlo & Hhi & Hstates).
  eexists _, _. split; [exact Hdo | ].
  split; [apply (undo_move_returns _ e) | ]; simpl_state.
  - rewrite length_insert. lia.
  - replace (ply u + 1 - 1) with (ply u) by lia.
    apply list_lookup_insert_eq. lia.
  - rewrite He. split; [lia | now apply undo_do].
Qed.

End MoveFacts.

(** ** The best move *)

Section BestMoveFacts.

Context `{Header} `{Environment}.

Lemma bestValue_init_is_number : Double.is_number bestValue_init.
Proof. reflexivity. Qed.

Lemma scanned_step father C seen acc x :
  (forall e, e ∈ seen -> Double.is_number (UCB_formula father e C)) ->
  Double.is_number (UCB_formula father x C) ->
  scanned father C seen acc ->
  scanned father C (seen ++ [x]) (best_move_step father C acc x).
Proof.
  intros Hnum Hx Hacc. unfold best_move_step.
  set (r := UCB_formula father x C) in *.
  assert (forall B,
            Double.gt r B = true -> Double.is_number B ->
            (forall e, e ∈ seen -> Double.gt (UCB_formula father e C) B = false) ->
            (forall j e', (seen ++ [x]) !! j = Some e' ->
               Double.gt (UCB_formula father e' C) r = false) /\
            (forall j e', (j < length seen)%nat -> (seen ++ [x]) !! j = Some e' ->
               Double.gt r (UCB_formula father e' C) = true)) as Hnew.
  { intros B HrB HB Hseen. split.
    - intros j e' Hj. apply lookup_app_Some in Hj.
      destruct Hj as [Hj|[_ Hj]].
      + destruct (Double.gt (UCB_formula father e' C) r) eqn:Hgt;
          [ | reflexivity].
        rewrite <- (Hseen e' (list_elem_of_lookup_2 _ _ _ Hj)).
        symmetry. exact (DoubleFacts.gt_trans _ _ _ Hgt HrB).
      + apply list_lookup_singleton_Some in Hj as [_ <-].
        apply DoubleFacts.gt_irrefl.
    - intros j e' Hlt Hj. rewrite lookup_app_l in Hj by exact Hlt.
      pose proof (list_elem_of_lookup_2 _ _ _ Hj) as Hin.
      exact (DoubleFacts.gt_of_gt_not_gt _ _ _ (Hnum _ Hin) HB
               (Hseen _ Hin) HrB). }
  destruct Hacc as [[-> Hnone]|(i & e & Hi & -> & Hinit & Hmax & Hfirst)];
    cbn [fst].
  - destruct (Double.gt r bestValue_init) eqn:Hr.
    + right. exists (length seen), x.
      destruct (Hnew _ Hr bestValue_init_is_number Hnone) as [Hall Hbefore].
      split; [apply list_lookup_middle; reflexivity | ].
      split; [reflexivity | split; [exact Hr | split; assumption]].
    + left. split; [reflexivity | ].
      intros e He. apply elem_of_app in He as [He|He]; [now apply Hnone | ].
      apply list_elem_of_singleton in He as ->. exact Hr.
  - set (B := UCB_formula father e C) in *.
    assert (Double.is_number B) as HB
      by (apply Hnum; exact (list_elem_of_lookup_2 _ _ _ Hi)).
    destruct (Double.gt r B) eqn:Hr.
    + right. exists (length seen), x.
      assert (forall e0, e0 ∈ seen ->
                Double.gt (UCB_formula father e0 C) B = false) as Hseen.
      { intros e0 He0. apply list_elem_of_lookup_1 in He0 as [j Hj].
        exact (Hmax j e0 Hj). }
      destruct (Hnew _ Hr HB Hseen) as [Hall Hbefore].
      split; [apply list_lookup_middle; reflexivity | ].
      split; [reflexivity | ].
      split; [exact (DoubleFacts.gt_trans _ _ _ Hr Hinit) | ].
      split; assumption.
    + right. exists i, e.
      split; [now apply lookup_app_l_Some | ].
      split; [reflexivity | split; [exact Hinit | split]].
      * intros j e' Hj. apply lookup_app_Some in Hj.
        destruct Hj as [Hj|[_ Hj]]; [exact (Hmax j e' Hj) | ].
        apply list_lookup_singleton_Some in Hj as [_ <-]. exact Hr.
      * intros j e' Hlt Hj. apply lookup_app_Some in Hj.
        destruct Hj as [Hj|[Hge _]]; [exact (Hfirst j e' Hlt Hj) | ].
        apply lookup_lt_Some in Hi. lia.
Qed.

Lemma scanned_fold father C (todo : list Edge) : forall seen acc,
  (forall e, e ∈ seen ++ todo -> Double.is_number (UCB_formula father e C)) ->
  scanned father C seen acc ->
  scanned father C (seen ++ todo) (fold_left (best_move_step father C) todo acc).
Proof.
  induction todo as [|x todo IH]; intros seen acc Hnum Hacc.
  - now rewrite app_nil_r.
  - cbn [fold_left]. rewrite (cons_middle x seen todo), app_assoc.
    apply IH; [now rewrite <- app_assoc | ].
    apply scanned_step; [ | | exact Hacc].
    + intros e He. apply Hnum, elem_of_app. now left.
    + apply Hnum, elem_of_app. right. apply elem_of_cons. now left.
Qed.

(** The loop of [best_move] over the indices is the scan of the edges in
    use. *)
Lemma best_move_loop a s C u (todo : list Edge) : forall k acc,
  store u !! a = Some s ->
  (forall i e, todo !! i = Some e -> edges s !! (k + i)%nat = Some e) ->
  foldM (fun (acc : float * Move) (k : nat) =>
           match edges s !! k with
           | Some edge =>
               r ← UCB (Some a) edge C;
               if Double.gt r (fst acc) then mret (r, move edge) else mret acc
           | None => undefined
           end)
        (seq k (length todo)) acc u
  = Returned (fold_left (best_move_step s C) todo acc) u.
Proof.
  induction todo as [|x todo IH]; intros k acc Hs Hedges; [reflexivity | ].
  assert (edges s !! k = Some x) as Hk
    by (rewrite <- (Hedges 0%nat x eq_refl); f_equal; lia).
  cbn [length seq]. rewrite foldM_cons.
  match goal with
  | |- match ?body with _ => _ end = _ =>
      assert (body = Returned (best_move_step s C acc x) u) as ->
  end.
  { rewrite Hk. unfold UCB, get_infos, load. run_monad.
    cbn [mbind option_bind]. rewrite Hs. unfold best_move_step.
    now destruct (Double.gt _ _). }
  cbn [fold_left]. apply IH; [exact Hs | ].
  intros i e Hi. replace (S k + i)%nat with (k + S i)%nat by lia.
  now apply Hedges.
Qed.

Lemma best_move_returns a s C u :
  store u !! a = Some s -> sons s <= Z.of_nat (length (edges s)) ->
  best_move (Some a) C u
  = Returned (snd (fold_left (best_move_step s C) (live_edges s)
                     (bestValue_init, MOVE_NONE))) u.
Proof.
  intros Hs Hsons.
  assert (Z.to_nat (sons s) = length (live_edges s)) as Hlen
    by (unfold live_edges; rewrite length_take; lia).
  apply wp_returns.
  unfold best_move, get_list_of_edges, number_of_sons, get_infos.
  apply wp_bind, wp_bind, wp_load. cbn [mbind option_bind]. rewrite Hs.
  apply wp_ret.
  apply wp_bind, wp_bind, wp_load. cbn [mbind option_bind]. rewrite Hs.
  apply wp_ret. rewrite Hlen.
  apply wp_bind. eapply wp_of_returns.
  - apply (best_move_loop a s C u (live_edges s) 0 _ Hs).
    intros i e Hi. cbn. unfold live_edges in Hi.
    now apply lookup_take_Some in Hi as [Hi _].
  - apply wp_ret. split; reflexivity.
Qed.

(** The scan itself is the one of the spec where the scores are numbers,
    as they are on edges that have been visited: [best_move] returns the
    move of the first edge of maximum score when that score is above the
    initial best value -100000000.0, and [MOVE_NONE] when no score is
    above it, as on a node without edges.  The state is left as it was. *)
Lemma best_move_picks_first_maximum (a : positive) (s : UCTInfo)
    (C : float) (u : UCT) :
  store u !! a = Some s -> sons s <= Z.of_nat (length (edges s)) ->
  (forall e, e ∈ live_edges s -> Double.is_number (UCB_formula s e C)) ->
  exists m, best_move (Some a) C u = Returned m u /\
    ((exists i e, live_edges s !! i = Some e /\ m = move e /\
        Double.gt (UCB_formula s e C) bestValue_init = true /\
        (forall j e', live_edges s !! j = Some e' ->
           Double.ge (UCB_formula s e C) (UCB_formula s e' C) = true) /\
        (forall j e', (j < i)%nat -> live_edges s !! j = Some e' ->
           Double.gt (UCB_formula s e C) (UCB_formula s e' C) = true))
     \/
     (m = MOVE_NONE /\
      forall e, e ∈ live_edges s ->
        Double.gt (UCB_formula s e C) bestValue_init = false)).
Proof.
  intros Hs Hsons Hnum. rewrite (best_move_returns a s C u Hs Hsons).
  eexists. split; [reflexivity | ].
  pose proof (scanned_fold s C (live_edges s) [] (bestValue_init, MOVE_NONE))
    as Hscan.
  cbn [app] in Hscan. specialize (Hscan Hnum).
  destruct Hscan as [[-> Hnone]|(i & e & Hi & -> & Hinit & Hmax & Hfirst)].
  - left. split; [reflexivity | ]. intros e He. now apply elem_of_nil in He.
  - right. split; [reflexivity | assumption].
  - left. exists i, e. cbn [snd].
    split; [exact Hi | split; [reflexivity | split; [exact Hinit | split]]];
      [ | exact Hfirst].
    intros j e' Hj. apply DoubleFacts.ge_of_not_gt.
    + apply Hnum. exact (list_elem_of_lookup_2 _ _ _ Hj).
    + apply Hnum. exact (list_elem_of_lookup_2 _ _ _ Hi).
    + exact (Hmax j e' Hj).
Qed.

End BestMoveFacts.

(** ** Sorting by prior *)

Section SortFacts.

Lemma sorted_by_nil comp : sorted_by comp [].
Proof. intros i j a b _ Hi. now rewrite lookup_nil in Hi. Qed.

Lemma sorted_by_cons comp x l :
  sorted_by comp (x :: l) <->
  (forall y, y ∈ l -> comp y x = false) /\ sorted_by comp l.
Proof.
  split.
  - intros Hsorted. split.
    + intros y Hy. apply list_elem_of_lookup_1 in Hy as [j Hj].
      apply (Hsorted 0%nat (S j) x y); [lia | reflexivity | exact Hj].
    + intros i j a b Hij Hi Hj.
      apply (Hsorted (S i) (S j) a b); [lia | exact Hi | exact Hj].
  - intros [Hhead Htail] i j a b Hij Hi Hj.
    destruct j as [|j]; [lia | ]. cbn in Hj.
    destruct i as [|i].
    + cbn in Hi. injection Hi as <-.
      apply Hhead. exact (list_elem_of_lookup_2 _ _ _ Hj).
    + cbn in Hi. apply (Htail i j a b); [lia | exact Hi | exact Hj].
Qed.

Lemma insert_by_perm before x l :
  Permutation (Demo.insert_by before x l) (x :: l).
Proof.
  induction l as [|y l IH]; cbn; [reflexivity | ].
  destruct (before x y); [reflexivity | ].
  rewrite IH. apply perm_swap.
Qed.

Lemma insertion_sort_perm before l :
  Permutation (foldr (Demo.insert_by before) [] l) l.
Proof.
  induction l as [|x l IH]; cbn; [reflexivity | ].
  rewrite insert_by_perm. now rewrite IH.
Qed.

(** Insertion keeps a list of edges sorted by prior when [before] places
    the new edge correctly among edges whose priors are numbers. *)
Lemma insert_by_sorted before x l :
  (forall a b, before a b = true -> ComparePrior b a = false) ->
  (forall a b, Double.is_number (prior a) -> Double.is_number (prior b) ->
               before a b = false -> ComparePrior a b = false) ->
  Double.is_number (prior x) ->
  Forall (fun e => Double.is_number (prior e)) l ->
  sorted_by ComparePrior l ->
  sorted_by ComparePrior (Demo.insert_by before x l).
Proof.
  intros Hbefore Hafter Hx.
  induction l as [|y l IH]; intros Hnum Hsorted; cbn.
  - apply sorted_by_cons. split; [ | apply sorted_by_nil].
    intros y Hy. now apply elem_of_nil in Hy.
  - apply Forall_cons in Hnum as [Hy Hnum].
    pose proof Hsorted as Hsorted'.
    apply sorted_by_cons in Hsorted' as [Hhead Htail].
    destruct (before x y) eqn:Hxy.
    + apply sorted_by_cons. split; [ | exact Hsorted].
      intros z Hz. apply elem_of_cons in Hz as [-> | Hz];
        [now apply Hbefore | ].
      unfold ComparePrior.
      apply (DoubleFacts.not_gt_trans _ (prior y)); auto.
      * rewrite Forall_forall in Hnum. now apply Hnum.
      * now apply Hhead.
      * now apply Hbefore.
    + apply sorted_by_cons. split; [ | now apply IH].
      intros z Hz. rewrite insert_by_perm in Hz.
      apply elem_of_cons in Hz as [-> | Hz]; [now apply Hafter | ].
      now apply Hhead.
Qed.

Lemma insertion_sort_sorted before l :
  (forall a b, before a b = true -> ComparePrior b a = false) ->
  (forall a b, Double.is_number (prior a) -> Double.is_number (prior b) ->
               before a b = false -> ComparePrior a b = false) ->
  Forall (fun e => Double.is_number (prior e)) l ->
  sorted_by ComparePrior (foldr (Demo.insert_by before) [] l).
Proof.
  intros Hbefore Hafter. induction l as [|x l IH]; intros Hnum; cbn.
  - apply sorted_by_nil.
  - apply Forall_cons in Hnum as [Hx Hnum].
    apply insert_by_sorted; auto.
    now rewrite insertion_sort_perm.
Qed.

(** Both sorts of the small world keep the promise of [std::sort]. *)
Lemma keeping_sort_spec : @StdSortSpec (Demo.environment Demo.keeping_sort).
Proof.
  split; intros; cbn [std_sort Demo.environment]; unfold Demo.keeping_sort.
  - apply insertion_sort_perm.
  - apply insertion_sort_sorted; [ | | assumption].
    + intros a b Hab. now apply negb_true_iff in Hab.
    + intros a b _ _ Hab. apply negb_false_iff in Hab.
      now apply DoubleFacts.gt_asym.
Qed.

(** The rearrangements of a list of three elements. *)
Lemma Permutation_three {A} (l : list A) x y z :
  Permutation l [x; y; z] ->
  l = [x; y; z] \/ l = [x; z; y] \/ l = [y; x; z] \/
  l = [y; z; x] \/ l = [z; x; y] \/ l = [z; y; x].
Proof.
  intros Hperm.
  destruct (Permutation_vs_cons_inv Hperm) as (l1 & l2 & ->).
  symmetry in Hperm. apply Permutation_cons_app_inv in Hperm.
  apply Permutation_length_2_inv in Hperm.
  destruct l1 as [|a [|b [|c l1]]]; cbn in Hperm;
    destruct Hperm as [Heq|Heq]; simplify_eq; cbn; tauto.
Qed.

(** Sorted by descending prior, edges of priors 0.9, 0.1 and 0.5 come in
    the order 0.9, 0.5, 0.1. *)
Lemma sorted_three_priors l e1 e2 e3 :
  sorted_by ComparePrior l -> Permutation l [e1; e2; e3] ->
  prior e1 = 0.9%float -> prior e2 = 0.1%float -> prior e3 = 0.5%float ->
  l = [e1; e3; e2].
Proof.
  intros Hsorted Hperm H1 H2 H3.
  assert (forall a b rest1 rest2,
            l = rest1 ++ a :: b :: rest2 -> ComparePrior b a = false) as Hadj.
  { intros a b rest1 rest2 ->.
    apply (Hsorted (length rest1) (S (length rest1)) a b); [lia | | ].
    - now apply list_lookup_middle.
    - rewrite (cons_middle a rest1), app_assoc.
      apply list_lookup_middle. rewrite length_app. cbn. lia. }
  unfold ComparePrior in Hadj.
  destruct (Permutation_three l e1 e2 e3 Hperm)
    as [-> | [-> | [-> | [-> | [-> | ->]]]]];
    [ | reflexivity | | | | ]; exfalso.
  - specialize (Hadj e2 e3 [e1] [] eq_refl). now rewrite H2, H3 in Hadj.
  - specialize (Hadj e2 e1 [] [e3] eq_refl). now rewrite H2, H1 in Hadj.
  - specialize (Hadj e2 e3 [] [e1] eq_refl). now rewrite H2, H3 in Hadj.
  - specialize (Hadj e3 e1 [] [e2] eq_refl). now rewrite H3, H1 in Hadj.
  - specialize (Hadj e3 e2 [] [e1] eq_refl).
    specialize (Hsorted 0%nat 2%nat e3 e1 ltac:(lia) eq_refl eq_refl).
    unfold ComparePrior in Hsorted. now rewrite H3, H1 in Hsorted.
Qed.

End SortFacts.

(** ** Expansion (C5) *)

Section GenerateFacts.

Context `{Header} `{Environment}.

Lemma current_node_eq u :
  current_node u
  = match slot NODES_BASE (length (nodesBuffer u)) (ply u)
          ≫= (fun k => nodesBuffer u !! k) with
    | Some n => Returned n u
    | None => Undefined
    end.
Proof. reflexivity. Qed.

(** The current node depends on the ply and on the array of nodes only. *)
Lemma current_node_frame u v n :
  ply v = ply u -> nodesBuffer v = nodesBuffer u ->
  current_node u = Returned n u -> current_node v = Returned n v.
Proof.
  intros Hply Hnodes. rewrite !current_node_eq, Hply, Hnodes.
  destruct (slot _ _ _ ≫= _); [ | discriminate]. now intros [= ->].
Qed.

Lemma current_node_unique u v a b :
  ply v = ply u -> nodesBuffer v = nodesBuffer u ->
  current_node u = Returned (Some a) u ->
  current_node v = Returned (Some b) v -> b = a.
Proof.
  intros Hply Hnodes Hu Hv.
  rewrite (current_node_frame u v _ Hply Hnodes Hu) in Hv.
  now injection Hv.
Qed.

Lemma wp_current_node (Q : Node -> UCT -> Prop) Qab u :
  (forall n, current_node u = Returned n u -> Q n u) ->
  wp current_node Q Qab True u.
Proof.
  intros HQ. unfold wp. pose proof (HQ) as HQ'. revert HQ'.
  rewrite current_node_eq. destruct (slot _ _ _ ≫= _); auto.
Qed.

Lemma wp_load_some node (Q : UCTInfo -> UCT -> Prop) Qab u :
  (forall a s, node = Some a -> store u !! a = Some s -> Q s u) ->
  wp (load node) Q Qab True u.
Proof.
  intros HQ. apply wp_load. destruct node as [a|]; [ | exact I].
  cbn. destruct (store u !! a) as [s|] eqn:Hs; [ | exact I].
  exact (HQ a s eq_refl Hs).
Qed.

(** What the sorting block leaves: the edges in use of the current node
    are a result of [std::sort]. *)
Lemma sort_moves_by_prior_wp `{!StdSortSpec} u :
  wp sort_moves_by_prior
     (fun _ v => ply v = ply u /\ nodesBuffer v = nodesBuffer u /\
        forall a s, current_node v = Returned (Some a) v ->
          store v !! a = Some s ->
          exists l, live_edges s = std_sort ComparePrior l)
     (fun _ => True) True u.
Proof.
  unfold sort_moves_by_prior, number_of_sons, get_list_of_edges, get_infos.
  apply wp_bind, wp_current_node. intros node Hnode.
  apply wp_bind, wp_bind, wp_load_some. intros a s -> Hs. apply wp_ret.
  destruct (0 <? sons s) eqn:Hn.
  - apply wp_bind, wp_current_node. intros node' Hnode'.
    rewrite Hnode in Hnode'. injection Hnode' as <-.
    apply wp_bind, wp_bind, wp_load_some. intros a' s0 [= <-] Hs0.
    rewrite Hs in Hs0. injection Hs0 as <-. apply wp_ret.
    case_decide as Hlen; [ | exact I].
    apply wp_bind, wp_load_some. intros a' s0 [= <-] Hs0.
    rewrite Hs in Hs0. injection Hs0 as <-.
    eapply wp_save; [exact Hs | ].
    split; [reflexivity | split; [reflexivity | ]].
    intros b s' Hb Hs'.
    assert (b = a) as ->
      by (eapply current_node_unique; [ | | exact Hnode | exact Hb];
          reflexivity).
    simpl_state. rewrite lookup_insert_eq in Hs'. injection Hs' as <-.
    exists (take (Z.to_nat (sons s)) (edges s)).
    unfold live_edges. simpl_state.
    apply take_app_length'.
    rewrite (Permutation_length (std_sort_perm _ _)), length_take. lia.
  - apply wp_ret. split; [reflexivity | split; [reflexivity | ]].
    intros b s' Hb Hs'. rewrite Hnode in Hb. injection Hb as <-.
    rewrite Hs in Hs'. injection Hs' as <-.
    exists []. apply Z.ltb_ge in Hn. unfold live_edges.
    replace (Z.to_nat (sons s)) with 0%nat by lia. cbn.
    symmetry. apply Permutation_nil. symmetry. apply std_sort_perm.
Qed.

(** The last block marks the node and leaves its edges alone. *)
Lemma mark_expanded_wp (R : list Edge -> Prop) u :
  (forall a s, current_node u = Returned (Some a) u ->
     store u !! a = Some s -> R (live_edges s)) ->
  wp mark_expanded
     (fun _ v => forall a s, current_node v = Returned (Some a) v ->
        store v !! a = Some s ->
        R (live_edges s) /\ node_visits s = 1 /\ expandedSons s = 0)
     (fun _ => True) True u.
Proof.
  intros HR. unfold mark_expanded, get_infos.
  apply wp_bind, wp_current_node. intros node Hnode.
  apply wp_bind, wp_load_some. intros a s -> Hs.
  apply wp_bind. eapply wp_save; [exact Hs | ].
  apply wp_bind, wp_load_some. intros a' s1 [= <-] Hs1.
  simpl_state. rewrite lookup_insert_eq in Hs1. injection Hs1 as <-.
  eapply wp_save; [simpl_state; apply lookup_insert_eq | ].
  intros b s' Hb Hs'.
  assert (b = a) as ->
    by (eapply current_node_unique; [ | | exact Hnode | exact Hb];
        reflexivity).
  simpl_state. rewrite lookup_insert_eq in Hs'. injection Hs' as <-.
  split; [ | split; reflexivity].
  exact (HR a s Hnode Hs).
Qed.

(** From the last two blocks of [generate_moves] alone: whenever the call
    returns, the edges in use of the current node are sorted by descending
    prior, provided the priors are numbers, and the node is marked as
    visited once, with no expanded son. *)
Lemma generate_moves_sorts_by_prior `{!StdSortSpec} (u u' : UCT)
    (a : positive) (s' : UCTInfo) :
  generate_moves u = Returned tt u' ->
  current_node u' = Returned (Some a) u' -> store u' !! a = Some s' ->
  Forall (fun e => Double.is_number (prior e)) (live_edges s') ->
  sorted_by ComparePrior (live_edges s') /\
  node_visits s' = 1 /\ expandedSons s' = 0 /\
  forall e1 e2 e3, Permutation (live_edges s') [e1; e2; e3] ->
    prior e1 = 0.9%float -> prior e2 = 0.1%float -> prior e3 = 0.5%float ->
    live_edges s' = [e1; e3; e2].
Proof.
  intros Hrun Hcur Hs' Hnum.
  assert (wp generate_moves
            (fun _ v => forall a s, current_node v = Returned (Some a) v ->
               store v !! a = Some s ->
               (exists l, live_edges s = std_sort ComparePrior l) /\
               node_visits s = 1 /\ expandedSons s = 0)
            (fun _ => True) True u) as Hwp.
  { unfold generate_moves. apply wp_bind, wp_get.
    do 4 (apply wp_bind, wp_stack_read;
          match goal with
          | |- match ?x with _ => _ end => destruct x; [ | exact I]
          end).
    cbn zeta. apply wp_bind, wp_any; [ | auto]. intros _ u1.
    apply wp_bind. eapply wp_mono; [apply sort_moves_by_prior_wp | | auto..].
    intros _ u2 (_ & _ & Hsorted). cbn beta.
    now apply (mark_expanded_wp (fun l' => exists l, l' = std_sort ComparePrior l)). }
  unfold wp in Hwp. rewrite Hrun in Hwp.
  destruct (Hwp a s' Hcur Hs') as ((l & Hl) & Hvisits & Hexpanded).
  assert (sorted_by ComparePrior (live_edges s')) as Hsorted.
  { rewrite Hl. apply std_sort_sorted.
    rewrite <- (std_sort_perm ComparePrior l), <- Hl. exact Hnum. }
  split; [exact Hsorted | split; [exact Hvisits | split; [exact Hexpanded | ]]].
  intros e1 e2 e3. now apply sorted_three_priors.
Qed.

End GenerateFacts.

(** ** The reward codec (C4) *)

(** Every value from -2000 to 2000 passes [round_trip_check]: the
    check is run. *)
Lemma round_trip_checked :
  forallb round_trip_check (seqZ (-2000) 4001) = true.
Proof. vm_compute. reflexivity. Qed.

Section CodecFacts.

Context `{Header} `{Environment} `{!LibmSpec}.

(** C4.  In double precision, with [exp] and [log] of a C library that
    is accurate to the last places as [LibmSpec] says, the round trip of
    every value of magnitude at most 2000 (the rewards saturate beyond
    2509) comes back within the tolerance of one unit: the reward is not
    saturated and [reward_to_value (value_to_reward v)] is [v] or, where
    [int()] truncates a product that rounding left a hair short of the
    integer, the integer next to [v] towards 0. *)
Theorem reward_round_trip (v : Value) :
  Z.abs v <= 2000 ->
  let r := value_to_reward v in
  Double.gt r 0.99 = false /\ Double.lt r 0.01 = false /\
  (reward_to_value r = v \/ reward_to_value r = v - Z.sgn v) /\
  Z.abs (reward_to_value r - v) <= 1.
Proof.
  intros Hv. cbv zeta.
  assert (round_trip_check v = true) as Hcheck.
  { apply (proj1 (forallb_forall _ _) round_trip_checked).
    apply list_elem_of_In, elem_of_seqZ. lia. }
  unfold round_trip_check in Hcheck. cbv zeta in Hcheck.
  apply andb_prop in Hcheck as [Hrange HE].
  apply andb_prop in Hrange as [Hlo Hhi].
  rewrite forallb_forall in HE.
  specialize (HE _ (libm_exp_near _ Hlo Hhi)).
  apply andb_prop in HE as [Hsat HL].
  apply andb_prop in Hsat as [Hhigh Hlow].
  apply negb_true_iff in Hhigh, Hlow.
  apply andb_prop in HL as [Hq HL].
  apply andb_prop in Hq as [Hqlo Hqhi].
  rewrite forallb_forall in HL.
  specialize (HL _ (libm_log_near _ Hqlo Hqhi)).
  unfold reward_to_value, value_to_reward. cbv zeta.
  rewrite Hhigh, Hlow.
  split; [reflexivity | split; [reflexivity | ]].
  apply orb_prop in HL as [Heq | Heq]; apply Z.eqb_eq in Heq; rewrite Heq.
  - split; [now left | lia].
  - split; [now right | lia].
Qed.

End CodecFacts.

(** ** Runs in the small world *)

Module DemoFacts.

Lemma undo_exact sort : @ExactUndo (Demo.environment sort).
Proof. split. reflexivity. Qed.

Lemma wf_fresh_node b : @wf_node (Demo.header b) Demo.fresh_node.
Proof. split; [cbn; lia | reflexivity]. Qed.

Lemma wf_full_node b : @wf_node (Demo.header b) Demo.full_node.
Proof. split; [cbn; lia | reflexivity]. Qed.

Lemma wf_visited_node b : @wf_node (Demo.header b) Demo.visited_node.
Proof. split; [cbn; lia | reflexivity]. Qed.

End DemoFacts.

(** C9 at an input: the playout count of the small world is 7 before
    [create_root] and 7 after it. *)
Example create_root_example :
  match @create_root (Demo.header true) (Demo.environment Demo.keeping_sort)
          [] (Demo.world Demo.keeping_sort Demo.fresh_node) with
  | Returned _ u' => Some (playoutCnt u', descentCnt u', treeSize u')
  | _ => None
  end = Some (7, 0, 0).
Proof. vm_compute. reflexivity. Qed.

(** C2 at an input: after a hundred passes the search of the small world
    is still in its loop, a hundred descents and playouts later, with a
    tree of size 0. *)
Example search_example :
  match @search (Demo.header true) (Demo.environment Demo.keeping_sort)
          100 [] (Demo.world Demo.keeping_sort Demo.fresh_node) with
  | Returned r u' => Some (r, descentCnt u', playoutCnt u', treeSize u')
  | _ => None
  end = Some (None, 100, 107, 0).
Proof. vm_compute. reflexivity. Qed.

(** C6 at an input: with assertions compiled in, a fourth edge for a node
    of capacity three stops the program at the first [assert]; nothing is
    logged and the call does not return. *)
Lemma full_node_aborts_with_assertions :
  ~ full_node_is_skipped_in_every_build.
Proof.
  intros Hclaim.
  destruct (Hclaim (Demo.header false) (Demo.environment Demo.keeping_sort)
              1%positive Demo.full_node 4 0.5%float 4
              (Demo.world Demo.keeping_sort Demo.full_node))
    as [line Hline].
  - reflexivity.
  - apply DemoFacts.wf_full_node.
  - reflexivity.
  - assert (@MAX_SONS (Demo.header false) <= sons Demo.full_node) as Hfull
      by (cbn; lia).
    rewrite (@add_prior_to_full_node_aborts (Demo.header false)
               (Demo.environment Demo.keeping_sort) 1%positive Demo.full_node
               4 0.5%float 4 (Demo.world Demo.keeping_sort Demo.full_node)
               eq_refl eq_refl Hfull) in Hline.
    discriminate.
Qed.

(** The amended C6 at an input: without assertions the fourth edge is
    skipped and the line is logged. *)
Lemma add_prior_to_full_node_is_skipped_witness :
  @add_prior_to_node (Demo.header true) (Demo.environment Demo.keeping_sort)
    (Some 1%positive) 4 0.5%float 4
    (Demo.world Demo.keeping_sort Demo.full_node)
  = Returned tt
      (set_cerr ["ERROR : too many sons (3) in add_prior_to_node()"]
         (Demo.world Demo.keeping_sort Demo.full_node)).
Proof.
  assert (@MAX_SONS (Demo.header true) <= sons Demo.full_node) as Hfull
    by (cbn; lia).
  exact (proj1 (@add_prior_to_full_node_is_skipped (Demo.header true)
                  (Demo.environment Demo.keeping_sort) 1%positive
                  Demo.full_node 4 0.5%float 4
                  (Demo.world Demo.keeping_sort Demo.full_node)
                  eq_refl eq_refl Hfull)).
Defined.

(** C10 at an input: the first edge of a fresh node, in a build with
    assertions. *)
Lemma add_prior_appends_one_edge_witness :
  let w := Demo.world Demo.keeping_sort Demo.fresh_node in
  let s' := mkUCTInfo 0 1 0 0
              [mkEdge 5 0 0.75 0 0; mkEdge 0 0 0 0 0; mkEdge 0 0 0 0 0] in
  @add_prior_to_node (Demo.header false) (Demo.environment Demo.keeping_sort)
    (Some 1%positive) 5 0.75%float 1 w
  = Returned tt (set_store (<[1%positive := s']> (store w)) w) /\
  live_edges s' = [mkEdge 5 0 0.75 0 0].
Proof.
  assert (sons Demo.fresh_node < @MAX_SONS (Demo.header false)) as Hroom
    by (cbn; lia).
  pose proof (@add_prior_appends_one_edge (Demo.header false)
                (Demo.environment Demo.keeping_sort) 1%positive
                Demo.fresh_node 5 0.75%float 1
                (Demo.world Demo.keeping_sort Demo.fresh_node)
                eq_refl (DemoFacts.wf_fresh_node false) Hroom) as W.
  exact (conj (proj1 W) (proj1 (proj2 W))).
Defined.

(** C7 at an input: three pairs, one of them inside another. *)
Lemma paired_moves_restore_witness :
  let w := Demo.world Demo.keeping_sort Demo.fresh_node in
  exists u', @play (Demo.header true) (Demo.environment Demo.keeping_sort)
               (Pair 1 (Pair 2 Over Over) (Pair 3 Over Over)) w
             = Returned tt u' /\
    ply u' = 0 /\ pos u' = [].
Proof.
  cbv zeta.
  assert (@room_for (Demo.header true) (Demo.environment Demo.keeping_sort)
            (depth (Pair 1 (Pair 2 Over Over) (Pair 3 Over Over)))
            (Demo.world Demo.keeping_sort Demo.fresh_node)) as Hroom
    by (unfold room_for; cbn; lia).
  assert (@legal_session (Demo.environment Demo.keeping_sort)
            (pos (Demo.world Demo.keeping_sort Demo.fresh_node))
            (Pair 1 (Pair 2 Over Over) (Pair 3 Over Over))) as Hlegal
    by (cbn; tauto).
  destruct (@paired_moves_restore (Demo.header true)
              (Demo.environment Demo.keeping_sort)
              (DemoFacts.undo_exact Demo.keeping_sort)
              (Pair 1 (Pair 2 Over Over) (Pair 3 Over Over))
              (Demo.world Demo.keeping_sort Demo.fresh_node) Hlegal Hroom)
    as (u' & Hplay & Hply & Hpos & _).
  exists u'. split; [exact Hplay | split; [exact Hply | exact Hpos]].
Defined.

(** A node whose edges were visited: scores 0.25, 1 and 1 under C = 0;
    the second edge, the first of the two best, gives the move. *)
Example best_move_of_the_played_node :
  let w := Demo.world Demo.keeping_sort Demo.played_node in
  exists m, @best_move (Demo.header true) (Demo.environment Demo.keeping_sort)
              (Some 1%positive) 0%float w = Returned m w /\ m = 6.
Proof.
  cbv zeta.
  assert (sons Demo.played_node
          <= Z.of_nat (length (edges Demo.played_node))) as Hsons
    by (cbn; lia).
  assert (forall e, e ∈ live_edges Demo.played_node ->
            Double.is_number (UCB_formula Demo.played_node e 0)) as Hnum
    by (apply Forall_forall; repeat constructor).
  destruct (@best_move_picks_first_maximum (Demo.header true)
              (Demo.environment Demo.keeping_sort) 1%positive
              Demo.played_node 0%float
              (Demo.world Demo.keeping_sort Demo.played_node)
              eq_refl Hsons Hnum) as (m & Hrun & _).
  exists m. split; [exact Hrun | ].
  vm_compute in Hrun. now injection Hrun.
Qed.

(** The expansion of the fresh node in the small world. *)
Lemma demo_expansion_keeping :
  @generate_moves (Demo.header true) (Demo.environment Demo.keeping_sort)
    (Demo.world Demo.keeping_sort Demo.fresh_node)
  = Returned tt (Demo.expanded_world Demo.keeping_sort (Demo.expanded_node 1 2)).
Proof. vm_compute. reflexivity. Qed.

Lemma demo_expanded_current sort node :
  @current_node (Demo.header true) (Demo.environment sort)
    (Demo.expanded_world sort node)
  = Returned (Some 1%positive) (Demo.expanded_world sort node).
Proof. reflexivity. Qed.

Lemma demo_expanded_store sort node :
  store (Demo.expanded_world sort node) !! 1%positive = Some node.
Proof. reflexivity. Qed.

(** What the NaN of C1 does to the node just expanded: every edge is
    unvisited, every score is a NaN, no comparison [r > bestValue]
    succeeds and [best_move] answers [MOVE_NONE]. *)
Example best_move_after_expansion :
  @best_move (Demo.header true) (Demo.environment Demo.keeping_sort)
    (Some 1%positive) 0%float
    (Demo.expanded_world Demo.keeping_sort (Demo.expanded_node 1 2))
  = Returned 0
      (Demo.expanded_world Demo.keeping_sort (Demo.expanded_node 1 2)).
Proof. vm_compute. reflexivity. Qed.

(** The expansion of the crowded position, run: the ply, the node table
    and the current node afterwards. *)
Lemma crowded_expansion :
  match @generate_moves (Demo.wide_header true) Demo.crowded_environment
          (Demo.crowded_world Demo.wide_node) with
  | Returned _ u' => Some (ply u', nodesBuffer u', store u' !! 1%positive)
  | _ => None
  end
  = Some (0, Some 1%positive :: replicate 7 nullptr, Some Demo.crowded_node).
Proof. vm_compute. reflexivity. Qed.

(** C5 at an input: seventeen legal moves, 1 to 17, generated in this
    order with the same prior 0.5.  The [std::sort] of the GNU library
    partitions a range of more than 16 elements before it sorts by
    insertion, and leaves the edges in the order 9, 17, 16, ..., 10, 1,
    8, ..., 2: the edge of move 17 stands before the edge of move 16,
    which was generated before it. *)
Lemma expansion_sort_reorders_equal_priors :
  ~ expansion_sort_is_stable.
Proof.
  intros Hclaim. pose proof crowded_expansion as Hrun.
  destruct (@generate_moves (Demo.wide_header true) Demo.crowded_environment
              (Demo.crowded_world Demo.wide_node))
    as [[] u'| | ] eqn:Hgen; [ | discriminate Hrun..].
  injection Hrun as Hply Hnodes Hstore.
  assert (@current_node (Demo.wide_header true) Demo.crowded_environment u'
          = Returned (Some 1%positive) u') as Hcur.
  { rewrite current_node_eq, Hply, Hnodes. reflexivity. }
  destruct (Hclaim (Demo.wide_header true) Demo.crowded_environment eq_refl
              (Demo.crowded_world Demo.wide_node) u'
              1%positive Demo.crowded_node Hgen Hcur Hstore)
    as [_ [args Hstable]].
  destruct (Hstable 1%nat 2%nat (new_edge 17 0.5) (new_edge 16 0.5)
              ltac:(lia) eq_refl eq_refl eq_refl)
    as (i & j & Hij & Hi & Hj).
  cbn [picker_moves Demo.crowded_environment move new_edge] in Hi, Hj.
  assert (forall k m, seqZ 1 17 !! k = Some m -> m = Z.of_nat k + 1) as Hseq.
  { intros k m Hk. apply lookup_seqZ in Hk. lia. }
  apply Hseq in Hi, Hj. lia.
Qed.


(* ================================================================== *)
(** * Part III.  Further properties of the code                        *)
(* ================================================================== *)

(** ** The root *)

Section RootFacts.

Context `{Header} `{Environment}.

Lemma length_root_stack : length root_stack = STACK_SIZE.
Proof. unfold root_stack. now rewrite !length_insert, length_replicate. Qed.

(** The entries of the stack below index 0 are sentinels. *)
Lemma root_stack_sentinel i :
  header_consistent -> -4 <= i < 0 ->
  root_stack !! Z.to_nat (STACK_BASE + i) = Some sentinel.
Proof.
  intros (Hbase & Hsize & _) Hi. unfold root_stack.
  assert (i = -1 \/ i = -2 \/ i = -3 \/ i = -4) as Hcases by lia.
  destruct Hcases as [-> | [-> | [-> | ->]]];
    rewrite ?(list_lookup_insert_ne _ _ (Z.to_nat (STACK_BASE + _))) by lia;
    apply list_lookup_insert_eq;
    rewrite ?length_insert, length_replicate; lia.
Qed.

(** The entries from index 0 on are zeroed. *)
Lemma root_stack_zeroed i :
  header_consistent -> 0 <= i -> STACK_BASE + i < Z.of_nat STACK_SIZE ->
  root_stack !! Z.to_nat (STACK_BASE + i) = Some Search.zeroed.
Proof.
  intros (Hbase & Hsize & _) Hi Hlt. unfold root_stack.
  rewrite !list_lookup_insert_ne by lia.
  apply lookup_replicate_2. lia.
Qed.

(** With a consistent header [create_root] returns, and leaves
    [root_state]. *)
Lemma create_root_state p u :
  header_consistent -> create_root p u = Returned tt (root_state u).
Proof.
  intros (Hbase & Hsize & Hnodes). apply wp_returns.
  unfold create_root, create_node.
  do 5 (apply wp_bind, wp_modify).
  apply wp_bind. cbn [foldM]. simpl_state.
  do 4 (apply wp_bind, wp_stack_write; simpl_state;
        rewrite slot_in_range
          by (rewrite ?length_insert, ?length_replicate; lia);
        rewrite ?list_lookup_insert_ne by lia;
        rewrite lookup_replicate_2 by lia; simpl_state).
  apply wp_ret.
  apply wp_bind, wp_get. apply wp_bind, wp_modify. apply wp_bind, wp_modify.
  apply wp_bind, wp_ret. apply wp_bind, wp_nodes_write. simpl_state.
  rewrite slot_in_range by (rewrite ?length_replicate; lia).
  rewrite lookup_replicate_2 by lia. rewrite insert_replicate.
  apply wp_bind, wp_modify. apply wp_bind, wp_get.
  apply wp_bind, wp_assert; [intros _ | cbn; intros _ [=]].
  apply wp_bind, wp_nodes_read. simpl_state.
  rewrite slot_in_range by (rewrite ?length_replicate; lia).
  cbn [mbind option_bind]. rewrite lookup_replicate_2 by lia.
  apply wp_assert; [intros _; split; reflexivity | ].
  cbn. rewrite bool_decide_eq_false. tauto.
Qed.

(** X1.  With a consistent header [create_root] returns and leaves a tree
    without nodes: the root and every entry of [nodes] are null pointers.
    The stack holds the sentinel in [stack[-4]] to [stack[-1]] and zeroed
    entries from [stack[0]] on; [rootPosition] is a copy of the member
    [pos]; the position, the nodes in memory and the log are untouched. *)
Theorem create_root_erases_the_tree (p : Position) (u : UCT) :
  header_consistent ->
  exists u', create_root p u = Returned tt u' /\
    root u' = nullptr /\
    (forall i n, nodes_read i u' = Returned n u' -> n = nullptr) /\
    (forall i, -4 <= i < 0 -> stack_read i u' = Returned sentinel u') /\
    (forall i, 0 <= i -> STACK_BASE + i < Z.of_nat STACK_SIZE ->
       stack_read i u' = Returned Search.zeroed u') /\
    rootPosition u' = pos_set_fen (pos u) /\
    pos u' = pos u /\ store u' = store u /\ cerr u' = cerr u.
Proof.
  intros Hheader. exists (root_state u).
  split; [now apply create_root_state | ].
  pose proof Hheader as (Hbase & Hsize & Hnodes).
  split; [reflexivity | ].
  split; [ | split; [ | split; [ | repeat split]]].
  - intros i n Hread. unfold nodes_read, root_state in Hread. simpl_state.
    destruct (slot _ _ i ≫= _) as [n'|] eqn:Hk; [ | discriminate Hread].
    injection Hread as <-.
    destruct (slot _ _ i) as [k|]; [ | discriminate Hk]. cbn in Hk.
    now apply lookup_replicate in Hk as [-> _].
  - intros i Hi. unfold stack_read, root_state. simpl_state.
    rewrite length_root_stack, slot_in_range by lia.
    cbn [mbind option_bind]. now rewrite root_stack_sentinel.
  - intros i Hi Hlt. unfold stack_read, root_state. simpl_state.
    rewrite length_root_stack, slot_in_range by lia.
    cbn [mbind option_bind]. now rewrite root_stack_zeroed.
Qed.

(** X2.  A second [create_root] changes nothing: the function rebuilds
    the same state from the member [pos], which it does not modify,
    whatever positions it is handed. *)
Theorem create_root_twice (p q : Position) (u : UCT) :
  header_consistent ->
  exists u', create_root p u = Returned tt u' /\
             create_root q u' = Returned tt u'.
Proof.
  intros Hheader. exists (root_state u).
  split; [now apply create_root_state | ].
  now rewrite (create_root_state q (root_state u) Hheader).
Qed.

(** X3.  [undo_move] does not check that a move was made.  Right after
    [create_root] it lowers the ply to -1 and has the position take back
    the move 0 that it reads in the sentinel [stack[-1]]. *)
Theorem undo_move_at_the_root (p : Position) (u : UCT) :
  header_consistent ->
  exists u1 u2, create_root p u = Returned tt u1 /\
    undo_move u1 = Returned tt u2 /\
    ply u2 = -1 /\ pos u2 = pos_undo_move (pos u) 0.
Proof.
  intros Hheader. pose proof Hheader as (Hbase & Hsize & Hnodes).
  exists (root_state u). eexists.
  split; [now apply create_root_state | ].
  split; [apply (undo_move_returns _ sentinel) | split; reflexivity].
  - unfold root_state. simpl_state. rewrite length_root_stack. lia.
  - unfold root_state. simpl_state.
    apply (root_stack_sentinel (-1)); [exact Hheader | lia].
Qed.

End RootFacts.

(** ** The loop and the exploration constant *)

Section LoopFacts.

Context `{Header} `{Environment}.

Lemma int_wrap_range z : int_range z -> int_wrap z = z.
Proof.
  unfold int_range, int_wrap. intros Hz.
  rewrite Z.mod_small by lia. lia.
Qed.

Lemma int_wrap_succ z : int_wrap (int_wrap z + 1) = int_wrap (z + 1).
Proof.
  unfold int_wrap.
  replace ((z + 2 ^ 31) mod 2 ^ 32 - 2 ^ 31 + 1 + 2 ^ 31)
    with ((z + 2 ^ 31) mod 2 ^ 32 + 1) by lia.
  rewrite Zplus_mod_idemp_l. do 2 f_equal. lia.
Qed.

(** The loop of [search] on counters of any content: each pass
    increments both. *)
Lemma search_loop_state (fuel : nat) : forall u : UCT,
  treeSize u < 5 ->
  search_loop fuel u
  = Returned false
      (set_playoutCnt
         (Nat.iter fuel (fun c => int_wrap (c + 1)) (playoutCnt u))
         (set_descentCnt
            (Nat.iter fuel (fun c => int_wrap (c + 1)) (descentCnt u)) u)).
Proof.
  induction fuel as [|fuel IH]; intros u Hsize.
  - cbn [search_loop Nat.iter nat_rect]. unfold computational_budget.
    run_monad. rewrite (proj2 (Z.ltb_lt _ _) Hsize). now destruct u.
  - cbn [search_loop]. unfold computational_budget. run_monad.
    rewrite (proj2 (Z.ltb_lt _ _) Hsize).
    change (search_iteration u)
      with (Returned tt
              (set_playoutCnt (int_wrap (playoutCnt u + 1))
                 (set_descentCnt (int_wrap (descentCnt u + 1)) u))).
    cbv iota beta. rewrite IH by exact Hsize. simpl_state.
    rewrite !Nat.iter_succ_r. now destruct u.
Qed.

Lemma iter_int_wrap (n : nat) (c : Z) :
  int_range c ->
  Nat.iter n (fun c => int_wrap (c + 1)) c = int_wrap (c + Z.of_nat n).
Proof.
  intros Hc. induction n as [|n IH].
  - cbn. now rewrite Z.add_0_r, int_wrap_range.
  - rewrite Nat.iter_succ, IH, int_wrap_succ. f_equal. lia.
Qed.

(** X4.  While the tree holds fewer than five nodes, [n] passes of the
    loop of [search] add [n] to the descent count and to the playout
    count, as [int]s: the sums wrap around beyond 2147483647, and are the
    plain sums as long as they do not exceed it.  Nothing else changes
    and the loop goes on; with five nodes or more the loop is left at
    once, without a pass. *)
Theorem search_loop_counts (fuel : nat) (u : UCT) :
  int_range (descentCnt u) -> int_range (playoutCnt u) ->
  (treeSize u < 5 ->
   search_loop fuel u
   = Returned false
       (set_playoutCnt (int_wrap (playoutCnt u + Z.of_nat fuel))
          (set_descentCnt (int_wrap (descentCnt u + Z.of_nat fuel)) u))) /\
  (descentCnt u + Z.of_nat fuel < 2 ^ 31 ->
   int_wrap (descentCnt u + Z.of_nat fuel) = descentCnt u + Z.of_nat fuel) /\
  (playoutCnt u + Z.of_nat fuel < 2 ^ 31 ->
   int_wrap (playoutCnt u + Z.of_nat fuel) = playoutCnt u + Z.of_nat fuel) /\
  (5 <= treeSize u -> search_loop fuel u = Returned true u).
Proof.
  intros Hd Hp. split; [ | split; [ | split]].
  - intros Hsize. rewrite (search_loop_state fuel u Hsize).
    now rewrite !iter_int_wrap by assumption.
  - intros Hsum. apply int_wrap_range. unfold int_range in *. lia.
  - intros Hsum. apply int_wrap_range. unfold int_range in *. lia.
  - intros Hsize. destruct fuel; cbn [search_loop];
      unfold computational_budget; run_monad;
      now rewrite (proj2 (Z.ltb_ge _ _) Hsize).
Qed.

(** X5.  The exploration constant that [set_exploration_constant] stores
    is read by [get_exploration_constant] alone: [best_move] works with
    the constant it is handed and returns the same move and the same
    state whatever was stored. *)
Theorem exploration_constant_is_not_read (a : positive) (s : UCTInfo)
    (C C' : float) (u : UCT) :
  store u !! a = Some s -> sons s <= Z.of_nat (length (edges s)) ->
  exists m,
    best_move (Some a) C u = Returned m u /\
    (set_exploration_constant C';; best_move (Some a) C) u
    = Returned m (set_explorationConstant C' u) /\
    (set_exploration_constant C';; get_exploration_constant) u
    = Returned C' (set_explorationConstant C' u).
Proof.
  intros Hs Hsons. rewrite (best_move_returns a s C u Hs Hsons).
  eexists. split; [reflexivity | ]. split; [ | reflexivity].
  unfold set_exploration_constant. run_monad.
  now rewrite (best_move_returns a s C (set_explorationConstant C' u)).
Qed.

End LoopFacts.


(** ** Moves, once more *)

Section MoveEffects.

Context `{Header} `{Environment}.

(** A call that neither returns nor aborts has no defined behaviour. *)
Lemma wp_never {A} (c : M A) u :
  wp c (fun _ _ => False) (fun _ => False) True u -> c u = Undefined.
Proof. unfold wp. now destruct (c u). Qed.

Lemma do_move_state m u e0 :
  room_for 1 u -> stackBuffer u !! stack_index u = Some e0 ->
  do_move m u
  = Returned tt
      (set_ply (ply u + 1)
         (set_pos (pos_do_move (pos u) m)
            (set_stackBuffer
               (<[stack_index u := move_entry u m e0]> (stackBuffer u)) u))).
Proof.
  intros (Hply & Hlo & Hhi & Hstates) He0. unfold stack_index in *.
  set (k := Z.to_nat (STACK_BASE + ply u)) in *.
  assert (k < length (stackBuffer u))%nat as Hk by lia.
  apply wp_returns. unfold do_move.
  apply wp_bind, wp_get.
  apply wp_bind, wp_stack_write.
  rewrite slot_in_range by lia. fold k. rewrite He0.
  apply wp_bind, wp_stack_write. simpl_state. rewrite length_insert.
  rewrite slot_in_range by lia. fold k.
  rewrite list_lookup_insert_eq by exact Hk.
  apply wp_bind, wp_stack_write. simpl_state. rewrite !length_insert.
  rewrite slot_in_range by lia. fold k.
  rewrite list_lookup_insert_eq by (now rewrite length_insert).
  apply wp_bind. rewrite decide_True by lia.
  apply wp_modify, wp_modify. simpl_state.
  rewrite !list_insert_insert_eq. split; reflexivity.
Qed.

(** X6.  [do_move] writes the ply, the move and the address of the
    history of the moved piece into [stack[ply]], makes the move on the
    position and adds one to the ply.  The move count and the killers of
    the entry, the other entries, the counters ([doMoveCnt] among them)
    and the tree are as before. *)
Theorem do_move_records_the_move (m : Move) (u : UCT) (e0 : Search.Stack) :
  room_for 1 u -> stackBuffer u !! stack_index u = Some e0 ->
  exists u', do_move m u = Returned tt u' /\
    ply u' = ply u + 1 /\ pos u' = pos_do_move (pos u) m /\
    stackBuffer u' !! stack_index u
    = Some (Search.mkStack (ply u) m (Some (moved_piece (pos u) m, to_sq m))
              (Search.moveCount e0) (Search.killers e0)) /\
    (forall j, j <> stack_index u ->
       stackBuffer u' !! j = stackBuffer u !! j) /\
    doMoveCnt u' = doMoveCnt u /\ store u' = store u /\
    nodesBuffer u' = nodesBuffer u /\ root u' = root u.
Proof.
  intros Hroom He0. rewrite (do_move_state m u e0 Hroom He0).
  eexists. split; [reflexivity | ]. simpl_state. apply lookup_lt_Some in He0.
  split; [reflexivity | split; [reflexivity | split]].
  - now apply list_lookup_insert_eq.
  - split; [ | repeat split].
    intros j Hj. now apply list_lookup_insert_ne.
Qed.

(** X7.  [do_move] checks neither array: when [stack[ply]] lies outside
    the stack buffer or [states[ply]] outside [states], the call has no
    defined behaviour. *)
Theorem do_move_beyond_capacity (m : Move) (u : UCT) :
  slot STACK_BASE (length (stackBuffer u)) (ply u) = None \/
  ~ 0 <= ply u < STATES_SIZE ->
  do_move m u = Undefined.
Proof.
  intros Hout. apply wp_never. unfold do_move.
  apply wp_bind, wp_get.
  destruct Hout as [Hslot|Hstates].
  - apply wp_bind, wp_stack_write. now rewrite Hslot.
  - do 3 (apply wp_bind; wp_write; simpl_state).
    apply wp_bind. now rewrite decide_False.
Qed.

Lemma calculate_prior_state `{!ExactUndo} m n u e0 e1 :
  pos_legal (pos u) m = true -> room_for 1 u ->
  stackBuffer u !! stack_index u = Some e0 ->
  stackBuffer u !! S (stack_index u) = Some e1 ->
  calculate_prior m n u
  = Returned
      (value_to_reward (minimax_value (pos_do_move (pos u) m) e1 DEPTH_ZERO))
      (set_stackBuffer
         (<[stack_index u := move_entry u m e0]> (stackBuffer u)) u).
Proof.
  intros Hm Hroom He0 He1.
  pose proof Hroom as (Hply & Hlo & Hhi & Hstates).
  pose proof (lookup_lt_Some _ _ _ He0) as Hk0.
  pose proof (lookup_lt_Some _ _ _ He1) as Hk1.
  apply wp_returns. unfold calculate_prior.
  apply wp_bind.
  eapply wp_of_returns; [exact (do_move_state m u e0 Hroom He0) | ].
  unfold stack_index in *.
  apply wp_bind. unfold evaluate_with_minimax.
  apply wp_bind, wp_get. apply wp_bind, wp_stack_read. simpl_state.
  rewrite length_insert, slot_in_range by lia. cbn [mbind option_bind].
  replace (Z.to_nat (STACK_BASE + (ply u + 1)))
    with (S (Z.to_nat (STACK_BASE + ply u))) by lia.
  rewrite list_lookup_insert_ne by lia. rewrite He1.
  apply wp_ret. apply wp_bind.
  eapply wp_of_returns.
  - apply (undo_move_returns _ (move_entry u m e0)); simpl_state.
    + rewrite length_insert. lia.
    + replace (ply u + 1 - 1) with (ply u) by lia.
      now apply list_lookup_insert_eq.
  - apply wp_ret. split; [reflexivity | ].
    simpl_state. cbn [Search.currentMove move_entry].
    rewrite undo_do by exact Hm.
    replace (ply u + 1 - 1) with (ply u) by lia.
    now destruct u.
Qed.

(** X8.  [calculate_prior] makes the move, has the position after it
    evaluated at depth zero, converts the value to a reward and takes the
    move back: the ply and the position are as before, only [stack[ply]]
    remembers the move, and the result does not depend on the rank [n]
    of the move. *)
Theorem calculate_prior_restores `{!ExactUndo} (m : Move) (n n' : Z)
    (u : UCT) (e0 e1 : Search.Stack) :
  pos_legal (pos u) m = true -> room_for 1 u ->
  stackBuffer u !! stack_index u = Some e0 ->
  stackBuffer u !! S (stack_index u) = Some e1 ->
  exists u',
    calculate_prior m n u
    = Returned
        (value_to_reward
           (minimax_value (pos_do_move (pos u) m) e1 DEPTH_ZERO)) u' /\
    calculate_prior m n' u = calculate_prior m n u /\
    ply u' = ply u /\ pos u' = pos u /\ store u' = store u /\
    forall j, j <> stack_index u -> stackBuffer u' !! j = stackBuffer u !! j.
Proof.
  intros Hm Hroom He0 He1.
  rewrite (calculate_prior_state m n u e0 e1 Hm Hroom He0 He1).
  eexists. split; [reflexivity | ].
  split; [now apply calculate_prior_state | ]. simpl_state. repeat split.
  intros j Hj. now apply list_lookup_insert_ne.
Qed.

End MoveEffects.

(** ** Expansion without a node *)

Section NullNodeFacts.

Context `{Header} `{Environment}.

(** The loop of [generate_moves] on a null current node: it skips illegal
    moves and never gets past a legal one. *)
Lemma generate_moves_loop_null_node u (mp : list Move) : forall moveCount,
  current_node u = Returned nullptr u ->
  wp (foldM generate_moves_step mp moveCount)
     (fun _ v => v = u) (fun _ => False) True u.
Proof.
  induction mp as [|m mp IH]; intros moveCount Hnull; [reflexivity | ].
  cbn [foldM]. apply wp_bind. unfold generate_moves_step at 1.
  apply wp_bind, wp_get.
  destruct (pos_legal (pos u) m).
  - apply wp_bind. wp_write.
    apply wp_bind. unfold calculate_prior, do_move.
    apply wp_bind, wp_bind, wp_get. simpl_state.
    do 3 (apply wp_bind; wp_write; simpl_state).
    apply wp_bind. case_decide; [ | exact I].
    apply wp_modify, wp_modify.
    unfold evaluate_with_minimax.
    apply wp_bind, wp_bind, wp_get. apply wp_bind, wp_stack_read.
    match goal with
    | |- match ?x with _ => _ end => destruct x; [ | exact I]
    end.
    apply wp_ret. unfold undo_move.
    apply wp_bind, wp_bind, wp_modify. apply wp_bind, wp_get.
    apply wp_bind, wp_stack_read.
    match goal with
    | |- match ?x with _ => _ end => destruct x; [ | exact I]
    end.
    apply wp_modify, wp_ret.
    apply wp_bind, wp_current_node. intros node Hnode.
    assert (node = nullptr) as ->.
    { eapply current_node_frame in Hnull; [rewrite Hnull in Hnode | | ].
      - now injection Hnode.
      - simpl_state. lia.
      - reflexivity. }
    apply wp_bind. unfold add_prior_to_node, get_infos.
    apply wp_bind, wp_load. exact I.
  - apply wp_ret. now apply IH.
Qed.

(** X9.  With a null current node, as [create_root] leaves it,
    [generate_moves] dereferences the null pointer, in
    [add_prior_to_node] at the first legal move or in [number_of_sons]
    when there is none: the call never returns.  [best_move] on a null
    node does the same. *)
Theorem expansion_without_a_node (u : UCT) (C : float) :
  current_node u = Returned nullptr u ->
  generate_moves u = Undefined /\ best_move nullptr C u = Undefined.
Proof.
  intros Hnull. split; [ | reflexivity].
  apply wp_never. unfold generate_moves.
  apply wp_bind, wp_get.
  do 4 (apply wp_bind, wp_stack_read;
        match goal with
        | |- match ?x with _ => _ end => destruct x; [ | exact I]
        end).
  cbn zeta. apply wp_bind.
  eapply wp_mono; [now apply generate_moves_loop_null_node | | auto..].
  intros _ v ->. cbn beta.
  apply wp_bind. unfold sort_moves_by_prior.
  apply wp_bind, wp_current_node. intros node Hnode.
  rewrite Hnull in Hnode. injection Hnode as <-.
  unfold number_of_sons, get_infos. apply wp_bind, wp_bind, wp_load. exact I.
Qed.

End NullNodeFacts.

(** ** The expansion of a node *)

Section ExpansionFacts.

Context `{Header} `{Environment}.

Lemma wp_aborts {A} (c : M A) u u' :
  wp c (fun _ _ => False) (fun v => v = u') False u -> c u = Aborted u'.
Proof. unfold wp. destruct (c u); [tauto | now intros -> | tauto]. Qed.

Lemma foldM_app {A B} (f : B -> A -> M B) l1 l2 b u :
  foldM f (l1 ++ l2) b u
  = match foldM f l1 b u with
    | Returned b' u' => foldM f l2 b' u'
    | Aborted u' => Aborted u'
    | Undefined => Undefined
    end.
Proof.
  revert b u. induction l1 as [|a l1 IH]; intros b u; [reflexivity | ].
  rewrite <- app_comm_cons, !foldM_cons. destruct (f b a u); auto.
Qed.

(** *** [add_prior_to_node], one call *)

Lemma add_prior_to_node_stores a s m prior moveCount u :
  store u !! a = Some s -> wf_node s -> sons s < MAX_SONS ->
  NDEBUG = true \/ sons s + 1 = moveCount ->
  add_prior_to_node (Some a) m prior moveCount u
  = Returned tt
      (set_store (<[a := with_edge (new_edge m prior) s]> (store u)) u).
Proof.
  intros Hs [Hsons Hlen] Hroom Hcount. apply wp_returns.
  unfold add_prior_to_node, get_infos.
  apply wp_bind, wp_load. cbn [mbind option_bind]. rewrite Hs.
  apply wp_bind, wp_assert;
    [intros _ | intros _ Hn; apply Z.ltb_ge in Hn; lia].
  rewrite (proj2 (Z.ltb_lt _ _) Hroom).
  apply wp_bind. rewrite slot_in_range by lia. rewrite Z.add_0_l.
  eapply wp_save; [exact Hs | ].
  apply wp_bind, wp_load. cbn [mbind option_bind]. simpl_state.
  rewrite lookup_insert_eq.
  apply wp_bind. eapply wp_save; [simpl_state; apply lookup_insert_eq | ].
  apply wp_bind, wp_load. cbn [mbind option_bind]. simpl_state.
  rewrite lookup_insert_eq. simpl_state.
  rewrite !insert_insert_eq.
  apply wp_assert.
  - intros _. split; [reflexivity | ]. unfold with_edge. now destruct u.
  - intros Hdebug Hne. apply Z.eqb_neq in Hne.
    destruct Hcount as [Hn | Hn]; [congruence | lia].
Qed.

Lemma add_prior_to_node_logs a s m prior moveCount u :
  NDEBUG = true -> store u !! a = Some s -> MAX_SONS <= sons s ->
  add_prior_to_node (Some a) m prior moveCount u
  = Returned tt (set_cerr (cerr u ++ [too_many_sons s]) u).
Proof.
  intros Hndebug Hs Hfull.
  unfold add_prior_to_node, get_infos. run_monad. unfold load, assert.
  cbn [option_bind mbind]. rewrite Hs, Hndebug.
  now rewrite (proj2 (Z.ltb_ge _ _) Hfull).
Qed.

Lemma wf_with_edge e s :
  wf_node s -> sons s < MAX_SONS -> wf_node (with_edge e s).
Proof.
  intros [Hsons Hlen] Hroom. split; cbn; [lia | ].
  now rewrite length_insert.
Qed.

(** *** The edges offered *)

Lemma offered_edges_cons u next m mp :
  offered_edges u next (m :: mp)
  = if pos_legal (pos u) m
    then new_edge m (value_to_reward
           (minimax_value (pos_do_move (pos u) m) next DEPTH_ZERO))
         :: offered_edges u next mp
    else offered_edges u next mp.
Proof. unfold offered_edges. cbn. now destruct (pos_legal (pos u) m). Qed.

Lemma offer_app es1 es2 s log :
  offer (es1 ++ es2) s log
  = offer es2 (fst (offer es1 s log)) (snd (offer es1 s log)).
Proof.
  revert s log. induction es1 as [|e es1 IH]; intros s log; [reflexivity | ].
  cbn. now destruct (sons s <? MAX_SONS).
Qed.

(** While there is room, the edges go to the array one after the other. *)
Lemma offer_fits es : forall s log,
  wf_node s -> sons s + Z.of_nat (length es) <= MAX_SONS ->
  offer es s log
  = (set_sons (sons s + Z.of_nat (length es))
       (set_edges (take (Z.to_nat (sons s)) (edges s) ++ es
                   ++ drop (Z.to_nat (sons s) + length es) (edges s)) s),
     log).
Proof.
  induction es as [|e es IH]; intros s log Hwf Hfit.
  - cbn. rewrite Z.add_0_r, Nat.add_0_r, take_drop. now destruct s.
  - pose proof Hwf as [Hsons Hlen]. cbn [length] in Hfit.
    cbn [offer]. rewrite (proj2 (Z.ltb_lt _ _)) by lia.
    rewrite IH; [ | apply wf_with_edge; [exact Hwf | lia] | cbn; lia].
    unfold with_edge. simpl_state. f_equal.
    unfold set_sons, set_edges. simpl_state. f_equal; [cbn [length]; lia | ].
    replace (Z.to_nat (sons s + 1)) with (S (Z.to_nat (sons s))) by lia.
    assert (Z.to_nat (sons s) < length (edges s))%nat as Hlt by lia.
    rewrite (take_S_r _ _ e) by now apply list_lookup_insert_eq.
    rewrite take_insert_ge by lia.
    rewrite drop_insert_lt by lia.
    rewrite <- app_assoc. cbn [length app]. do 3 f_equal.
    f_equal. lia.
Qed.

(** On a full node every edge is refused with a line of the log. *)
Lemma offer_full es : forall s log,
  MAX_SONS <= sons s ->
  offer es s log = (s, log ++ replicate (length es) (too_many_sons s)).
Proof.
  induction es as [|e es IH]; intros s log Hfull.
  - cbn. now rewrite app_nil_r.
  - cbn [offer]. rewrite (proj2 (Z.ltb_ge _ _)) by lia.
    rewrite IH by exact Hfull. cbn [length replicate].
    now rewrite <- app_assoc.
Qed.

(** *** The loop of [generate_moves] *)

Lemma generate_moves_step_illegal moveCount m v :
  pos_legal (pos v) m = false ->
  generate_moves_step moveCount m v = Returned moveCount v.
Proof. intros Hm. unfold generate_moves_step. run_monad. now rewrite Hm. Qed.

(** One legal move: [stack[ply]] gets the count and the move, the position
    is evaluated after the move, and the edge is offered to the node. *)
Lemma generate_moves_step_legal `{!ExactUndo} moveCount m v a s e0 e1 :
  pos_legal (pos v) m = true -> room_for 1 v ->
  stackBuffer v !! stack_index v = Some e0 ->
  stackBuffer v !! S (stack_index v) = Some e1 ->
  current_node v = Returned (Some a) v -> store v !! a = Some s ->
  wf_node s ->
  NDEBUG = true \/ (sons s = moveCount /\ sons s < MAX_SONS) ->
  let e := new_edge m (value_to_reward
             (minimax_value (pos_do_move (pos v) m) e1 DEPTH_ZERO)) in
  generate_moves_step moveCount m v
  = Returned (moveCount + 1)
      (set_cerr (snd (offer [e] s (cerr v)))
         (set_store (<[a := fst (offer [e] s (cerr v))]> (store v))
            (set_stackBuffer
               (<[stack_index v :=
                    move_entry v m (set_ss_moveCount (moveCount + 1) e0)]>
                  (stackBuffer v)) v))).
Proof.
  intros Hm Hroom He0 He1 Hnode Hs Hwf Hbuild. cbn zeta.
  pose proof Hroom as (Hply & Hlo & Hhi & Hstates).
  pose proof (lookup_lt_Some _ _ _ He0) as Hk0.
  apply wp_returns. unfold generate_moves_step.
  apply wp_bind, wp_get. rewrite Hm.
  apply wp_bind, wp_stack_write. rewrite slot_in_range by lia.
  fold (stack_index v). rewrite He0.
  apply wp_bind. eapply wp_of_returns.
  { apply (calculate_prior_state m (moveCount + 1) _
             (set_ss_moveCount (moveCount + 1) e0) e1).
    - exact Hm.
    - unfold room_for. simpl_state. rewrite length_insert. lia.
    - unfold stack_index. simpl_state. now apply list_lookup_insert_eq.
    - unfold stack_index. simpl_state.
      rewrite list_lookup_insert_ne by lia. exact He1. }
  unfold stack_index at 1. simpl_state. fold (stack_index v).
  rewrite list_insert_insert_eq.
  apply wp_bind. eapply wp_of_returns.
  { eapply current_node_frame; [ | | exact Hnode]; reflexivity. }
  apply wp_bind. cbn [offer fst snd].
  destruct (sons s <? MAX_SONS) eqn:Hfull.
  - apply Z.ltb_lt in Hfull. eapply wp_of_returns.
    { apply (add_prior_to_node_stores a s); simpl_state;
        [exact Hs | exact Hwf | exact Hfull | ].
      destruct Hbuild as [Hn | [Hn _]]; [now left | right; lia]. }
    apply wp_ret. split; [reflexivity | ].
    simpl_state. unfold move_entry. simpl_state. now destruct v.
  - apply Z.ltb_ge in Hfull.
    destruct Hbuild as [Hndebug | [_ Hlt]]; [ | lia].
    eapply wp_of_returns.
    { apply (add_prior_to_node_logs a s); simpl_state;
        [exact Hndebug | exact Hs | exact Hfull]. }
    apply wp_ret. split; [reflexivity | ].
    simpl_state. rewrite (insert_id _ _ _ Hs).
    unfold move_entry. simpl_state. now destruct v.
Qed.

(** The loop, from a state [v] that differs from the state [u] at the call
    by the stack, the tree and the log only: every legal move of [mp] is
    offered to the node, in the order of [mp]. *)
Lemma generate_moves_loop `{!ExactUndo} u a e1 (mp : list Move) :
  forall moveCount v s e0,
  v = set_cerr (cerr v)
        (set_store (store v) (set_stackBuffer (stackBuffer v) u)) ->
  length (stackBuffer v) = length (stackBuffer u) ->
  stackBuffer v !! stack_index u = Some e0 ->
  stackBuffer v !! S (stack_index u) = Some e1 ->
  room_for 1 u -> current_node u = Returned (Some a) u ->
  store v !! a = Some s -> wf_node s ->
  NDEBUG = true \/
    (sons s = moveCount /\
     sons s + Z.of_nat (length (offered_edges u e1 mp)) <= MAX_SONS) ->
  exists v',
    foldM generate_moves_step mp moveCount v
    = Returned (moveCount + Z.of_nat (length (offered_edges u e1 mp))) v' /\
    v' = set_cerr (snd (offer (offered_edges u e1 mp) s (cerr v)))
           (set_store
              (<[a := fst (offer (offered_edges u e1 mp) s (cerr v))]>
                 (store v))
              (set_stackBuffer (stackBuffer v') u)) /\
    length (stackBuffer v') = length (stackBuffer u) /\
    forall j, j <> stack_index u -> stackBuffer v' !! j = stackBuffer v !! j.
Proof.
  induction mp as [|m mp IH];
    intros moveCount v s e0 Hv Hlen He0 He1 Hroom Hnode Hs Hwf Hbuild.
  - exists v. cbn. rewrite Z.add_0_r, (insert_id _ _ _ Hs).
    split; [reflexivity | split; [exact Hv | split; [exact Hlen | auto]]].
  - assert (pos v = pos u) as Hpos by (rewrite Hv; reflexivity).
    assert (ply v = ply u) as Hply by (rewrite Hv; reflexivity).
    assert (nodesBuffer v = nodesBuffer u) as Hnodes
      by (rewrite Hv; reflexivity).
    assert (stack_index v = stack_index u) as Hk
      by (unfold stack_index; now rewrite Hply).
    revert Hbuild. rewrite foldM_cons, offered_edges_cons.
    destruct (pos_legal (pos u) m) eqn:Hm; intros Hbuild.
    + rewrite (generate_moves_step_legal moveCount m v a s e0 e1).
      * rewrite Hpos, Hk.
        set (e := new_edge m _).
        set (stk := <[stack_index u := _]> (stackBuffer v)).
        cbn [length] in Hbuild |- *.
        pose proof (lookup_lt_Some _ _ _ He0) as Hk0.
        destruct (IH (moveCount + 1)
                    (set_cerr (snd (offer [e] s (cerr v)))
                       (set_store (<[a := fst (offer [e] s (cerr v))]>
                                     (store v))
                          (set_stackBuffer stk v)))
                    (fst (offer [e] s (cerr v)))
                    (move_entry v m (set_ss_moveCount (moveCount + 1) e0)))
          as (v' & Hrun & Hv' & Hlen' & Hother).
        -- simpl_state. rewrite Hv. now destruct u.
        -- simpl_state. subst stk. now rewrite length_insert.
        -- simpl_state. subst stk. now apply list_lookup_insert_eq.
        -- simpl_state. subst stk.
           rewrite list_lookup_insert_ne by lia. exact He1.
        -- exact Hroom.
        -- exact Hnode.
        -- simpl_state. apply lookup_insert_eq.
        -- cbn [offer fst]. destruct (sons s <? MAX_SONS) eqn:Hfull;
             [ | exact Hwf].
           apply wf_with_edge; [exact Hwf | now apply Z.ltb_lt].
        -- destruct Hbuild as [Hn | [Hn Hfit]]; [now left | right].
           cbn [offer fst].
           rewrite (proj2 (Z.ltb_lt (sons s) MAX_SONS)) by lia.
           cbn. lia.
        -- exists v'. split; [ | split; [ | split]].
           ++ rewrite Hrun. f_equal. lia.
           ++ rewrite Hv' at 1. simpl_state.
              rewrite insert_insert_eq.
              change (e :: offered_edges u e1 mp)
                with ([e] ++ offered_edges u e1 mp).
              rewrite offer_app. reflexivity.
           ++ exact Hlen'.
           ++ intros j Hj. rewrite Hother by exact Hj. simpl_state.
              subst stk. now apply list_lookup_insert_ne.
      * now rewrite Hpos.
      * unfold room_for in *. rewrite Hply, Hlen. exact Hroom.
      * now rewrite Hk.
      * now rewrite Hk.
      * eapply current_node_frame; [ | | exact Hnode]; assumption.
      * exact Hs.
      * exact Hwf.
      * destruct Hbuild as [Hn | [Hn Hfit]]; [now left | right].
        cbn [length] in Hfit. lia.
    + rewrite generate_moves_step_illegal by now rewrite Hpos.
      now apply (IH moveCount v s e0).
Qed.

(** *** The blocks after the loop *)

Lemma stack_read_returns i u e :
  0 <= STACK_BASE + i < Z.of_nat (length (stackBuffer u)) ->
  stackBuffer u !! Z.to_nat (STACK_BASE + i) = Some e ->
  stack_read i u = Returned e u.
Proof.
  intros Hi He. unfold stack_read. rewrite slot_in_range by exact Hi.
  cbn [mbind option_bind]. now rewrite He.
Qed.

Lemma sort_moves_by_prior_returns v a s :
  current_node v = Returned (Some a) v -> store v !! a = Some s ->
  sons s <= Z.of_nat (length (edges s)) ->
  sort_moves_by_prior v
  = Returned tt
      (set_store
         (<[a := if 0 <? sons s
                 then set_edges
                        (std_sort ComparePrior
                           (take (Z.to_nat (sons s)) (edges s))
                         ++ drop (Z.to_nat (sons s)) (edges s)) s
                 else s]> (store v)) v).
Proof.
  intros Hnode Hs Hlen. apply wp_returns.
  unfold sort_moves_by_prior, number_of_sons, get_list_of_edges, get_infos.
  apply wp_bind. eapply wp_of_returns; [exact Hnode | ].
  apply wp_bind, wp_bind, wp_load. cbn [mbind option_bind]. rewrite Hs.
  apply wp_ret. destruct (0 <? sons s) eqn:Hn.
  - apply wp_bind. eapply wp_of_returns; [exact Hnode | ].
    apply wp_bind, wp_bind, wp_load. cbn [mbind option_bind]. rewrite Hs.
    apply wp_ret. rewrite decide_True by exact Hlen.
    apply wp_bind, wp_load. cbn [mbind option_bind]. rewrite Hs.
    eapply wp_save; [exact Hs | ]. split; reflexivity.
  - apply wp_ret. split; [reflexivity | ].
    rewrite (insert_id _ _ _ Hs). now destruct v.
Qed.

Lemma mark_expanded_returns v a s :
  current_node v = Returned (Some a) v -> store v !! a = Some s ->
  mark_expanded v
  = Returned tt
      (set_store
         (<[a := set_expandedSons 0 (set_node_visits 1 s)]> (store v)) v).
Proof.
  intros Hnode Hs. apply wp_returns. unfold mark_expanded, get_infos.
  apply wp_bind. eapply wp_of_returns; [exact Hnode | ].
  apply wp_bind, wp_load. cbn [mbind option_bind]. rewrite Hs.
  apply wp_bind. eapply wp_save; [exact Hs | ].
  apply wp_bind, wp_load. cbn [mbind option_bind]. simpl_state.
  rewrite lookup_insert_eq.
  eapply wp_save; [simpl_state; apply lookup_insert_eq | ].
  split; [reflexivity | ]. simpl_state. rewrite insert_insert_eq.
  now destruct v.
Qed.

(** *** The whole expansion *)

(** The expansion of a node when no assertion stops it: the legal moves of
    the picker are offered in its order, then the node is sorted and
    marked; apart from the node and the log only the stack changes, and
    of it only [stack[ply]]. *)
Lemma generate_moves_state `{!ExactUndo} u a s prev1 prev2 prev4 cur next :
  expansion_frame u prev1 prev2 prev4 cur next ->
  current_node u = Returned (Some a) u -> store u !! a = Some s ->
  wf_node s ->
  let es := offered_edges u next (picked_moves u prev1 prev2 prev4 cur) in
  NDEBUG = true \/ (sons s = 0 /\ Z.of_nat (length es) <= MAX_SONS) ->
  exists u',
    generate_moves u = Returned tt u' /\
    u' = set_cerr (snd (offer es s (cerr u)))
           (set_store
              (<[a := sorted_and_marked (fst (offer es s (cerr u)))]>
                 (store u))
              (set_stackBuffer (stackBuffer u') u)) /\
    length (stackBuffer u') = length (stackBuffer u) /\
    forall j, j <> stack_index u -> stackBuffer u' !! j = stackBuffer u !! j.
Proof.
  intros (Hbase & Hroom & Hp1 & Hp2 & Hp4 & Hcur & Hnext) Hnode Hs Hwf es
    Hbuild.
  pose proof Hroom as (Hply & Hlo & Hhi & Hstates).
  destruct (generate_moves_loop u a next (picked_moves u prev1 prev2 prev4 cur)
              0 u s cur) as (v & Hrun & Hv & Hlen & Hother);
    [now destruct u | reflexivity | exact Hcur | exact Hnext | exact Hroom
    | exact Hnode | exact Hs | exact Hwf | | ].
  { destruct Hbuild as [Hn | [Hn Hfit]]; [now left | right].
    fold es. lia. }
  fold es in Hrun, Hv. set (s1 := fst (offer es s (cerr u))) in *.
  assert (wf_node s1) as Hwf1.
  { subst s1. clear -Hwf. revert s Hwf. generalize (cerr u).
    induction es as [|e es' IH]; intros log s Hwf; [exact Hwf | ].
    cbn [offer]. destruct (sons s <? MAX_SONS) eqn:Hfull; [ | now apply IH].
    apply IH, wf_with_edge; [exact Hwf | now apply Z.ltb_lt]. }
  assert (current_node v = Returned (Some a) v) as Hnode'.
  { eapply current_node_frame; [ | | exact Hnode]; rewrite Hv; reflexivity. }
  assert (store v !! a = Some s1) as Hs1.
  { rewrite Hv. simpl_state. apply lookup_insert_eq. }
  eexists. split.
  - unfold generate_moves. run_monad.
    rewrite (stack_read_returns _ _ prev1) by (exact Hp1 || lia).
    rewrite (stack_read_returns _ _ prev2) by (exact Hp2 || lia).
    rewrite (stack_read_returns _ _ prev4) by (exact Hp4 || lia).
    rewrite (stack_read_returns _ _ cur) by (exact Hcur || lia).
    fold (picked_moves u prev1 prev2 prev4 cur). rewrite Hrun.
    rewrite (sort_moves_by_prior_returns v a s1 Hnode' Hs1)
      by (destruct Hwf1; lia).
    match goal with
    | |- context [mark_expanded (set_store (<[a := ?s2]> _) _)] =>
        rewrite (mark_expanded_returns _ a s2)
    end; [reflexivity | | simpl_state; apply lookup_insert_eq].
    eapply current_node_frame; [ | | exact Hnode']; reflexivity.
  - simpl_state. rewrite insert_insert_eq. split; [ | split; assumption].
    unfold sorted_and_marked.
    destruct (0 <? sons s1); rewrite Hv; simpl_state;
      rewrite !insert_insert_eq; now destruct u.
Qed.

(** C5, amended.  When the current node has room for the edges generated
    (and is fresh, or the build has no assertions), [generate_moves]
    returns and the edges in use of the node are those it held followed
    by one edge for each legal move the picker generated, rearranged by
    [std::sort]: the same edges, sorted by descending prior when the
    priors are numbers (no edge has a prior greater than that of an edge
    before it).  The node counts one visit and no expanded son.  The
    order of edges of equal prior is what [std::sort] makes of it, which
    need not be the order of generation.  In particular three edges
    generated with the priors 0.9, 0.1 and 0.5 end up in the order 0.9,
    0.5, 0.1. *)
Theorem generate_moves_sorts_the_generated_edges
    `{!StdSortSpec} `{!ExactUndo} (u : UCT) (a : positive) (s : UCTInfo)
    (prev1 prev2 prev4 cur next : Search.Stack) :
  expansion_frame u prev1 prev2 prev4 cur next ->
  current_node u = Returned (Some a) u -> store u !! a = Some s ->
  wf_node s ->
  let es := offered_edges u next (picked_moves u prev1 prev2 prev4 cur) in
  sons s + Z.of_nat (length es) <= MAX_SONS ->
  NDEBUG = true \/ sons s = 0 ->
  exists u' s',
    generate_moves u = Returned tt u' /\ store u' !! a = Some s' /\
    live_edges s' = std_sort ComparePrior (live_edges s ++ es) /\
    Permutation (live_edges s') (live_edges s ++ es) /\
    (Forall (fun e => Double.is_number (prior e)) (live_edges s ++ es) ->
     sorted_by ComparePrior (live_edges s')) /\
    node_visits s' = 1 /\ expandedSons s' = 0 /\
    forall e1 e2 e3, live_edges s ++ es = [e1; e2; e3] ->
      prior e1 = 0.9%float -> prior e2 = 0.1%float -> prior e3 = 0.5%float ->
      live_edges s' = [e1; e3; e2].
Proof.
  intros Hframe Hnode Hs Hwf es Hfit Hbuild.
  pose proof Hwf as [Hsons Hedges].
  destruct (generate_moves_state u a s prev1 prev2 prev4 cur next
              Hframe Hnode Hs Hwf) as (u' & Hrun & Hu' & _).
  { destruct Hbuild as [Hn | Hfresh]; [now left | right]. fold es. lia. }
  fold es in Hu'. rewrite offer_fits in Hu' by (exact Hwf || lia).
  cbn [fst snd] in Hu'.
  set (n := Z.to_nat (sons s)) in *.
  set (l1 := take n (edges s) ++ es ++ drop (n + length es) (edges s)) in *.
  set (s1 := set_sons (sons s + Z.of_nat (length es)) (set_edges l1 s)) in *.
  assert (length (take n (edges s)) = n) as Hn
    by (rewrite length_take; lia).
  assert (take (Z.to_nat (sons s1)) (edges s1) = live_edges s ++ es) as Hin.
  { unfold s1, l1, live_edges. simpl_state. fold n.
    replace (Z.to_nat (sons s + Z.of_nat (length es)))
      with (length (take n (edges s) ++ es))
      by (rewrite length_app, Hn; lia).
    now rewrite app_assoc, take_app_length. }
  assert (Z.to_nat (sons s1) = length (live_edges s ++ es)) as HN.
  { unfold s1, live_edges. simpl_state. fold n. rewrite length_app, Hn. lia. }
  assert (live_edges (sorted_and_marked s1)
          = std_sort ComparePrior (live_edges s ++ es)) as Hlive.
  { unfold live_edges at 1, sorted_and_marked. simpl_state.
    destruct (0 <? sons s1) eqn:Hpos.
    - rewrite Hin, HN.
      rewrite <- (Permutation_length
                    (std_sort_perm ComparePrior (live_edges s ++ es))) at 1.
      apply take_app_length.
    - apply Z.ltb_ge in Hpos.
      assert (live_edges s ++ es = []) as ->
        by (apply length_zero_iff_nil; lia).
      replace (Z.to_nat (sons s1)) with 0%nat by lia. rewrite take_0.
      symmetry.
      exact (proj1 (Permutation_nil_r _) (std_sort_perm ComparePrior [])). }
  pose proof (std_sort_perm ComparePrior (live_edges s ++ es)) as Hperm.
  exists u', (sorted_and_marked s1).
  split; [exact Hrun | ].
  split; [rewrite Hu'; simpl_state; apply lookup_insert_eq | ].
  split; [exact Hlive | ].
  split; [now rewrite Hlive | ].
  split; [intros Hnum; rewrite Hlive; now apply std_sort_sorted | ].
  split; [reflexivity | split; [reflexivity | ]].
  intros e1 e2 e3 Hgen Hp1 Hp2 Hp3.
  apply sorted_three_priors;
    [ | now rewrite Hlive, Hperm, Hgen | assumption..].
  rewrite Hlive. apply std_sort_sorted. rewrite Hgen.
  repeat constructor; unfold Double.is_number;
    rewrite ?Hp1, ?Hp2, ?Hp3; reflexivity.
Qed.

(** A fresh node that has room for every legal move of the picker. *)
Lemma generate_moves_fresh `{!StdSortSpec} `{!ExactUndo} u a s
    prev1 prev2 prev4 cur next :
  expansion_frame u prev1 prev2 prev4 cur next ->
  current_node u = Returned (Some a) u -> store u !! a = Some s ->
  wf_node s -> sons s = 0 ->
  let es := offered_edges u next (picked_moves u prev1 prev2 prev4 cur) in
  Z.of_nat (length es) <= MAX_SONS ->
  exists u',
    generate_moves u = Returned tt u' /\
    u' = set_store
           (<[a := mkUCTInfo 1 (Z.of_nat (length es)) 0 (lastMove s)
                     (std_sort ComparePrior es
                      ++ drop (length es) (edges s))]> (store u))
           (set_stackBuffer (stackBuffer u') u) /\
    length (stackBuffer u') = length (stackBuffer u) /\
    forall j, j <> stack_index u -> stackBuffer u' !! j = stackBuffer u !! j.
Proof.
  intros Hframe Hnode Hs Hwf Hfresh es Hfit.
  destruct (generate_moves_state u a s prev1 prev2 prev4 cur next
              Hframe Hnode Hs Hwf) as (u' & Hrun & Hu' & Hrest);
    [right; split; [exact Hfresh | exact Hfit] | ].
  fold es in Hu'. exists u'. split; [exact Hrun | split; [ | exact Hrest]].
  rewrite Hu' at 1. rewrite offer_fits by (exact Hwf || lia).
  cbn [fst snd]. rewrite Hfresh. unfold sorted_and_marked. simpl_state.
  rewrite Z.add_0_l, Z2Nat.inj_0, Nat.add_0_l, take_0, app_nil_l.
  rewrite Nat2Z.id, take_app_length, drop_app_length.
  destruct es as [|e es'].
  - cbn [length Z.of_nat Z.ltb Z.compare app drop].
    rewrite (proj1 (Permutation_nil_r _) (std_sort_perm ComparePrior [])).
    now destruct u.
  - replace (0 <? Z.of_nat (length (e :: es'))) with true
      by (symmetry; apply Z.ltb_lt; cbn [length]; lia).
    now destruct u.
Qed.

(** X10.  Expanding a node leaves the search where it was: when the
    current node is fresh and has room for the legal moves of the picker,
    [generate_moves] returns, in every build, with the position, the ply,
    the node table and the log as before; of the stack only [stack[ply]]
    may differ, and of the tree only the current node. *)
Theorem generate_moves_restores_the_search `{!StdSortSpec} `{!ExactUndo}
    (u : UCT) (a : positive) (s : UCTInfo)
    (prev1 prev2 prev4 cur next : Search.Stack) :
  expansion_frame u prev1 prev2 prev4 cur next ->
  current_node u = Returned (Some a) u -> store u !! a = Some s ->
  wf_node s -> sons s = 0 ->
  Z.of_nat (length (offered_edges u next
                      (picked_moves u prev1 prev2 prev4 cur))) <= MAX_SONS ->
  exists u',
    generate_moves u = Returned tt u' /\
    pos u' = pos u /\ ply u' = ply u /\ nodesBuffer u' = nodesBuffer u /\
    cerr u' = cerr u /\
    (forall j, j <> stack_index u ->
       stackBuffer u' !! j = stackBuffer u !! j) /\
    (forall b, b <> a -> store u' !! b = store u !! b).
Proof.
  intros Hframe Hnode Hs Hwf Hfresh Hfit.
  destruct (generate_moves_fresh u a s prev1 prev2 prev4 cur next
              Hframe Hnode Hs Hwf Hfresh Hfit)
    as (u' & Hrun & Hu' & _ & Hother).
  exists u'. split; [exact Hrun | ].
  repeat split; try (rewrite Hu'; reflexivity); [exact Hother | ].
  intros b Hb. rewrite Hu'. simpl_state. now apply lookup_insert_ne.
Qed.

(** X11.  After that expansion the current node holds one edge for each
    legal move the picker yielded, and no other: the moves of its edges
    in use are those moves in some order, each edge is unvisited and has
    the reward of the position after its move as prior; the edges are the
    offered ones as [std::sort] arranges them, the son count is their
    number, and the node counts one visit and no expanded son. *)
Theorem generate_moves_fills_the_node `{!StdSortSpec} `{!ExactUndo}
    (u : UCT) (a : positive) (s : UCTInfo)
    (prev1 prev2 prev4 cur next : Search.Stack) :
  expansion_frame u prev1 prev2 prev4 cur next ->
  current_node u = Returned (Some a) u -> store u !! a = Some s ->
  wf_node s -> sons s = 0 ->
  let mp := picked_moves u prev1 prev2 prev4 cur in
  let es := offered_edges u next mp in
  Z.of_nat (length es) <= MAX_SONS ->
  exists u' s',
    generate_moves u = Returned tt u' /\ store u' !! a = Some s' /\
    s' = mkUCTInfo 1 (Z.of_nat (length es)) 0 (lastMove s)
           (std_sort ComparePrior es ++ drop (length es) (edges s)) /\
    live_edges s' = std_sort ComparePrior es /\
    Permutation (move <$> live_edges s') (List.filter (pos_legal (pos u)) mp) /\
    wf_node s'.
Proof.
  intros Hframe Hnode Hs Hwf Hfresh mp es Hfit.
  destruct (generate_moves_fresh u a s prev1 prev2 prev4 cur next
              Hframe Hnode Hs Hwf Hfresh Hfit)
    as (u' & Hrun & Hu' & _ & _).
  fold mp in Hu'. fold es in Hu'.
  pose proof (std_sort_perm ComparePrior es) as Hperm.
  pose proof (Permutation_length Hperm) as Hlen.
  assert (take (length es) (std_sort ComparePrior es
                            ++ drop (length es) (edges s))
          = std_sort ComparePrior es) as Hlive.
  { rewrite <- Hlen. apply take_app_length. }
  eexists u', _. split; [exact Hrun | ].
  split; [rewrite Hu'; simpl_state; apply lookup_insert_eq | ].
  split; [reflexivity | ].
  unfold live_edges. simpl_state. rewrite Nat2Z.id, Hlive.
  split; [reflexivity | split].
  - rewrite Hperm. subst es. unfold offered_edges.
    generalize (List.filter (pos_legal (pos u)) mp). intros l.
    induction l as [|m l IH]; simpl; [reflexivity | now constructor].
  - destruct Hwf as [_ Hedges]. split; simpl_state; [lia | ].
    rewrite length_app, length_drop, <- Hlen. lia.
Qed.

(** *** More legal moves than a node can hold *)

(** A fresh node takes the first [MAX_SONS] edges offered and refuses the
    others. *)
Lemma offer_overflow es s log :
  wf_node s -> sons s = 0 -> MAX_SONS < Z.of_nat (length es) ->
  offer es s log
  = (set_sons MAX_SONS (set_edges (take (Z.to_nat MAX_SONS) es) s),
     log ++ replicate (length es - Z.to_nat MAX_SONS)
              (too_many_sons (set_sons MAX_SONS s))).
Proof.
  intros Hwf Hfresh Hover. pose proof Hwf as [Hsons Hlen].
  rewrite <- (take_drop (Z.to_nat MAX_SONS) es) at 1.
  assert (length (take (Z.to_nat MAX_SONS) es) = Z.to_nat MAX_SONS) as Htake
    by (rewrite length_take; lia).
  rewrite offer_app.
  rewrite (offer_fits (take (Z.to_nat MAX_SONS) es) s log)
    by (exact Hwf || lia).
  cbn [fst snd]. rewrite offer_full by (simpl_state; lia).
  rewrite length_drop, Htake, Hfresh, Z.add_0_l, Z2Nat.id by lia.
  rewrite Z2Nat.inj_0, take_0, Nat.add_0_l, app_nil_l.
  rewrite drop_ge, app_nil_r by lia.
  reflexivity.
Qed.

(** X12.  In a build without assertions, a fresh node offered more legal
    moves than it has entries keeps the first [MAX_SONS] of them, sorted,
    and the expansion logs one line for each of the others and returns:
    the moves beyond the capacity are left out of the tree. *)
Theorem generate_moves_drops_moves_beyond_capacity
    `{!StdSortSpec} `{!ExactUndo} (u : UCT) (a : positive) (s : UCTInfo)
    (prev1 prev2 prev4 cur next : Search.Stack) :
  NDEBUG = true ->
  expansion_frame u prev1 prev2 prev4 cur next ->
  current_node u = Returned (Some a) u -> store u !! a = Some s ->
  wf_node s -> sons s = 0 ->
  let es := offered_edges u next (picked_moves u prev1 prev2 prev4 cur) in
  MAX_SONS < Z.of_nat (length es) ->
  exists u',
    generate_moves u = Returned tt u' /\
    store u' = <[a := mkUCTInfo 1 MAX_SONS 0 (lastMove s)
                        (std_sort ComparePrior
                           (take (Z.to_nat MAX_SONS) es))]> (store u) /\
    cerr u' = cerr u
              ++ replicate (length es - Z.to_nat MAX_SONS)
                   ("ERROR : too many sons (" +:+ pretty MAX_SONS
                    +:+ ") in add_prior_to_node()") /\
    pos u' = pos u /\ ply u' = ply u.
Proof.
  intros Hndebug Hframe Hnode Hs Hwf Hfresh es Hover.
  pose proof Hwf as [Hsons Hlen].
  destruct (generate_moves_state u a s prev1 prev2 prev4 cur next
              Hframe Hnode Hs Hwf) as (u' & Hrun & Hu' & _);
    [now left | ].
  fold es in Hu'. rewrite (offer_overflow es s _ Hwf Hfresh Hover) in Hu'.
  cbn [fst snd] in Hu'.
  assert (length (take (Z.to_nat MAX_SONS) es) = Z.to_nat MAX_SONS) as Htake
    by (rewrite length_take; lia).
  exists u'. split; [exact Hrun | ].
  repeat split; try (rewrite Hu'; reflexivity).
  rewrite Hu'. simpl_state. unfold sorted_and_marked. simpl_state.
  destruct (0 <? MAX_SONS) eqn:Hpos.
  - rewrite (take_ge (take (Z.to_nat MAX_SONS) es)) by lia.
    rewrite (drop_ge (take (Z.to_nat MAX_SONS) es)) by lia.
    now rewrite app_nil_r.
  - apply Z.ltb_ge in Hpos. replace (Z.to_nat MAX_SONS) with 0%nat by lia.
    rewrite take_0.
    now rewrite (proj1 (Permutation_nil_r _)
                   (std_sort_perm ComparePrior [])).
Qed.

(** The legal move that comes after [n] others. *)
Lemma offered_edges_split u next (mp : list Move) : forall n,
  (n < length (offered_edges u next mp))%nat ->
  exists mp1 m mp2,
    mp = mp1 ++ m :: mp2 /\ pos_legal (pos u) m = true /\
    offered_edges u next mp1 = take n (offered_edges u next mp).
Proof.
  induction mp as [|m mp IH]; intros n Hn; [cbn in Hn; lia | ].
  revert Hn. rewrite offered_edges_cons.
  destruct (pos_legal (pos u) m) eqn:Hm; intros Hn.
  - destruct n as [|n].
    + exists [], m, mp. now repeat split.
    + cbn [length] in Hn.
      destruct (IH n) as (mp1 & m' & mp2 & -> & Hm' & Htake); [lia | ].
      exists (m :: mp1), m', mp2. repeat split; [exact Hm' | ].
      rewrite offered_edges_cons, Hm, Htake. reflexivity.
  - destruct (IH n Hn) as (mp1 & m' & mp2 & -> & Hm' & Htake).
    exists (m :: mp1), m', mp2. repeat split; [exact Hm' | ].
    now rewrite offered_edges_cons, Hm.
Qed.

(** One legal move on a full node, in a build with assertions. *)
Lemma generate_moves_step_aborts `{!ExactUndo} moveCount m v a s e0 e1 :
  NDEBUG = false ->
  pos_legal (pos v) m = true -> room_for 1 v ->
  stackBuffer v !! stack_index v = Some e0 ->
  stackBuffer v !! S (stack_index v) = Some e1 ->
  current_node v = Returned (Some a) v -> store v !! a = Some s ->
  MAX_SONS <= sons s ->
  generate_moves_step moveCount m v
  = Aborted
      (set_stackBuffer
         (<[stack_index v :=
              move_entry v m (set_ss_moveCount (moveCount + 1) e0)]>
            (stackBuffer v)) v).
Proof.
  intros Hdebug Hm Hroom He0 He1 Hnode Hs Hfull.
  pose proof Hroom as (Hply & Hlo & Hhi & Hstates).
  pose proof (lookup_lt_Some _ _ _ He0) as Hk0.
  apply wp_aborts. unfold generate_moves_step.
  apply wp_bind, wp_get. rewrite Hm.
  apply wp_bind, wp_stack_write. rewrite slot_in_range by lia.
  fold (stack_index v). rewrite He0.
  apply wp_bind. eapply wp_of_returns.
  { apply (calculate_prior_state m (moveCount + 1) _
             (set_ss_moveCount (moveCount + 1) e0) e1).
    - exact Hm.
    - unfold room_for. simpl_state. rewrite length_insert. lia.
    - unfold stack_index. simpl_state. now apply list_lookup_insert_eq.
    - unfold stack_index. simpl_state.
      rewrite list_lookup_insert_ne by lia. exact He1. }
  unfold stack_index at 1. simpl_state. fold (stack_index v).
  rewrite list_insert_insert_eq.
  apply wp_bind. eapply wp_of_returns.
  { eapply current_node_frame; [ | | exact Hnode]; reflexivity. }
  apply wp_bind. unfold wp.
  rewrite (add_prior_to_full_node_aborts a s) by assumption.
  unfold move_entry. simpl_state. reflexivity.
Qed.

(** X13.  In a build with assertions, the expansion of a fresh node with
    more legal moves than entries stops the program: the node then holds
    the first [MAX_SONS] edges offered, not yet sorted and not marked as
    expanded, nothing was logged, and the position and the ply are those
    of the call. *)
Theorem generate_moves_aborts_beyond_capacity `{!ExactUndo}
    (u : UCT) (a : positive) (s : UCTInfo)
    (prev1 prev2 prev4 cur next : Search.Stack) :
  NDEBUG = false ->
  expansion_frame u prev1 prev2 prev4 cur next ->
  current_node u = Returned (Some a) u -> store u !! a = Some s ->
  wf_node s -> sons s = 0 ->
  let es := offered_edges u next (picked_moves u prev1 prev2 prev4 cur) in
  MAX_SONS < Z.of_nat (length es) ->
  exists u',
    generate_moves u = Aborted u' /\
    store u' = <[a := set_sons MAX_SONS
                        (set_edges (take (Z.to_nat MAX_SONS) es) s)]>
                 (store u) /\
    cerr u' = cerr u /\ pos u' = pos u /\ ply u' = ply u.
Proof.
  intros Hdebug Hframe Hnode Hs Hwf Hfresh es Hover.
  pose proof Hframe as (Hbase & Hroom & Hp1 & Hp2 & Hp4 & Hcur & Hnext).
  pose proof Hroom as (Hply & Hlo & Hhi & Hstates).
  pose proof Hwf as [Hsons Hlen].
  destruct (offered_edges_split u next
              (picked_moves u prev1 prev2 prev4 cur) (Z.to_nat MAX_SONS))
    as (mp1 & m & mp2 & Hmp & Hm & Htake); [fold es; lia | ].
  fold es in Htake.
  assert (length (offered_edges u next mp1) = Z.to_nat MAX_SONS) as Hlen1
    by (rewrite Htake, length_take; lia).
  destruct (generate_moves_loop u a next mp1 0 u s cur)
    as (v & Hrun & Hv & Hlenv & Hother);
    [now destruct u | reflexivity | exact Hcur | exact Hnext | exact Hroom
    | exact Hnode | exact Hs | exact Hwf | right; lia | ].
  rewrite offer_fits in Hv by (exact Hwf || lia). cbn [fst snd] in Hv.
  rewrite Hfresh, Z.add_0_l, Z2Nat.inj_0, take_0, Nat.add_0_l, app_nil_l,
    Hlen1, Z2Nat.id, drop_ge, app_nil_r, Htake in Hv by lia.
  assert (pos v = pos u) as Hposv by (rewrite Hv; reflexivity).
  assert (ply v = ply u) as Hplyv by (rewrite Hv; reflexivity).
  assert (stack_index v = stack_index u) as Hk
    by (unfold stack_index; now rewrite Hplyv).
  destruct (lookup_lt_is_Some_2 (stackBuffer v) (stack_index u))
    as [e0 He0]; [rewrite Hlenv; unfold stack_index; lia | ].
  eexists. split.
  - unfold generate_moves. run_monad.
    rewrite (stack_read_returns _ _ prev1) by (exact Hp1 || lia).
    rewrite (stack_read_returns _ _ prev2) by (exact Hp2 || lia).
    rewrite (stack_read_returns _ _ prev4) by (exact Hp4 || lia).
    rewrite (stack_read_returns _ _ cur) by (exact Hcur || lia).
    fold (picked_moves u prev1 prev2 prev4 cur).
    rewrite Hmp, foldM_app, Hrun, foldM_cons.
    rewrite (generate_moves_step_aborts _ m v a
               (set_sons MAX_SONS
                  (set_edges (take (Z.to_nat MAX_SONS) es) s))
               e0 next Hdebug);
      [reflexivity | now rewrite Hposv
      | unfold room_for in *; rewrite Hplyv, Hlenv; exact Hroom
      | now rewrite Hk
      | rewrite Hk, Hother by lia; exact Hnext
      | eapply current_node_frame; [ | | exact Hnode]; rewrite Hv; reflexivity
      | rewrite Hv; simpl_state; apply lookup_insert_eq
      | simpl_state; lia].
  - simpl_state. repeat split; rewrite Hv; reflexivity.
Qed.

End ExpansionFacts.

(** ** The selection of a move *)

Section SelectionFacts.

Context `{Header} `{Environment}.

(** A NaN is greater than nothing. *)
Lemma nan_is_not_greater x y : is_nan x = true -> Double.gt x y = false.
Proof.
  rewrite DoubleFacts.is_nan_spec. unfold Double.gt.
  rewrite FloatAxioms.ltb_spec. intros ->.
  unfold SFltb, SFcompare. now destruct (Prim2SF y) as [[]|[]| |[] ? ?].
Qed.

(** The scan keeps the initial pair or the score and the move of an edge
    it has seen, whose score is above the initial value. *)
Lemma best_move_scan_in_node father C (todo : list Edge) : forall seen acc,
  (acc = (bestValue_init, MOVE_NONE) \/
   exists e, e ∈ seen /\ acc = (UCB_formula father e C, move e) /\
     Double.gt (UCB_formula father e C) bestValue_init = true) ->
  let acc' := fold_left (best_move_step father C) todo acc in
  acc' = (bestValue_init, MOVE_NONE) \/
  exists e, e ∈ seen ++ todo /\ acc' = (UCB_formula father e C, move e) /\
    Double.gt (UCB_formula father e C) bestValue_init = true.
Proof.
  induction todo as [|x todo IH]; intros seen acc Hacc; cbn zeta.
  - now rewrite app_nil_r.
  - cbn [fold_left]. rewrite (cons_middle x seen todo), app_assoc.
    apply IH. unfold best_move_step.
    destruct (Double.gt (UCB_formula father x C) (fst acc)) eqn:Hgt.
    + right. exists x. split; [ | split; [reflexivity | ]].
      * apply elem_of_app. right. now apply list_elem_of_singleton.
      * destruct Hacc as [-> | (e & _ & -> & He)]; [exact Hgt | ].
        exact (DoubleFacts.gt_trans _ _ _ Hgt He).
    + destruct Hacc as [-> | (e & He & -> & Hgt')]; [now left | right].
      exists e. split; [ | now split].
      apply elem_of_app. now left.
Qed.

(** X14.  Whatever the scores are, NaN included, [best_move] changes
    nothing and returns [MOVE_NONE] or the move of an edge in use of the
    node whose score is above the initial best value -100000000.0: it
    never returns a move from outside the node, nor one of an edge whose
    score is a NaN. *)
Theorem best_move_stays_in_the_node (a : positive) (s : UCTInfo) (C : float)
    (u : UCT) :
  store u !! a = Some s -> sons s <= Z.of_nat (length (edges s)) ->
  exists m,
    best_move (Some a) C u = Returned m u /\
    (m = MOVE_NONE \/
     exists e, e ∈ live_edges s /\ m = move e /\
       Double.is_number (UCB_formula s e C) /\
       Double.gt (UCB_formula s e C) bestValue_init = true).
Proof.
  intros Hs Hsons. rewrite (best_move_returns a s C u Hs Hsons).
  eexists. split; [reflexivity | ].
  destruct (best_move_scan_in_node s C (live_edges s) []
              (bestValue_init, MOVE_NONE)) as [-> | (e & He & -> & Hgt)];
    [now left | now left | right].
  exists e. split; [exact He | split; [reflexivity | split; [ | exact Hgt]]].
  unfold Double.is_number.
  destruct (is_nan (UCB_formula s e C)) eqn:Hnan; [ | reflexivity].
  now rewrite (nan_is_not_greater _ _ Hnan) in Hgt.
Qed.

(** X15.  On a node whose edges in use are all as [add_prior_to_node]
    creates them (no visit, accumulated value 0.0), as after an expansion,
    every score is the NaN of 0.0/0 and [best_move] returns [MOVE_NONE],
    for every exploration constant: no move of the node is selected. *)
Theorem best_move_finds_no_unvisited_edge (a : positive) (s : UCTInfo)
    (C : float) (u : UCT) :
  store u !! a = Some s -> sons s <= Z.of_nat (length (edges s)) ->
  Forall (fun e => visits e = 0 /\ actionValue e = 0%float) (live_edges s) ->
  best_move (Some a) C u = Returned MOVE_NONE u.
Proof.
  intros Hs Hsons Hfresh. rewrite (best_move_returns a s C u Hs Hsons).
  do 2 f_equal.
  assert (forall l, Forall (fun e => visits e = 0 /\ actionValue e = 0%float) l ->
            fold_left (best_move_step s C) l (bestValue_init, MOVE_NONE)
            = (bestValue_init, MOVE_NONE)) as Hscan.
  { intros l Hl. induction Hl as [|e l [Hv Ha] _ IH]; [reflexivity | ].
    cbn [fold_left]. unfold best_move_step at 2.
    rewrite nan_is_not_greater; [exact IH | ].
    unfold UCB_formula. rewrite Hv, Ha. cbn [Double.of_int].
    apply DoubleFacts.nan_add, DoubleFacts.zero_div_zero. }
  now rewrite Hscan.
Qed.

End SelectionFacts.

(** ** Selection after expansion (C8) *)

Section SelectionAfterExpansion.

Context `{Header} `{Environment}.

(** The score of an edge as [add_prior_to_node] creates it is the NaN
    of 0.0/0. *)
Lemma UCB_formula_unvisited father e C :
  visits e = 0 -> actionValue e = 0%float ->
  is_nan (UCB_formula father e C) = true.
Proof.
  intros Hv Ha. unfold UCB_formula. rewrite Hv, Ha. cbn [Double.of_int].
  apply DoubleFacts.nan_add, DoubleFacts.zero_div_zero.
Qed.

(** The scan of [best_move] passes over such edges. *)
Lemma scan_of_unvisited_edges father C (l : list Edge) :
  Forall (fun e => visits e = 0 /\ actionValue e = 0%float) l ->
  fold_left (best_move_step father C) l (bestValue_init, MOVE_NONE)
  = (bestValue_init, MOVE_NONE).
Proof.
  intros Hl. induction Hl as [|e l [Hv Ha] _ IH]; [reflexivity | ].
  cbn [fold_left]. unfold best_move_step at 2.
  rewrite nan_is_not_greater; [exact IH | ].
  now apply UCB_formula_unvisited.
Qed.

Lemma offered_edges_unvisited u next mp :
  Forall (fun e => visits e = 0 /\ actionValue e = 0%float)
    (offered_edges u next mp).
Proof.
  unfold offered_edges. apply Forall_forall. intros e He.
  apply list_elem_of_fmap in He as (m & -> & _). now split.
Qed.

(** C8, as the code has it.  On the nodes the code builds, [best_move]
    does not return the move of an edge of maximum score: when
    [generate_moves] has expanded a fresh node with at least one legal
    move, every edge of the node is unvisited, its score is the NaN of
    0.0/0 (the defect of C1), no comparison [r > bestValue] succeeds and
    [best_move] returns [MOVE_NONE] for every exploration constant,
    although the node has edges. *)
Theorem best_move_of_an_expanded_node `{!StdSortSpec} `{!ExactUndo}
    (u : UCT) (a : positive) (s : UCTInfo)
    (prev1 prev2 prev4 cur next : Search.Stack) (C : float) :
  expansion_frame u prev1 prev2 prev4 cur next ->
  current_node u = Returned (Some a) u -> store u !! a = Some s ->
  wf_node s -> sons s = 0 ->
  let es := offered_edges u next (picked_moves u prev1 prev2 prev4 cur) in
  0 < Z.of_nat (length es) <= MAX_SONS ->
  exists u' s',
    generate_moves u = Returned tt u' /\ store u' !! a = Some s' /\
    0 < sons s' /\ live_edges s' <> [] /\
    (forall e, e ∈ live_edges s' -> is_nan (UCB_formula s' e C) = true) /\
    best_move (Some a) C u' = Returned MOVE_NONE u'.
Proof.
  intros Hframe Hnode Hs Hwf Hfresh es [Hsome Hfit].
  destruct (generate_moves_fresh u a s prev1 prev2 prev4 cur next
              Hframe Hnode Hs Hwf Hfresh Hfit)
    as (u' & Hrun & Hu' & _ & _).
  fold es in Hu'.
  pose proof (std_sort_perm ComparePrior es) as Hperm.
  pose proof (Permutation_length Hperm) as Hlen.
  set (s' := mkUCTInfo 1 (Z.of_nat (length es)) 0 (lastMove s)
               (std_sort ComparePrior es ++ drop (length es) (edges s)))
    in *.
  assert (live_edges s' = std_sort ComparePrior es) as Hlive.
  { unfold live_edges, s'. simpl_state. rewrite Nat2Z.id, <- Hlen.
    apply take_app_length. }
  assert (Forall (fun e => visits e = 0 /\ actionValue e = 0%float)
            (live_edges s')) as Hunvisited.
  { rewrite Hlive, Hperm. apply offered_edges_unvisited. }
  assert (store u' !! a = Some s') as Hs'
    by (rewrite Hu'; simpl_state; apply lookup_insert_eq).
  exists u', s'. split; [exact Hrun | split; [exact Hs' | ]].
  split; [exact Hsome | split; [ | split]].
  - intros Hnil. apply (f_equal length) in Hnil.
    rewrite Hlive, Hlen in Hnil. cbn in Hnil. lia.
  - intros e He. rewrite Forall_forall in Hunvisited.
    destruct (Hunvisited e He) as [Hv Ha].
    now apply UCB_formula_unvisited.
  - rewrite (best_move_returns a s' C u' Hs').
    + now rewrite scan_of_unvisited_edges.
    + unfold s'. simpl_state. destruct Hwf as [_ Hedges].
      rewrite length_app, length_drop, Hlen. lia.
Qed.

End SelectionAfterExpansion.

(** ** The further properties at inputs *)

Lemma demo_header_consistent b : @header_consistent (Demo.header b).
Proof. unfold header_consistent. cbn. lia. Qed.

Lemma demo_room sort b node :
  @room_for (Demo.header b) (Demo.environment sort) 1 (Demo.world sort node).
Proof. unfold room_for. cbn. lia. Qed.

Lemma demo_expansion_frame sort b node :
  @expansion_frame (Demo.header b) (Demo.environment sort)
    (Demo.world sort node)
    Search.zeroed Search.zeroed Search.zeroed Search.zeroed Search.zeroed.
Proof.
  unfold expansion_frame.
  split; [cbn; lia | split; [apply demo_room | ]].
  repeat split.
Qed.

Lemma narrow_expansion_frame sort b node :
  @expansion_frame (Demo.narrow_header b) (Demo.environment sort)
    (Demo.world sort node)
    Search.zeroed Search.zeroed Search.zeroed Search.zeroed Search.zeroed.
Proof.
  unfold expansion_frame.
  split; [cbn; lia | split; [unfold room_for; cbn; lia | ]].
  repeat split.
Qed.

Lemma wf_narrow_node b : @wf_node (Demo.narrow_header b) Demo.narrow_node.
Proof. split; cbn; lia. Qed.

Lemma precise_libm : @LibmSpec Demo.precise_environment.
Proof. split; intros; left; reflexivity. Qed.

(** C4 at an input: the value of three pawns, with the reference [exp]
    and [log] for those of the library. *)
Lemma reward_round_trip_witness :
  let r := @value_to_reward Demo.precise_environment 600 in
  Double.gt r 0.99 = false /\ Double.lt r 0.01 = false /\
  (@reward_to_value (Demo.header true) Demo.precise_environment r = 600 \/
   @reward_to_value (Demo.header true) Demo.precise_environment r = 599).
Proof.
  assert (Z.abs 600 <= 2000) as Hv by (cbn; lia).
  pose proof (@reward_round_trip (Demo.header true) Demo.precise_environment
                precise_libm 600 Hv) as (Hhigh & Hlow & Hback & _).
  split; [exact Hhigh | split; [exact Hlow | exact Hback]].
Defined.

(** The amended C5 at an input: the fresh node of the small world, in a
    build with assertions. *)
Lemma generate_moves_sorts_the_generated_edges_witness :
  let w := Demo.world Demo.keeping_sort Demo.fresh_node in
  exists u' s',
    @generate_moves (Demo.header false) (Demo.environment Demo.keeping_sort) w
    = Returned tt u' /\
    store u' !! 1%positive = Some s' /\
    sorted_by ComparePrior (live_edges s') /\
    node_visits s' = 1 /\ expandedSons s' = 0.
Proof.
  cbv zeta.
  assert (sons Demo.fresh_node
          + Z.of_nat (length
              (@offered_edges (Demo.header false)
                 (Demo.environment Demo.keeping_sort)
                 (Demo.world Demo.keeping_sort Demo.fresh_node) Search.zeroed
                 (@picked_moves (Demo.header false)
                    (Demo.environment Demo.keeping_sort)
                    (Demo.world Demo.keeping_sort Demo.fresh_node)
                    Search.zeroed Search.zeroed Search.zeroed Search.zeroed)))
          <= @MAX_SONS (Demo.header false)) as Hfit
    by (apply Z.leb_le; vm_compute; reflexivity).
  assert (Forall (fun e => Double.is_number (prior e))
            (live_edges Demo.fresh_node
             ++ @offered_edges (Demo.header false)
                  (Demo.environment Demo.keeping_sort)
                  (Demo.world Demo.keeping_sort Demo.fresh_node) Search.zeroed
                  (@picked_moves (Demo.header false)
                     (Demo.environment Demo.keeping_sort)
                     (Demo.world Demo.keeping_sort Demo.fresh_node)
                     Search.zeroed Search.zeroed Search.zeroed
                     Search.zeroed))) as Hnum
    by (repeat constructor).
  destruct (@generate_moves_sorts_the_generated_edges (Demo.header false)
              (Demo.environment Demo.keeping_sort) keeping_sort_spec
              (DemoFacts.undo_exact Demo.keeping_sort)
              (Demo.world Demo.keeping_sort Demo.fresh_node) 1%positive
              Demo.fresh_node
              Search.zeroed Search.zeroed Search.zeroed Search.zeroed
              Search.zeroed
              (demo_expansion_frame Demo.keeping_sort false Demo.fresh_node)
              eq_refl eq_refl (DemoFacts.wf_fresh_node false) Hfit
              (or_intror eq_refl))
    as (u' & s' & Hrun & Hs' & _ & _ & Hsorted & Hvisits & Hexpanded & _).
  exists u', s'.
  split; [exact Hrun | split; [exact Hs' | ]].
  split; [exact (Hsorted Hnum) | split; [exact Hvisits | exact Hexpanded]].
Defined.

(** C8 at an input: the fresh node of the small world is expanded, then
    a move is asked for with C = 0, as [search] does. *)
Lemma best_move_of_an_expanded_node_witness :
  let w := Demo.world Demo.keeping_sort Demo.fresh_node in
  exists u' s',
    @generate_moves (Demo.header true) (Demo.environment Demo.keeping_sort) w
    = Returned tt u' /\
    store u' !! 1%positive = Some s' /\ 0 < sons s' /\
    @best_move (Demo.header true) (Demo.environment Demo.keeping_sort)
      (Some 1%positive) 0%float u'
    = Returned 0 u'.
Proof.
  cbv zeta.
  assert (0 < Z.of_nat (length
            (@offered_edges (Demo.header true)
               (Demo.environment Demo.keeping_sort)
               (Demo.world Demo.keeping_sort Demo.fresh_node) Search.zeroed
               (@picked_moves (Demo.header true)
                  (Demo.environment Demo.keeping_sort)
                  (Demo.world Demo.keeping_sort Demo.fresh_node)
                  Search.zeroed Search.zeroed Search.zeroed Search.zeroed)))
          <= @MAX_SONS (Demo.header true)) as Hfit
    by (split; [apply Z.ltb_lt | apply Z.leb_le]; vm_compute; reflexivity).
  destruct (@best_move_of_an_expanded_node (Demo.header true)
              (Demo.environment Demo.keeping_sort) keeping_sort_spec
              (DemoFacts.undo_exact Demo.keeping_sort)
              (Demo.world Demo.keeping_sort Demo.fresh_node) 1%positive
              Demo.fresh_node
              Search.zeroed Search.zeroed Search.zeroed Search.zeroed
              Search.zeroed 0%float
              (demo_expansion_frame Demo.keeping_sort true Demo.fresh_node)
              eq_refl eq_refl (DemoFacts.wf_fresh_node true) eq_refl Hfit)
    as (u' & s' & Hrun & Hs' & Hsons & _ & _ & Hbest).
  exists u', s'.
  split; [exact Hrun | split; [exact Hs' | split; [exact Hsons | exact Hbest]]].
Defined.

(** X4 at an input: one pass of the loop with the descent count at the
    greatest [int]. *)
Lemma search_loop_counts_witness :
  let w := set_descentCnt 2147483647
             (Demo.world Demo.keeping_sort Demo.fresh_node) in
  @search_loop (Demo.environment Demo.keeping_sort) 1 w
  = Returned false (set_playoutCnt 8 (set_descentCnt (-2147483648) w)).
Proof.
  cbv zeta.
  assert (int_range 2147483647) as Hd by (unfold int_range; cbn; lia).
  assert (int_range 7) as Hp by (unfold int_range; cbn; lia).
  assert (0 < 5) as Hsize by lia.
  exact (proj1 (@search_loop_counts (Demo.environment Demo.keeping_sort) 1
                  (set_descentCnt 2147483647
                     (Demo.world Demo.keeping_sort Demo.fresh_node))
                  Hd Hp) Hsize).
Defined.

(** X1 at an input: the root of a world whose tree holds a played node. *)
Lemma create_root_erases_the_tree_witness :
  let w := Demo.world Demo.keeping_sort Demo.played_node in
  exists u',
    @create_root (Demo.header true) (Demo.environment Demo.keeping_sort) [] w
    = Returned tt u' /\
    root u' = nullptr /\ store u' = store w.
Proof.
  cbv zeta.
  destruct (@create_root_erases_the_tree (Demo.header true)
              (Demo.environment Demo.keeping_sort) []
              (Demo.world Demo.keeping_sort Demo.played_node)
              (demo_header_consistent true))
    as (u' & Hrun & Hroot & _ & _ & _ & _ & _ & Hstore & _).
  exists u'. split; [exact Hrun | split; [exact Hroot | exact Hstore]].
Defined.

(** X2 at an input: two calls in a row, with different arguments. *)
Lemma create_root_twice_witness :
  let w := Demo.world Demo.keeping_sort Demo.played_node in
  exists u',
    @create_root (Demo.header true) (Demo.environment Demo.keeping_sort) [] w
    = Returned tt u' /\
    @create_root (Demo.header true) (Demo.environment Demo.keeping_sort)
      [1; 2] u'
    = Returned tt u'.
Proof.
  exact (@create_root_twice (Demo.header true)
           (Demo.environment Demo.keeping_sort) [] [1; 2]
           (Demo.world Demo.keeping_sort Demo.played_node)
           (demo_header_consistent true)).
Defined.

(** X3 at an input: a move taken back at the root of the small world. *)
Lemma undo_move_at_the_root_witness :
  let w := Demo.world Demo.keeping_sort Demo.fresh_node in
  exists u1 u2,
    @create_root (Demo.header true) (Demo.environment Demo.keeping_sort) [] w
    = Returned tt u1 /\
    @undo_move (Demo.header true) (Demo.environment Demo.keeping_sort) u1
    = Returned tt u2 /\
    ply u2 = -1.
Proof.
  cbv zeta.
  destruct (@undo_move_at_the_root (Demo.header true)
              (Demo.environment Demo.keeping_sort) []
              (Demo.world Demo.keeping_sort Demo.fresh_node)
              (demo_header_consistent true))
    as (u1 & u2 & Hroot & Hundo & Hply & _).
  exists u1, u2. split; [exact Hroot | split; [exact Hundo | exact Hply]].
Defined.

(** X5 at an input: the played node, selected with C = 0 after the
    constant 3 was stored. *)
Lemma exploration_constant_is_not_read_witness :
  let w := Demo.world Demo.keeping_sort Demo.played_node in
  exists m,
    @best_move (Demo.header true) (Demo.environment Demo.keeping_sort)
      (Some 1%positive) 0%float w
    = Returned m w /\
    (@set_exploration_constant (Demo.environment Demo.keeping_sort) 3%float;;
     @best_move (Demo.header true) (Demo.environment Demo.keeping_sort)
       (Some 1%positive) 0%float) w
    = Returned m (set_explorationConstant 3%float w).
Proof.
  cbv zeta.
  assert (sons Demo.played_node
          <= Z.of_nat (length (edges Demo.played_node))) as Hsons
    by (cbn; lia).
  destruct (@exploration_constant_is_not_read (Demo.header true)
              (Demo.environment Demo.keeping_sort) 1%positive
              Demo.played_node 0%float 3%float
              (Demo.world Demo.keeping_sort Demo.played_node)
              eq_refl Hsons) as (m & Hrun & Hset & _).
  exists m. split; [exact Hrun | exact Hset].
Defined.

(** X6 at an input: the move 5 at the root of the small world. *)
Lemma do_move_records_the_move_witness :
  let w := Demo.world Demo.keeping_sort Demo.fresh_node in
  exists u',
    @do_move (Demo.header true) (Demo.environment Demo.keeping_sort) 5 w
    = Returned tt u' /\
    ply u' = 1 /\ pos u' = [5] /\
    stackBuffer u' !! 4%nat = Some (Search.mkStack 0 5 (Some (1, 5)) 0 [0; 0]).
Proof.
  cbv zeta.
  destruct (@do_move_records_the_move (Demo.header true)
              (Demo.environment Demo.keeping_sort) 5
              (Demo.world Demo.keeping_sort Demo.fresh_node) Search.zeroed
              (demo_room Demo.keeping_sort true Demo.fresh_node) eq_refl)
    as (u' & Hrun & Hply & Hpos & Hentry & _).
  exists u'.
  split; [exact Hrun | split; [exact Hply | split; [exact Hpos | exact Hentry]]].
Defined.

(** X7 at an input: a move at ply 8, where [stack[8]] and [states[8]] lie
    after the last entry of their arrays. *)
Lemma do_move_beyond_capacity_witness :
  @do_move (Demo.header true) (Demo.environment Demo.keeping_sort) 5
    (set_ply 8 (Demo.world Demo.keeping_sort Demo.fresh_node))
  = Undefined.
Proof.
  apply (@do_move_beyond_capacity (Demo.header true)
           (Demo.environment Demo.keeping_sort) 5
           (set_ply 8 (Demo.world Demo.keeping_sort Demo.fresh_node))).
  right. cbn. lia.
Defined.

(** X8 at an input: the prior of the move 3 at the root of the small
    world. *)
Lemma calculate_prior_restores_witness :
  let w := Demo.world Demo.keeping_sort Demo.fresh_node in
  exists r u',
    @calculate_prior (Demo.header true) (Demo.environment Demo.keeping_sort)
      3 1 w
    = Returned r u' /\
    ply u' = 0 /\ pos u' = [] /\ store u' = store w.
Proof.
  cbv zeta.
  destruct (@calculate_prior_restores (Demo.header true)
              (Demo.environment Demo.keeping_sort)
              (DemoFacts.undo_exact Demo.keeping_sort) 3 1 2
              (Demo.world Demo.keeping_sort Demo.fresh_node)
              Search.zeroed Search.zeroed
              eq_refl (demo_room Demo.keeping_sort true Demo.fresh_node)
              eq_refl eq_refl)
    as (u' & Hrun & _ & Hply & Hpos & Hstore & _).
  eexists _, u'.
  split; [exact Hrun | split; [exact Hply | split; [exact Hpos | exact Hstore]]].
Defined.

(** X9 at an input: the small world with the node table erased. *)
Lemma expansion_without_a_node_witness :
  let w := set_nodesBuffer (replicate 8 nullptr)
             (Demo.world Demo.keeping_sort Demo.fresh_node) in
  @generate_moves (Demo.header true) (Demo.environment Demo.keeping_sort) w
  = Undefined /\
  @best_move (Demo.header true) (Demo.environment Demo.keeping_sort)
    nullptr 10%float w
  = Undefined.
Proof.
  exact (@expansion_without_a_node (Demo.header true)
           (Demo.environment Demo.keeping_sort)
           (set_nodesBuffer (replicate 8 nullptr)
              (Demo.world Demo.keeping_sort Demo.fresh_node))
           10%float eq_refl).
Defined.

(** X10 at an input: the expansion of the fresh node of the small world,
    whose three entries take the three moves of the picker. *)
Lemma generate_moves_restores_the_search_witness :
  let w := Demo.world Demo.keeping_sort Demo.fresh_node in
  exists u',
    @generate_moves (Demo.header false) (Demo.environment Demo.keeping_sort) w
    = Returned tt u' /\
    pos u' = [] /\ ply u' = 0 /\ cerr u' = [].
Proof.
  cbv zeta.
  assert (Z.of_nat (length
            (@offered_edges (Demo.header false)
               (Demo.environment Demo.keeping_sort)
               (Demo.world Demo.keeping_sort Demo.fresh_node) Search.zeroed
               (@picked_moves (Demo.header false)
                  (Demo.environment Demo.keeping_sort)
                  (Demo.world Demo.keeping_sort Demo.fresh_node)
                  Search.zeroed Search.zeroed Search.zeroed Search.zeroed)))
          <= @MAX_SONS (Demo.header false)) as Hfit
    by (apply Z.leb_le; vm_compute; reflexivity).
  destruct (@generate_moves_restores_the_search (Demo.header false)
              (Demo.environment Demo.keeping_sort) keeping_sort_spec
              (DemoFacts.undo_exact Demo.keeping_sort)
              (Demo.world Demo.keeping_sort Demo.fresh_node) 1%positive
              Demo.fresh_node
              Search.zeroed Search.zeroed Search.zeroed Search.zeroed
              Search.zeroed
              (demo_expansion_frame Demo.keeping_sort false Demo.fresh_node)
              eq_refl eq_refl (DemoFacts.wf_fresh_node false) eq_refl Hfit)
    as (u' & Hrun & Hpos & Hply & _ & Hcerr & _).
  exists u'.
  split; [exact Hrun | split; [exact Hpos | split; [exact Hply | exact Hcerr]]].
Defined.

(** X11 at an input: the node of the small world after its expansion. *)
Lemma generate_moves_fills_the_node_witness :
  let w := Demo.world Demo.keeping_sort Demo.fresh_node in
  exists u' s',
    @generate_moves (Demo.header false) (Demo.environment Demo.keeping_sort) w
    = Returned tt u' /\
    store u' !! 1%positive = Some s' /\
    Permutation (move <$> live_edges s') [1; 2; 3].
Proof.
  cbv zeta.
  assert (Z.of_nat (length
            (@offered_edges (Demo.header false)
               (Demo.environment Demo.keeping_sort)
               (Demo.world Demo.keeping_sort Demo.fresh_node) Search.zeroed
               (@picked_moves (Demo.header false)
                  (Demo.environment Demo.keeping_sort)
                  (Demo.world Demo.keeping_sort Demo.fresh_node)
                  Search.zeroed Search.zeroed Search.zeroed Search.zeroed)))
          <= @MAX_SONS (Demo.header false)) as Hfit
    by (apply Z.leb_le; vm_compute; reflexivity).
  destruct (@generate_moves_fills_the_node (Demo.header false)
              (Demo.environment Demo.keeping_sort) keeping_sort_spec
              (DemoFacts.undo_exact Demo.keeping_sort)
              (Demo.world Demo.keeping_sort Demo.fresh_node) 1%positive
              Demo.fresh_node
              Search.zeroed Search.zeroed Search.zeroed Search.zeroed
              Search.zeroed
              (demo_expansion_frame Demo.keeping_sort false Demo.fresh_node)
              eq_refl eq_refl (DemoFacts.wf_fresh_node false) eq_refl Hfit)
    as (u' & s' & Hrun & Hs' & _ & _ & Hperm & _).
  exists u', s'. split; [exact Hrun | split; [exact Hs' | exact Hperm]].
Defined.

(** X12 at an input: three legal moves for a node of two entries, in a
    build without assertions. *)
Lemma generate_moves_drops_moves_beyond_capacity_witness :
  let w := Demo.world Demo.keeping_sort Demo.narrow_node in
  exists u',
    @generate_moves (Demo.narrow_header true)
      (Demo.environment Demo.keeping_sort) w
    = Returned tt u' /\
    cerr u' = ["ERROR : too many sons (2) in add_prior_to_node()"] /\
    pos u' = [] /\ ply u' = 0.
Proof.
  cbv zeta.
  assert (@MAX_SONS (Demo.narrow_header true)
          < Z.of_nat (length
              (@offered_edges (Demo.narrow_header true)
                 (Demo.environment Demo.keeping_sort)
                 (Demo.world Demo.keeping_sort Demo.narrow_node) Search.zeroed
                 (@picked_moves (Demo.narrow_header true)
                    (Demo.environment Demo.keeping_sort)
                    (Demo.world Demo.keeping_sort Demo.narrow_node)
                    Search.zeroed Search.zeroed Search.zeroed Search.zeroed))))
    as Hover by (apply Z.ltb_lt; vm_compute; reflexivity).
  destruct (@generate_moves_drops_moves_beyond_capacity
              (Demo.narrow_header true)
              (Demo.environment Demo.keeping_sort) keeping_sort_spec
              (DemoFacts.undo_exact Demo.keeping_sort)
              (Demo.world Demo.keeping_sort Demo.narrow_node) 1%positive
              Demo.narrow_node
              Search.zeroed Search.zeroed Search.zeroed Search.zeroed
              Search.zeroed eq_refl
              (narrow_expansion_frame Demo.keeping_sort true Demo.narrow_node)
              eq_refl eq_refl (wf_narrow_node true) eq_refl Hover)
    as (u' & Hrun & _ & Hcerr & Hpos & Hply).
  exists u'.
  split; [exact Hrun | split; [exact Hcerr | split; [exact Hpos | exact Hply]]].
Defined.

(** X13 at an input: the same expansion in a build with assertions. *)
Lemma generate_moves_aborts_beyond_capacity_witness :
  let w := Demo.world Demo.keeping_sort Demo.narrow_node in
  exists u',
    @generate_moves (Demo.narrow_header false)
      (Demo.environment Demo.keeping_sort) w
    = Aborted u' /\
    cerr u' = [] /\ pos u' = [] /\ ply u' = 0.
Proof.
  cbv zeta.
  assert (@MAX_SONS (Demo.narrow_header false)
          < Z.of_nat (length
              (@offered_edges (Demo.narrow_header false)
                 (Demo.environment Demo.keeping_sort)
                 (Demo.world Demo.keeping_sort Demo.narrow_node) Search.zeroed
                 (@picked_moves (Demo.narrow_header false)
                    (Demo.environment Demo.keeping_sort)
                    (Demo.world Demo.keeping_sort Demo.narrow_node)
                    Search.zeroed Search.zeroed Search.zeroed Search.zeroed))))
    as Hover by (apply Z.ltb_lt; vm_compute; reflexivity).
  destruct (@generate_moves_aborts_beyond_capacity
              (Demo.narrow_header false)
              (Demo.environment Demo.keeping_sort)
              (DemoFacts.undo_exact Demo.keeping_sort)
              (Demo.world Demo.keeping_sort Demo.narrow_node) 1%positive
              Demo.narrow_node
              Search.zeroed Search.zeroed Search.zeroed Search.zeroed
              Search.zeroed eq_refl
              (narrow_expansion_frame Demo.keeping_sort false Demo.narrow_node)
              eq_refl eq_refl (wf_narrow_node false) eq_refl Hover)
    as (u' & Hrun & _ & Hcerr & Hpos & Hply).
  exists u'.
  split; [exact Hrun | split; [exact Hcerr | split; [exact Hpos | exact Hply]]].
Defined.

(** X14 at an input: the played node under C = 0. *)
Lemma best_move_stays_in_the_node_witness :
  let w := Demo.world Demo.keeping_sort Demo.played_node in
  exists m,
    @best_move (Demo.header true) (Demo.environment Demo.keeping_sort)
      (Some 1%positive) 0%float w
    = Returned m w /\
    (m = 0 \/ exists e, e ∈ live_edges Demo.played_node /\ m = move e).
Proof.
  cbv zeta.
  assert (sons Demo.played_node
          <= Z.of_nat (length (edges Demo.played_node))) as Hsons
    by (cbn; lia).
  destruct (@best_move_stays_in_the_node (Demo.header true)
              (Demo.environment Demo.keeping_sort) 1%positive
              Demo.played_node 0%float
              (Demo.world Demo.keeping_sort Demo.played_node)
              eq_refl Hsons) as (m & Hrun & [Hnone | (e & He & Hm & _)]).
  - exists m. split; [exact Hrun | left; exact Hnone].
  - exists m. split; [exact Hrun | right; exists e; split; assumption].
Defined.

(** X15 at an input: the node of the small world right after its
    expansion, under C = 10. *)
Lemma best_move_finds_no_unvisited_edge_witness :
  let w := Demo.world Demo.keeping_sort (Demo.expanded_node 1 2) in
  @best_move (Demo.header true) (Demo.environment Demo.keeping_sort)
    (Some 1%positive) 10%float w
  = Returned 0 w.
Proof.
  cbv zeta.
  assert (sons (Demo.expanded_node 1 2)
          <= Z.of_nat (length (edges (Demo.expanded_node 1 2)))) as Hsons
    by (cbn; lia).
  assert (Forall (fun e => visits e = 0 /\ actionValue e = 0%float)
            (live_edges (Demo.expanded_node 1 2))) as Hfresh
    by (repeat constructor).
  exact (@best_move_finds_no_unvisited_edge (Demo.header true)
           (Demo.environment Demo.keeping_sort) 1%positive
           (Demo.expanded_node 1 2) 10%float
           (Demo.world Demo.keeping_sort (Demo.expanded_node 1 2))
           eq_refl Hsons Hfresh).
Defined.

